(** * minswap-py: the transaction and UTXO caches

    A shallow embedding of [src/minswap/transactions.py]: the resume
    estimator, the rate limiter, the two fetch loops ([cache_transactions]
    and [cache_utxos]) and the monthly partition flush
    ([_cache_transactions], [_cache_utxos]), with the properties the
    specification states about them.

    Conventions.
    - A timestamp is a number of seconds since 1970-01-01T00:00:00 (the
      [datetime64[s]] column of the partitions), a [Z].
    - Wall-clock readings ([datetime.now()], [datetime.utcnow()]) and the
      rate limiter's credit are rationals ([Q]); Python computes them in
      binary floating point, which is idealised here as exact arithmetic.
    - A Python exception is an explicit [Raised] outcome. *)

From Stdlib Require Import String.
From Stdlib Require Import ZArith QArith Qround List Bool Lia.
Import ListNotations.

Local Open Scope Z_scope.

(* ===================================================================== *)
(** ** The calendar of [datetime]                                         *)
(* ===================================================================== *)

(** [datetime.year] and [datetime.month] of a timestamp: the proleptic
    Gregorian calendar, computed era by era (an era is 400 years, 146097
    days, and starts on a 1st of March). *)
Module Calendar.

Definition seconds_per_day : Z := 86400.

Definition days_of (t : Z) : Z := t / seconds_per_day.

(** Shift the epoch from 1970-01-01 to 0000-03-01. *)
Definition shifted (t : Z) : Z := days_of t + 719468.

Definition era (t : Z) : Z := shifted t / 146097.

(** Day of the era, in [0, 146096]. *)
Definition doe (t : Z) : Z := shifted t mod 146097.

(** Year of the era, in [0, 399], from the day of the era. *)
Definition yoe_of_doe (d : Z) : Z :=
  (d - d / 1460 + d / 36524 - d / 146096) / 365.

(** Day of the (March-based) year, in [0, 365]. *)
Definition doy_of_doe (d : Z) : Z :=
  let y := yoe_of_doe d in d - (365 * y + y / 4 - y / 100).

(** March-based month, in [0, 11] (0 is March). *)
Definition mp_of_doe (d : Z) : Z := (5 * doy_of_doe d + 2) / 153.

Definition month_of_mp (mp : Z) : Z := if mp <? 10 then mp + 3 else mp - 9.

Definition month_of (t : Z) : Z := month_of_mp (mp_of_doe (doe t)).

Definition year_of (t : Z) : Z :=
  yoe_of_doe (doe t) + era t * 400 + (if month_of t <=? 2 then 1 else 0).

(** Months elapsed since the start of the era. *)
Definition month_of_era (d : Z) : Z := yoe_of_doe d * 12 + mp_of_doe d.

(** A linear index of the calendar month of [t]. *)
Definition month_index (t : Z) : Z := year_of t * 12 + (month_of t - 1).

(** Timestamp of midnight on a civil date (the inverse direction), used
    to write timestamps down in examples. *)
Definition timestamp (y m d : Z) : Z :=
  let y' := if m <=? 2 then y - 1 else y in
  let e := y' / 400 in
  let yoe := y' - e * 400 in
  let mp := if m <=? 2 then m + 9 else m - 3 in
  let doy := (153 * mp + 2) / 5 + d - 1 in
  let doe := yoe * 365 + yoe / 4 - yoe / 100 + doy in
  (e * 146097 + doe - 719468) * seconds_per_day.

End Calendar.

Import Calendar.

Example year_of_epoch : (year_of 0, month_of 0) = (1970, 1).
Proof. reflexivity. Qed.

Example calendar_jan_2023 :
  (year_of (timestamp 2023 1 15), month_of (timestamp 2023 1 15)) = (2023, 1).
Proof. reflexivity. Qed.

Example calendar_leap_day :
  (year_of (timestamp 2024 2 29 + 86399),
   month_of (timestamp 2024 2 29 + 86399)) = (2024, 2)
  /\ month_of (timestamp 2024 2 29 + 86400) = 3.
Proof. split; reflexivity. Qed.

(** *** The month index is monotone in the timestamp *)

Section CalendarMonotone.

(** First day (of the era) of the March-based year [y] of the era. *)
Definition year_start (y : Z) : Z := 365 * y + y / 4 - y / 100.

Lemma yoe_of_doe_mono a b : 0 <= a <= b -> yoe_of_doe a <= yoe_of_doe b.
Proof.
  intros H. unfold yoe_of_doe. apply Z.div_le_mono; [lia|].
  Z.div_mod_to_equations. lia.
Qed.

(** The first and the last day of each year of the era are in it:
    checked year by year. *)
Fixpoint years_ok (n : nat) (y : Z) : bool :=
  match n with
  | O => true
  | S n' =>
      (yoe_of_doe (year_start y) =? y)
      && (yoe_of_doe (year_start (y + 1) - 1) =? y)
      && years_ok n' (y + 1)
  end.

Definition era_years : nat := Z.to_nat 400.

Lemma years_ok_all : years_ok era_years 0 = true.
Proof. vm_compute. reflexivity. Qed.

Lemma years_ok_at n : forall y k,
    years_ok n y = true -> y <= k < y + Z.of_nat n ->
    yoe_of_doe (year_start k) = k /\ yoe_of_doe (year_start (k + 1) - 1) = k.
Proof.
  induction n as [|n IH]; intros y k Hok Hk; [lia|].
  cbn [years_ok] in Hok.
  apply andb_true_iff in Hok. destruct Hok as [Hok Hrest].
  apply andb_true_iff in Hok. destruct Hok as [H1 H2].
  destruct (Z.eq_dec k y) as [->|Hne].
  - split; apply Z.eqb_eq; assumption.
  - apply (IH (y + 1)); [assumption | lia].
Qed.

Lemma year_ends k : 0 <= k < 400 ->
    yoe_of_doe (year_start k) = k /\ yoe_of_doe (year_start (k + 1) - 1) = k.
Proof.
  intros Hk. apply (years_ok_at _ 0 k years_ok_all). unfold era_years. lia.
Qed.

Lemma year_start_step y : 0 <= y ->
    0 <= year_start y /\ 365 <= year_start (y + 1) - year_start y <= 366.
Proof. intros Hy. unfold year_start. Z.div_mod_to_equations. lia. Qed.

Lemma yoe_of_doe_range d : 0 <= d < 146097 -> 0 <= yoe_of_doe d <= 399.
Proof.
  intros Hd.
  pose proof (yoe_of_doe_mono 0 d ltac:(lia)) as H0.
  pose proof (yoe_of_doe_mono d 146096 ltac:(lia)) as H1.
  change (yoe_of_doe 0) with 0 in H0.
  change (yoe_of_doe 146096) with 399 in H1. lia.
Qed.

(** A day lies within the year the formula assigns to it. *)
Lemma doe_in_year d : 0 <= d < 146097 ->
    year_start (yoe_of_doe d) <= d <= year_start (yoe_of_doe d) + 365.
Proof.
  intros Hd. pose proof (yoe_of_doe_range d Hd) as Hy.
  set (y := yoe_of_doe d) in *. split.
  - destruct (Z_le_gt_dec (year_start y) d) as [|Hgt]; [assumption|exfalso].
    assert (Hy0 : 0 < y).
    { destruct (Z.eq_dec y 0) as [E|]; [|lia].
      rewrite E in Hgt. change (year_start 0) with 0 in Hgt. lia. }
    destruct (year_ends (y - 1) ltac:(lia)) as [_ Hlast].
    replace (y - 1 + 1) with y in Hlast by lia.
    pose proof (yoe_of_doe_mono d (year_start y - 1) ltac:(lia)) as Hm.
    fold y in Hm. lia.
  - destruct (Z.eq_dec y 399) as [E|NE].
    + rewrite E. change (year_start 399) with 145731. lia.
    + pose proof (year_start_step y ltac:(lia)) as Hs.
      destruct (Z_lt_ge_dec d (year_start (y + 1))) as [|Hge]; [lia|exfalso].
      destruct (year_ends (y + 1) ltac:(lia)) as [Hfirst _].
      pose proof (yoe_of_doe_mono (year_start (y + 1)) d ltac:(lia)) as Hm.
      fold y in Hm. lia.
Qed.

Lemma doy_of_doe_range d : 0 <= d < 146097 -> 0 <= doy_of_doe d <= 365.
Proof.
  intros Hd. pose proof (doe_in_year d Hd) as Hin.
  pose proof (yoe_of_doe_range d Hd) as Hy.
  unfold doy_of_doe. fold (year_start (yoe_of_doe d)). lia.
Qed.

Lemma mp_of_doe_range d : 0 <= d < 146097 -> 0 <= mp_of_doe d <= 11.
Proof.
  intros Hd. pose proof (doy_of_doe_range d Hd) as H.
  unfold mp_of_doe. Z.div_mod_to_equations. lia.
Qed.

Lemma month_of_era_mono a b :
  0 <= a <= b -> b < 146097 -> month_of_era a <= month_of_era b.
Proof.
  intros Hab Hb. unfold month_of_era.
  pose proof (yoe_of_doe_mono a b Hab) as Hy.
  pose proof (mp_of_doe_range a ltac:(lia)) as Ha.
  pose proof (mp_of_doe_range b ltac:(lia)) as Hb'.
  destruct (Z.eq_dec (yoe_of_doe a) (yoe_of_doe b)) as [E|NE]; [|lia].
  enough (mp_of_doe a <= mp_of_doe b) by lia.
  unfold mp_of_doe. apply Z.div_le_mono; [lia|].
  unfold doy_of_doe. rewrite E. lia.
Qed.

Lemma doe_range t : 0 <= doe t < 146097.
Proof. unfold doe. apply Z.mod_pos_bound. lia. Qed.

Lemma month_of_range t : 1 <= month_of t <= 12.
Proof.
  unfold month_of, month_of_mp.
  pose proof (mp_of_doe_range _ (doe_range t)) as Hmp.
  destruct (mp_of_doe (doe t) <? 10) eqn:E;
    [apply Z.ltb_lt in E | apply Z.ltb_ge in E]; lia.
Qed.

Lemma month_index_eq t :
  month_index t = era t * 4800 + month_of_era (doe t) + 2.
Proof.
  unfold month_index, year_of, month_of, month_of_mp, month_of_era.
  pose proof (mp_of_doe_range _ (doe_range t)) as Hmp.
  destruct (mp_of_doe (doe t) <? 10) eqn:E.
  - apply Z.ltb_lt in E.
    destruct (mp_of_doe (doe t) + 3 <=? 2) eqn:E2;
      [apply Z.leb_le in E2; lia | lia].
  - apply Z.ltb_ge in E.
    destruct (mp_of_doe (doe t) - 9 <=? 2) eqn:E2;
      [lia | apply Z.leb_gt in E2; lia].
Qed.

Lemma month_index_mono t1 t2 : t1 <= t2 -> month_index t1 <= month_index t2.
Proof.
  intros Hle. rewrite !month_index_eq.
  assert (Hs : shifted t1 <= shifted t2).
  { unfold shifted, days_of, seconds_per_day.
    pose proof (Z.div_le_mono t1 t2 86400 ltac:(lia) Hle). lia. }
  pose proof (doe_range t1) as Hd1. pose proof (doe_range t2) as Hd2.
  assert (He : era t1 <= era t2)
    by (unfold era; apply Z.div_le_mono; lia).
  pose proof (mp_of_doe_range _ Hd1) as Hm1.
  pose proof (mp_of_doe_range _ Hd2) as Hm2.
  pose proof (yoe_of_doe_range _ Hd1) as Hy1.
  pose proof (yoe_of_doe_range _ Hd2) as Hy2.
  destruct (Z.eq_dec (era t1) (era t2)) as [Heq|Hne].
  - assert (doe t1 <= doe t2).
    { unfold doe, era in *. rewrite !Z.mod_eq by lia. nia. }
    pose proof (month_of_era_mono (doe t1) (doe t2) ltac:(lia) ltac:(lia)).
    lia.
  - unfold month_of_era. nia.
Qed.

(** Two timestamps of one calendar month: same year, same month. *)
Lemma month_index_inj t1 t2 :
  month_index t1 = month_index t2 ->
  year_of t1 = year_of t2 /\ month_of t1 = month_of t2.
Proof.
  unfold month_index. intros H.
  pose proof (month_of_range t1). pose proof (month_of_range t2). lia.
Qed.

End CalendarMonotone.

(* ===================================================================== *)
(** ** Data model                                                         *)
(* ===================================================================== *)

Abbreviation len l := (Z.of_nat (List.length l)).

(** Modelled from the spec: [PoolTransactionReference] is declared in
    [minswap/models.py], which is not among the sources; its four fields
    are those of the specification's TransactionReference. *)
Record PoolTransactionReference : Type := mkTx {
  tx_hash : string;
  tx_index : Z;
  block_height : Z;
  time : Z
}.

(** The references pandas and arrow hold: a time within the range of
    [datetime64[ns]] (from 1677-09-21 to 2262-04-11, in seconds) and integer
    fields within 64 bits, signed. On other values the conversion of line
    91 or [to_feather] raises. *)
Definition storable (r : PoolTransactionReference) : Prop :=
  -9223372036 <= time r <= 9223372036
  /\ - 2 ^ 63 <= tx_index r < 2 ^ 63
  /\ - 2 ^ 63 <= block_height r < 2 ^ 63.

Inductive Side : Type := input | output.

(** One row of the frame [get_utxo] builds: the [side] key, the columns of
    the provider's answer (kept abstract as one payload) and the [hash]. *)
Record Utxo : Type := mkUtxo {
  side : Side;
  payload : string;
  hash : string
}.

(** A row of a UTXO partition: [_cache_utxos] adds the [time] column. *)
Record UtxoRow : Type := mkRow {
  row : Utxo;
  row_time : Z
}.

(** The exceptions the modelled code can raise. [OutOfFuel] is not a Python
    exception: it marks a loop of the model that ran out of its iteration
    bound, and is shown never to occur. *)
Inductive exn : Type :=
| IndexError | ValueError | UnboundLocalError | OutOfFuel.

Inductive result (A : Type) : Type :=
| Ok (a : A)
| Raised (e : exn).
Arguments Ok {A} a.
Arguments Raised {A} e.

(* ===================================================================== *)
(** ** The partition directory of one pool                                *)
(* ===================================================================== *)

(** A cache directory holds one [.arrow] file per month. A file is named by
    the digits [f"{year}{str(month).zfill(2)}"], represented by the number
    they spell, [year * 100 + month]; the directory is kept in file-name
    order, the order in which [vaex.open] concatenates the files matched by
    a pattern. *)
Section Directory.

Context {R : Type}.

Definition dir : Type := list (Z * list R).

Fixpoint read_feather (name : Z) (d : dir) : option (list R) :=
  match d with
  | [] => None
  | (k, v) :: d' => if k =? name then Some v else read_feather name d'
  end.

Fixpoint to_feather (name : Z) (df : list R) (d : dir) : dir :=
  match d with
  | [] => [(name, df)]
  | (k, v) :: d' =>
      if name <? k then (name, df) :: d
      else if name =? k then (name, df) :: d'
      else (k, v) :: to_feather name df d'
  end.

(** The pattern [[0-9][0-9][0-9][0-9][0-9][0-9].arrow]: six digits. *)
Definition six_digits (name : Z) : bool :=
  (100000 <=? name) && (name <=? 999999).

Definition glob (d : dir) : dir := filter (fun e => six_digits (fst e)) d.

(** [vaex.open] on the pattern: [None] stands for the [OSError] that
    [get_transaction_cache] and [get_utxo_cache] turn into [None]. *)
Definition vaex_open (d : dir) : option (list R) :=
  match glob d with
  | [] => None
  | files => Some (concat (map snd files))
  end.

End Directory.
Arguments dir R : clear implicits.

Definition cache_name (t : Z) : Z := year_of t * 100 + month_of t.

Definition get_transaction_cache (d : dir PoolTransactionReference)
  : option (list PoolTransactionReference) := vaex_open d.

Definition get_utxo_cache (d : dir UtxoRow) : option (list UtxoRow) :=
  vaex_open d.

(* ===================================================================== *)
(** ** The monthly flush                                                  *)
(* ===================================================================== *)

Section Flush.

Context {R : Type}.
Variable rtime : R -> Z.

(** [values[-1]] of the time column. *)
Definition last_time (df : list R) : option Z :=
  match df with
  | [] => None
  | r :: _ => Some (rtime (last df r))
  end.

(** Lines 100-113 and 146-159, the same in both flush functions: append
    to the month's file what is newer than its last row, or create it. *)
Definition merge_partition (df : list R) (name : Z) (d : dir R)
  : result (dir R) :=
  match read_feather name d with
  | Some cache_df =>
      match last_time cache_df with
      | None => Raised IndexError
      | Some threshold =>
          let filtered := filter (fun r => threshold <? rtime r) df in
          if 0 <? len filtered
          then Ok (to_feather name (cache_df ++ filtered) d)
          else Ok d
      end
  | None => Ok (to_feather name df d)
  end.

End Flush.

Section Split.

Context {A : Type}.
Variable t_of : A -> Z.

(** The [for index in range(len(l) - 1)] scan with its [break]: the
    position just behind the first change of month number. *)
Fixpoint month_break (i : nat) (l : list A) : option nat :=
  match l with
  | a :: (b :: _) as tl =>
      if negb (month_of (t_of a) =? month_of (t_of b)) then Some (S i)
      else month_break (S i) tl
  | _ => None
  end.

(** Lines 81-87 (and 121-127). Without a [break] the loop variable keeps
    its last value [len(l) - 2], and is unbound when the range is empty. *)
Definition split_index (l : list A) : result nat :=
  match l with
  | [] => Raised IndexError
  | a :: _ =>
      if month_of (t_of a) =? month_of (t_of (last l a))
      then Ok (length l)
      else match month_break 0 l with
           | Some i => Ok i
           | None => match length l with
                     | S (S n) => Ok n
                     | _ => Raised UnboundLocalError
                     end
           end
  end.

(** The guard of the flush loops (lines 364-367 and 476-479). *)
Definition spans_months (l : list A) : bool :=
  match l with
  | [] => false
  | a :: _ => negb (month_of (t_of a) =? month_of (t_of (last l a)))
  end.

End Split.

(** Lines 78-115, on references pandas and arrow hold ([storable]): the
    raises of line 91 and of [to_feather] on other values are not
    followed. *)
Definition _cache_transactions
    (transactions : list PoolTransactionReference)
    (cache_path : dir PoolTransactionReference)
  : result (dir PoolTransactionReference * list PoolTransactionReference) :=
  match split_index time transactions with
  | Raised e => Raised e
  | Ok index =>
      match transactions with
      | [] => Raised IndexError
      | first :: _ =>
          let df := firstn index transactions in
          match merge_partition time df (cache_name (time first)) cache_path with
          | Raised e => Raised e
          | Ok d => Ok (d, skipn index transactions)
          end
      end
  end.

(** Lines 129-137: every frame gets its transaction's time, then all are
    concatenated. *)
Definition add_time (utxos : list (Z * list Utxo)) : list UtxoRow :=
  concat (map (fun tdf => map (fun u => mkRow u (fst tdf)) (snd tdf)) utxos).

Definition _cache_utxos
    (utxos : list (Z * list Utxo)) (cache_path : dir UtxoRow)
  : result (dir UtxoRow * list (Z * list Utxo)) :=
  match split_index fst utxos with
  | Raised e => Raised e
  | Ok index =>
      match utxos with
      | [] => Raised IndexError
      | first :: _ =>
          let df := add_time (firstn index utxos) in
          match merge_partition row_time df (cache_name (fst first)) cache_path with
          | Raised e => Raised e
          | Ok d => Ok (d, skipn index utxos)
          end
      end
  end.

(* ===================================================================== *)
(** ** The world a run acts on                                            *)
(* ===================================================================== *)

(** What a run does to the outside, in order. *)
Inductive event : Type :=
| Request (page : Z)        (** one [get_pool_transaction_history] call *)
| RequestUtxo (tx : string) (** one [get_utxo] call *)
| Warning (delay_time : Q)  (** the [logger.warning] of the rate limiter *)
| Sleep (delay_time : Q).   (** [time.sleep] *)

(** The collaborators of a run: the machine, the wall clock (its successive
    readings) and the remote provider, for the pool at hand. *)
Record Env : Type := mkEnv {
  cpu_count : Z;
  clock : nat -> Q;
  get_pool_transaction_history : string -> Z -> list PoolTransactionReference;
  get_utxo : string -> list Utxo
}.

(** The two cache directories of the pool, the number of clock readings
    taken so far and the events so far (oldest first). *)
Record world : Type := mkWorld {
  tx_dir : dir PoolTransactionReference;
  utxo_dir : dir UtxoRow;
  ticks : nat;
  trace : list event
}.

Definition M (A : Type) : Type := world -> result A * world.

Definition ret {A} (a : A) : M A := fun w => (Ok a, w).

Definition bind {A B} (m : M A) (f : A -> M B) : M B :=
  fun w => match m w with
           | (Ok a, w') => f a w'
           | (Raised e, w') => (Raised e, w')
           end.

Definition raise {A} (e : exn) : M A := fun w => (Raised e, w).

Declare Scope run_scope.
Delimit Scope run_scope with run.
Notation "x <- m ;; k" := (bind m (fun x => k))
  (at level 61, m at next level, right associativity) : run_scope.
Notation "m ;;; k" := (bind m (fun _ => k))
  (at level 61, right associativity) : run_scope.
Notation "' p <- m ;; k" := (bind m (fun x => let p := x in k))
  (at level 61, p pattern, m at next level, right associativity) : run_scope.
Local Open Scope run_scope.

Definition emit (ev : event) : M unit :=
  fun w => (Ok tt, mkWorld (tx_dir w) (utxo_dir w) (ticks w) (trace w ++ [ev])).

Definition emit_all (evs : list event) : M unit :=
  fun w => (Ok tt, mkWorld (tx_dir w) (utxo_dir w) (ticks w) (trace w ++ evs)).

(** [datetime.now()] / [datetime.utcnow()]: the next reading of the clock. *)
Definition now (env : Env) : M Q :=
  fun w => (Ok (clock env (ticks w)),
            mkWorld (tx_dir w) (utxo_dir w) (S (ticks w)) (trace w)).

Definition on_tx_dir {A}
    (f : dir PoolTransactionReference
         -> result (dir PoolTransactionReference * A)) : M A :=
  fun w => match f (tx_dir w) with
           | Ok (d, a) => (Ok a, mkWorld d (utxo_dir w) (ticks w) (trace w))
           | Raised e => (Raised e, w)
           end.

Definition on_utxo_dir {A}
    (f : dir UtxoRow -> result (dir UtxoRow * A)) : M A :=
  fun w => match f (utxo_dir w) with
           | Ok (d, a) => (Ok a, mkWorld (tx_dir w) d (ticks w) (trace w))
           | Raised e => (Raised e, w)
           end.

(** [get_transaction_cache(pool_id)] and [get_utxo_cache(pool_id)] on the
    pool's directories. *)
Definition load_transaction_cache
  : M (option (list PoolTransactionReference)) :=
  fun w => (Ok (get_transaction_cache (tx_dir w)), w).

Definition load_utxo_cache : M (option (list UtxoRow)) :=
  fun w => (Ok (get_utxo_cache (utxo_dir w)), w).

(** Number of remote calls in a trace. *)
Fixpoint calls (tr : list event) : Z :=
  match tr with
  | [] => 0
  | Request _ :: tr' => 1 + calls tr'
  | RequestUtxo _ :: tr' => 1 + calls tr'
  | _ :: tr' => calls tr'
  end.

(* ===================================================================== *)
(** ** The rate limiter                                                   *)
(* ===================================================================== *)

Local Open Scope Q_scope.

Definition Qltb (x y : Q) : bool := negb (Qle_bool y x).

(** Lines 330-348 of [cache_transactions], and lines 446-464 of
    [cache_utxos] with [batch_size] for [call_batch]. Returns the new
    [calls_allowed] and [call_start]. *)
Definition rate_limit (env : Env) (call_batch : Z)
    (calls_allowed : Q) (call_start : option Q) : M (Q * option Q) :=
  call_end <- now env ;;
  let calls_allowed := calls_allowed - inject_Z call_batch in
  calls_allowed <-
    match call_start with
    | Some call_start =>
        let call_diff := call_end - call_start in
        let calls_allowed := calls_allowed + call_diff * 10 in
        if Qltb calls_allowed 0 then
          let delay_time := 5 * inject_Z call_batch / 10 in
          emit (Warning delay_time) ;;;
          emit (Sleep delay_time) ;;;
          t <- now env ;;
          ret (calls_allowed + (t - call_end) * 10)
        else ret calls_allowed
    | None => ret calls_allowed
    end ;;
  call_start <- now env ;;
  ret (calls_allowed, Some call_start).

(* ===================================================================== *)
(** ** The resume estimator                                               *)
(* ===================================================================== *)

Definition thirty_days : Q := 2592000.

(** Lines 272-277: the rows of the last 30 days, or the whole cache when
    at most one row is that recent. *)
Definition trailing_window (now : Q) (cache : list PoolTransactionReference)
  : list PoolTransactionReference :=
  let last_month := now - thirty_days in
  let filtered := filter (fun r => Qltb last_month (inject_Z (time r))) cache in
  if (len filtered <=? 1)%Z then cache else filtered.

Definition first_time (df : list PoolTransactionReference) : Z :=
  match df with
  | [] => 0%Z
  | r :: _ => time r
  end.

Definition final_time (df : list PoolTransactionReference) : Z :=
  match df with
  | [] => 0%Z
  | r :: _ => time (last df r)
  end.

(** Line 297: [min(cpu_count(), int(time_delta * tps // 100))], read in
    exact arithmetic. The code computes the quotient in binary floating
    point, whose rounding can move the floor by one when the exact
    product is at, or just above, a multiple of 100; what is proved of
    the estimate below uses its sign and its bounds, which hold of the
    rounded value too, or values far from such a multiple. *)
Definition estimated_batch (cpus : Z) (time_delta : Q) (n_transactions : Z)
    (time_period : Z) : Z :=
  let tps := inject_Z n_transactions / inject_Z time_period in
  Z.min cpus (Qfloor (time_delta * tps / 100)).

(** Lines 259-304: the starting page and the batch size. *)
Definition resume_estimate (env : Env)
    (cache : option (list PoolTransactionReference)) : M (Z * Z) :=
  utcnow <- now env ;;
  match cache with
  | Some cache =>
      let page := (len cache / 100 + 1)%Z in
      let filtered := trailing_window utcnow cache in
      call_batch <-
        (if (len filtered <=? 1)%Z then ret 1%Z
         else
           let time_period := (final_time filtered - first_time filtered)%Z in
           let n_transactions := len filtered in
           if (time_period =? 0)%Z then ret 1%Z
           else
             utcnow' <- now env ;;
             let time_delta := utcnow' - inject_Z (final_time filtered) in
             ret (estimated_batch (cpu_count env) time_delta
                    n_transactions time_period)) ;;
      ret (page, call_batch)
  | None => ret (1%Z, cpu_count env)
  end.

(** Lines 306-307. *)
Definition at_least_one_call (call_batch : Z) : Z :=
  if (call_batch =? 0)%Z then 1%Z else call_batch.

(** [ThreadPoolExecutor(max_workers)] refuses a width that is not
    positive. *)
Definition ThreadPoolExecutor (max_workers : Z) : M unit :=
  if (max_workers <=? 0)%Z then raise ValueError else ret tt.

Local Close Scope Q_scope.

(* ===================================================================== *)
(** ** The reference flow: [cache_transactions]                           *)
(* ===================================================================== *)

(** [range(start, start + n)]. *)
Definition page_range (start n : Z) : list Z :=
  map (fun i => start + Z.of_nat i) (seq 0 (Z.to_nat n)).

(** Lines 354-361: the pages of a batch in request order; a page that is
    not full ends the run, an empty one ends the reading of the batch. *)
Fixpoint collect (threads : list (list PoolTransactionReference))
    (done : bool) (transactions : list PoolTransactionReference)
  : bool * list PoolTransactionReference :=
  match threads with
  | [] => (done, transactions)
  | thread :: threads' =>
      if negb (len thread =? 100) then
        if len thread =? 0 then (true, transactions)
        else collect threads' true (transactions ++ thread)
      else collect threads' done (transactions ++ thread)
  end.

(** Lines 364-373: flush the leading months while the buffer spans more
    than one month number. Every round writes at least one record away, so
    the length of the buffer bounds the rounds. *)
Fixpoint flush_months (fuel : nat)
    (transactions : list PoolTransactionReference)
  : M (list PoolTransactionReference) :=
  if spans_months time transactions then
    match fuel with
    | O => raise OutOfFuel
    | S fuel' =>
        rest <- on_tx_dir (_cache_transactions transactions) ;;
        flush_months fuel' rest
    end
  else ret transactions.

(** The variables of the loop of lines 324-374. *)
Record fetch_state : Type := mkFetch {
  page : Z;
  call_batch : Z;
  num_calls : Z;
  done : bool;
  transactions : list PoolTransactionReference;
  calls_allowed : Q;
  call_start : option Q
}.

(** One round of the loop: lines 325-374. [executor.map] submits every
    call of the batch at once, so all of them are issued, also when the
    reading of the results stops at an empty page. *)
Definition fetch_round (env : Env) (pool_id : string) (max_calls : Z)
    (s : fetch_state) : M fetch_state :=
  let call_batch :=
    if num_calls s + call_batch s >? max_calls
    then max_calls - num_calls s else call_batch s in
  let num_calls := num_calls s + call_batch in
  '(calls_allowed, call_start) <-
     rate_limit env call_batch (calls_allowed s) (call_start s) ;;
  let pages := page_range (page s) call_batch in
  emit_all (map Request pages) ;;;
  let threads := map (get_pool_transaction_history env pool_id) pages in
  let '(done, transactions) := collect threads (done s) (transactions s) in
  transactions <- flush_months (length transactions) transactions ;;
  ret (mkFetch (page s + call_batch) call_batch num_calls done transactions
         calls_allowed call_start).

(** [while not done and num_calls < max_calls]. *)
Fixpoint fetch_loop (fuel : nat) (env : Env) (pool_id : string)
    (max_calls : Z) (s : fetch_state) : M fetch_state :=
  if negb (done s) && (num_calls s <? max_calls) then
    match fuel with
    | O => raise OutOfFuel
    | S fuel' =>
        s' <- fetch_round env pool_id max_calls s ;;
        fetch_loop fuel' env pool_id max_calls s'
    end
  else ret s.

(** Lines 376-382 (and 487-493): what is left goes to its month's file. *)
Definition flush_rest (transactions : list PoolTransactionReference)
  : M unit :=
  if 0 <? len transactions then
    on_tx_dir (_cache_transactions transactions) ;;; ret tt
  else ret tt.

(** [cache_transactions(pool_id, max_calls)]. The [save_timestamp]
    decorator, a collaborator outside the sources, is left out. *)
Definition cache_transactions (env : Env) (pool_id : string) (max_calls : Z)
  : M Z :=
  cache <- load_transaction_cache ;;
  '(page, call_batch) <- resume_estimate env cache ;;
  let call_batch := at_least_one_call call_batch in
  ThreadPoolExecutor call_batch ;;;
  s <- fetch_loop (Z.to_nat max_calls) env pool_id max_calls
         (mkFetch page call_batch 0 false [] 500%Q None) ;;
  flush_rest (transactions s) ;;;
  ret (num_calls s).

(* ===================================================================== *)
(** ** The detail flow: [cache_utxos]                                     *)
(* ===================================================================== *)

(** [range(start, stop, step)]. *)
Definition python_range (start stop step : Z) : result (list Z) :=
  if step =? 0 then Raised ValueError
  else
    let n := if 0 <? step then (stop - start + step - 1) / step
             else (start - stop - step - 1) / (- step) in
    Ok (map (fun i => start + Z.of_nat i * step) (seq 0 (Z.to_nat n))).

(** [l[bs:be]] for [0 <= bs]. *)
Definition slice {A} (l : list A) (bs be : Z) : list A :=
  firstn (Z.to_nat (be - bs)) (skipn (Z.to_nat bs) l).

Fixpoint flush_utxo_months (fuel : nat) (tx_utxos : list (Z * list Utxo))
  : M (list (Z * list Utxo)) :=
  if spans_months fst tx_utxos then
    match fuel with
    | O => raise OutOfFuel
    | S fuel' =>
        rest <- on_utxo_dir (_cache_utxos tx_utxos) ;;
        flush_utxo_months fuel' rest
    end
  else ret tx_utxos.

(** The variables of the loop of lines 439-485. *)
Record utxo_state : Type := mkUtxoState {
  batch_size : Z;
  u_num_calls : Z;
  tx_utxos : list (Z * list Utxo);
  u_calls_allowed : Q;
  u_call_start : option Q
}.

(** One round of the loop, for the batch starting at [bs]: lines
    440-485. *)
Definition utxo_round (env : Env) (cache : list PoolTransactionReference)
    (last_index : Z) (s : utxo_state) (bs : Z) : M utxo_state :=
  let be := Z.min (bs + batch_size s) last_index in
  let batch_size := be - bs in
  let num_calls := u_num_calls s + batch_size in
  '(calls_allowed, call_start) <-
     rate_limit env batch_size (u_calls_allowed s) (u_call_start s) ;;
  let batch := slice cache bs be in
  emit_all (map (fun r => RequestUtxo (tx_hash r)) batch) ;;;
  let fetched := map (fun r => (time r, get_utxo env (tx_hash r))) batch in
  let tx_utxos := tx_utxos s ++ fetched in
  tx_utxos <- flush_utxo_months (length tx_utxos) tx_utxos ;;
  ret (mkUtxoState batch_size num_calls tx_utxos calls_allowed call_start).

Fixpoint utxo_loop (env : Env) (cache : list PoolTransactionReference)
    (last_index : Z) (starts : list Z) (s : utxo_state) : M utxo_state :=
  match starts with
  | [] => ret s
  | bs :: starts' =>
      s' <- utxo_round env cache last_index s bs ;;
      utxo_loop env cache last_index starts' s'
  end.

Definition flush_utxo_rest (tx_utxos : list (Z * list Utxo)) : M unit :=
  if 0 <? len tx_utxos then
    on_utxo_dir (_cache_utxos tx_utxos) ;;; ret tt
  else ret tt.

(** Lines 419-425: the references newer than the last cached UTXO row. *)
Definition uncached (cache : list PoolTransactionReference)
    (utxo_cache : option (list UtxoRow))
  : result (list PoolTransactionReference) :=
  match utxo_cache with
  | Some rows =>
      match last_time row_time rows with
      | None => Raised IndexError
      | Some t => Ok (filter (fun r => t <? time r) cache)
      end
  | None => Ok cache
  end.

Definition lift_result {A} (r : result A) : M A :=
  match r with
  | Ok a => ret a
  | Raised e => raise e
  end.

(** [cache_utxos(pool_id, max_calls)]. *)
Definition cache_utxos (env : Env) (pool_id : string) (max_calls : Z)
  : M Z :=
  cache <- load_transaction_cache ;;
  match cache with
  | None => ret 0
  | Some cache =>
      utxo_cache <- load_utxo_cache ;;
      cache <- lift_result (uncached cache utxo_cache) ;;
      let last_index := Z.min max_calls (len cache) in
      let batch_size := cpu_count env in
      starts <- lift_result (python_range 0 last_index batch_size) ;;
      s <- utxo_loop env cache last_index starts
             (mkUtxoState batch_size 0 [] 500%Q None) ;;
      flush_utxo_rest (tx_utxos s) ;;;
      ret (u_num_calls s)
  end.

(* ===================================================================== *)
(** ** Facts about the split                                              *)
(* ===================================================================== *)

Lemma last_default {A} (l : list A) (a b : A) :
  l <> [] -> last l a = last l b.
Proof.
  induction l as [|x l IH]; [congruence|]. intros _.
  destruct l as [|y l]; [reflexivity|].
  change (last (y :: l) a = last (y :: l) b). apply IH. discriminate.
Qed.

Section SplitFacts.

Context {A : Type}.
Variable t_of : A -> Z.

Lemma month_break_gt : forall (l : list A) i j,
    month_break t_of i l = Some j -> (i < j <= i + (length l - 1))%nat.
Proof.
  induction l as [|a l IH]; intros i j H; [discriminate|].
  destruct l as [|b l]; [discriminate|].
  cbn [month_break] in H.
  destruct (negb (month_of (t_of a) =? month_of (t_of b))).
  - injection H as <-. cbn [length]. lia.
  - apply IH in H. cbn [length] in *. lia.
Qed.

Lemma month_break_none : forall (l : list A) a i,
    month_break t_of i (a :: l) = None ->
    month_of (t_of (last (a :: l) a)) = month_of (t_of a).
Proof.
  induction l as [|b l IH]; intros a i H; [reflexivity|].
  cbn [month_break] in H.
  destruct (month_of (t_of a) =? month_of (t_of b)) eqn:E;
    cbn [negb] in H; [|discriminate].
  apply Z.eqb_eq in E. apply IH in H.
  change (last (a :: b :: l) a) with (last (b :: l) a).
  rewrite (last_default (b :: l) a b) by discriminate.
  congruence.
Qed.

(** When the guard of a flush loop holds, the split leaves a strictly
    shorter, non-empty remainder. *)
Lemma split_index_spans (l : list A) :
  spans_months t_of l = true ->
  exists i, split_index t_of l = Ok i
            /\ month_break t_of 0 l = Some i
            /\ (0 < i < length l)%nat.
Proof.
  destruct l as [|a l]; [discriminate|].
  unfold spans_months, split_index. intros H.
  apply negb_true_iff in H. rewrite H.
  destruct (month_break t_of 0 (a :: l)) as [i|] eqn:E.
  - exists i. pose proof (month_break_gt _ _ _ E) as Hi.
    cbn [length] in *. repeat split; lia.
  - apply month_break_none in E. apply Z.eqb_neq in H. congruence.
Qed.

Lemma split_index_whole (l : list A) :
  l <> [] -> spans_months t_of l = false ->
  split_index t_of l = Ok (length l).
Proof.
  destruct l as [|a l]; [congruence|]. intros _.
  unfold spans_months, split_index. intros H.
  apply negb_false_iff in H. rewrite H. reflexivity.
Qed.

End SplitFacts.

(* ===================================================================== *)
(** ** Reasoning about runs                                               *)
(* ===================================================================== *)

(** [spec m w P E]: run from [w], [m] either returns a value and a world
    satisfying [P], or raises in a world satisfying [E]. *)
Definition spec {A} (m : M A) (w : world)
    (P : A -> world -> Prop) (E : exn -> world -> Prop) : Prop :=
  match m w with
  | (Ok a, w') => P a w'
  | (Raised e, w') => E e w'
  end.

Lemma spec_ret {A} (a : A) w (P : A -> world -> Prop) E :
  P a w -> spec (ret a) w P E.
Proof. intros H. exact H. Qed.

Lemma spec_raise {A} e w (P : A -> world -> Prop) (E : exn -> world -> Prop) :
  E e w -> spec (raise e) w P E.
Proof. intros H. exact H. Qed.

Lemma spec_bind {A B} (m : M A) (f : A -> M B) w
    (P' : A -> world -> Prop) (P : B -> world -> Prop) E :
  spec m w P' E ->
  (forall a w', P' a w' -> spec (f a) w' P E) ->
  spec (bind m f) w P E.
Proof.
  unfold spec, bind. intros Hm Hf.
  destruct (m w) as [[a|e] w']; [apply Hf, Hm | exact Hm].
Qed.

Lemma spec_seq {A B} (m : M A) (f : A -> M B) w
    (P' : A -> world -> Prop) (E' : exn -> world -> Prop)
    (P : B -> world -> Prop) (E : exn -> world -> Prop) :
  spec m w P' E' ->
  (forall e w', E' e w' -> E e w') ->
  (forall a w', P' a w' -> spec (f a) w' P E) ->
  spec (bind m f) w P E.
Proof.
  unfold spec, bind. intros Hm HE Hf.
  destruct (m w) as [[a|e] w']; [apply Hf, Hm | apply HE, Hm].
Qed.

Lemma spec_bind_ret {A B} (a : A) (f : A -> M B) w
    (P : B -> world -> Prop) E :
  spec (f a) w P E -> spec (bind (ret a) f) w P E.
Proof. intros H. exact H. Qed.

Lemma spec_weaken {A} (m : M A) w (P P' : A -> world -> Prop)
    (E E' : exn -> world -> Prop) :
  spec m w P E ->
  (forall a w', P a w' -> P' a w') ->
  (forall e w', E e w' -> E' e w') ->
  spec m w P' E'.
Proof.
  unfold spec. intros Hm HP HE.
  destruct (m w) as [[a|e] w']; [apply HP, Hm | apply HE, Hm].
Qed.

Lemma calls_app tr1 tr2 : calls (tr1 ++ tr2) = calls tr1 + calls tr2.
Proof.
  induction tr1 as [|[p|h|d|d] tr1 IH]; cbn [calls app]; lia.
Qed.

Lemma calls_requests pages : calls (map Request pages) = len pages.
Proof. induction pages as [|p l IH]; cbn [calls map length]; lia. Qed.

Lemma calls_utxo_requests {A} (f : A -> string) (l : list A) :
  calls (map (fun r => RequestUtxo (f r)) l) = len l.
Proof. induction l as [|p l IH]; cbn [calls map length]; lia. Qed.

Lemma page_range_length start n : 0 <= n -> len (page_range start n) = n.
Proof.
  intros Hn. unfold page_range. rewrite length_map, length_seq. lia.
Qed.

(** The flush functions raise Python exceptions only. *)
Lemma split_index_raises {A} (t_of : A -> Z) l e :
  split_index t_of l = Raised e -> e <> OutOfFuel.
Proof.
  unfold split_index. destruct l as [|a l]; [intros [= <-]; discriminate|].
  destruct (month_of (t_of a) =? month_of (t_of (last (a :: l) a)));
    [discriminate|].
  destruct (month_break t_of 0 (a :: l)); [discriminate|].
  destruct (length (a :: l)) as [|[|n]]; try discriminate;
    intros [= <-]; discriminate.
Qed.

Lemma merge_partition_raises {R} (rtime : R -> Z) df name d e :
  merge_partition rtime df name d = Raised e -> e <> OutOfFuel.
Proof.
  unfold merge_partition.
  destruct (read_feather name d) as [c|]; [|discriminate].
  destruct (last_time rtime c); [|intros [= <-]; discriminate].
  destruct (0 <? _); discriminate.
Qed.

Lemma _cache_transactions_raises txs d e :
  _cache_transactions txs d = Raised e -> e <> OutOfFuel.
Proof.
  unfold _cache_transactions.
  destruct (split_index time txs) as [i|e'] eqn:Ei.
  - destruct txs as [|a l]; [intros [= <-]; discriminate|].
    destruct (merge_partition _ _ _ _) as [d'|e'] eqn:Em; [discriminate|].
    intros [= <-]. eapply merge_partition_raises, Em.
  - intros [= <-]. eapply split_index_raises, Ei.
Qed.

Lemma _cache_utxos_raises txs d e :
  _cache_utxos txs d = Raised e -> e <> OutOfFuel.
Proof.
  unfold _cache_utxos.
  destruct (split_index fst txs) as [i|e'] eqn:Ei.
  - destruct txs as [|a l]; [intros [= <-]; discriminate|].
    destruct (merge_partition _ _ _ _) as [d'|e'] eqn:Em; [discriminate|].
    intros [= <-]. eapply merge_partition_raises, Em.
  - intros [= <-]. eapply split_index_raises, Ei.
Qed.

(** A flush in the loop leaves fewer records pending. *)
Lemma _cache_transactions_shrinks txs d d' rest :
  spans_months time txs = true ->
  _cache_transactions txs d = Ok (d', rest) ->
  (length rest < length txs)%nat.
Proof.
  intros Hs. destruct (split_index_spans time txs Hs) as (i & Hi & _ & Hlt).
  unfold _cache_transactions. rewrite Hi.
  destruct txs as [|a l]; [discriminate|].
  destruct (merge_partition _ _ _ _); [|discriminate].
  intros [= _ <-]. rewrite length_skipn. lia.
Qed.

Lemma _cache_utxos_shrinks txs d d' rest :
  spans_months fst txs = true ->
  _cache_utxos txs d = Ok (d', rest) ->
  (length rest < length txs)%nat.
Proof.
  intros Hs. destruct (split_index_spans fst txs Hs) as (i & Hi & _ & Hlt).
  unfold _cache_utxos. rewrite Hi.
  destruct txs as [|a l]; [discriminate|].
  destruct (merge_partition _ _ _ _); [|discriminate].
  intros [= _ <-]. rewrite length_skipn. lia.
Qed.

(** What the budget argument needs of a step: it issues no remote call
    and does not hit the model's iteration bound. *)
Definition quiet {A} (m : M A) : Prop :=
  forall w, spec m w
    (fun _ w' => calls (trace w') = calls (trace w))
    (fun e w' => e <> OutOfFuel /\ calls (trace w') = calls (trace w)).

Lemma quiet_ret {A} (a : A) : quiet (ret a).
Proof. intros w. reflexivity. Qed.

Lemma quiet_now env : quiet (now env).
Proof. intros w. reflexivity. Qed.

Lemma quiet_warning d : quiet (emit (Warning d)).
Proof.
  intros w. unfold spec, emit. cbn. rewrite calls_app. cbn. lia.
Qed.

Lemma quiet_sleep d : quiet (emit (Sleep d)).
Proof.
  intros w. unfold spec, emit. cbn. rewrite calls_app. cbn. lia.
Qed.

Lemma quiet_bind {A B} (m : M A) (f : A -> M B) :
  quiet m -> (forall a, quiet (f a)) -> quiet (bind m f).
Proof.
  intros Hm Hf w.
  eapply spec_bind
    with (P' := fun _ w' => calls (trace w') = calls (trace w)).
  - eapply spec_weaken; [apply Hm | auto | auto].
  - intros a w' Hw'. eapply spec_weaken; [apply Hf | |];
      cbn beta; intros; rewrite <- Hw'; assumption.
Qed.

Lemma quiet_raise {A} e : e <> OutOfFuel -> quiet (@raise A e).
Proof. intros He w. split; [assumption | reflexivity]. Qed.

Lemma quiet_lift_result {A} (r : result A) :
  (forall e, r = Raised e -> e <> OutOfFuel) -> quiet (lift_result r).
Proof.
  intros H. destruct r as [a|e]; [apply quiet_ret | apply quiet_raise; auto].
Qed.

Lemma quiet_on_tx_dir {A} f :
  (forall d e, f d = Raised e -> e <> OutOfFuel) -> quiet (@on_tx_dir A f).
Proof.
  intros Hf w. unfold spec, on_tx_dir.
  destruct (f (tx_dir w)) as [[d a]|e] eqn:E; cbn; [reflexivity|].
  split; [eapply Hf, E | reflexivity].
Qed.

Lemma quiet_on_utxo_dir {A} f :
  (forall d e, f d = Raised e -> e <> OutOfFuel) -> quiet (@on_utxo_dir A f).
Proof.
  intros Hf w. unfold spec, on_utxo_dir.
  destruct (f (utxo_dir w)) as [[d a]|e] eqn:E; cbn; [reflexivity|].
  split; [eapply Hf, E | reflexivity].
Qed.

Create HintDb quiet.

#[local] Hint Resolve quiet_ret quiet_now quiet_warning quiet_sleep
  quiet_raise _cache_transactions_raises _cache_utxos_raises : quiet.

Lemma quiet_rate_limit env n ca cs : quiet (rate_limit env n ca cs).
Proof.
  unfold rate_limit.
  apply quiet_bind; [auto with quiet|]. intros call_end.
  apply quiet_bind.
  - destruct cs as [t|]; [|auto with quiet].
    destruct (Qltb _ _); [|auto with quiet].
    repeat (apply quiet_bind; [auto with quiet|]; intros ?).
    auto with quiet.
  - intros ca'. apply quiet_bind; [auto with quiet|]. intros t.
    auto with quiet.
Qed.

Lemma rate_limit_returns env n ca cs w :
  exists r w', rate_limit env n ca cs w = (Ok r, w').
Proof.
  unfold rate_limit, bind, now, emit, ret.
  destruct cs as [t|]; [|eauto].
  destruct (Qltb _ _); eauto.
Qed.

Lemma quiet_flush_months : forall fuel txs,
    (length txs <= fuel)%nat -> quiet (flush_months fuel txs).
Proof.
  induction fuel as [|fuel IH]; intros txs Hlen.
  - destruct txs; [|cbn in Hlen; lia]. apply quiet_ret.
  - cbn [flush_months].
    destruct (spans_months time txs) eqn:Hs; [|apply quiet_ret].
    intros w.
    eapply spec_bind with
      (P' := fun rest w' => calls (trace w') = calls (trace w)
                            /\ (length rest < length txs)%nat).
    + unfold spec, on_tx_dir.
      destruct (_cache_transactions txs (tx_dir w)) as [[d rest]|e] eqn:E;
        cbn.
      * split; [reflexivity|]. eapply _cache_transactions_shrinks; eauto.
      * split; [eapply _cache_transactions_raises, E | reflexivity].
    + intros rest w' [Hc Hlt].
      eapply spec_weaken; [apply (IH rest); lia | |];
        cbn beta; intros; rewrite <- Hc; assumption.
Qed.

Lemma quiet_flush_utxo_months : forall fuel txs,
    (length txs <= fuel)%nat -> quiet (flush_utxo_months fuel txs).
Proof.
  induction fuel as [|fuel IH]; intros txs Hlen.
  - destruct txs; [|cbn in Hlen; lia]. apply quiet_ret.
  - cbn [flush_utxo_months].
    destruct (spans_months fst txs) eqn:Hs; [|apply quiet_ret].
    intros w.
    eapply spec_bind with
      (P' := fun rest w' => calls (trace w') = calls (trace w)
                            /\ (length rest < length txs)%nat).
    + unfold spec, on_utxo_dir.
      destruct (_cache_utxos txs (utxo_dir w)) as [[d rest]|e] eqn:E; cbn.
      * split; [reflexivity|]. eapply _cache_utxos_shrinks; eauto.
      * split; [eapply _cache_utxos_raises, E | reflexivity].
    + intros rest w' [Hc Hlt].
      eapply spec_weaken; [apply (IH rest); lia | |];
        cbn beta; intros; rewrite <- Hc; assumption.
Qed.

Lemma quiet_flush_rest txs : quiet (flush_rest txs).
Proof.
  unfold flush_rest. destruct (0 <? len txs); [|apply quiet_ret].
  apply quiet_bind; [|intros; apply quiet_ret].
  apply quiet_on_tx_dir. intros d e. apply _cache_transactions_raises.
Qed.

Lemma quiet_flush_utxo_rest txs : quiet (flush_utxo_rest txs).
Proof.
  unfold flush_utxo_rest. destruct (0 <? len txs); [|apply quiet_ret].
  apply quiet_bind; [|intros; apply quiet_ret].
  apply quiet_on_utxo_dir. intros d e. apply _cache_utxos_raises.
Qed.

Lemma quiet_resume_estimate env cache : quiet (resume_estimate env cache).
Proof.
  unfold resume_estimate. apply quiet_bind; [apply quiet_now|]. intros t.
  destruct cache as [c|]; [|apply quiet_ret].
  apply quiet_bind; [|intros; apply quiet_ret].
  destruct (len (trailing_window t c) <=? 1); [apply quiet_ret|].
  destruct (_ =? 0); [apply quiet_ret|].
  apply quiet_bind; [apply quiet_now | intros; apply quiet_ret].
Qed.

Lemma resume_estimate_returns env cache w :
  exists r w', resume_estimate env cache w = (Ok r, w').
Proof.
  unfold resume_estimate, bind, now, ret.
  destruct cache as [c|]; [|eauto].
  destruct (len (trailing_window _ c) <=? 1); [eauto|].
  destruct (_ =? 0); eauto.
Qed.

Lemma quiet_emit_all_calls evs w :
  spec (emit_all evs) w
    (fun _ w' => calls (trace w') = calls (trace w) + calls evs)
    (fun _ _ => False).
Proof. unfold spec, emit_all. cbn. apply calls_app. Qed.

(* ===================================================================== *)
(** ** The call budget                                                    *)
(* ===================================================================== *)

(** The batch a round dispatches (lines 325-326). *)
Definition round_batch (max_calls : Z) (s : fetch_state) : Z :=
  if num_calls s + call_batch s >? max_calls
  then max_calls - num_calls s else call_batch s.

Lemma round_batch_bounds max_calls s :
  1 <= call_batch s -> num_calls s < max_calls ->
  1 <= round_batch max_calls s <= max_calls - num_calls s.
Proof.
  intros Hb Hn. unfold round_batch.
  destruct (num_calls s + call_batch s >? max_calls) eqn:E; [lia|].
  rewrite Z.gtb_ltb in E. apply Z.ltb_ge in E. lia.
Qed.

Lemma rate_limit_calls env n ca cs w :
  spec (rate_limit env n ca cs) w
    (fun _ w' => calls (trace w') = calls (trace w)) (fun _ _ => False).
Proof.
  pose proof (quiet_rate_limit env n ca cs w) as Hq.
  destruct (rate_limit_returns env n ca cs w) as (r & w' & Hrun).
  unfold spec in *. rewrite Hrun in *. exact Hq.
Qed.

(** A round issues exactly the batch it charges to [num_calls], also when
    the flush that follows raises. *)
Lemma fetch_round_calls env pool_id max_calls s w :
  1 <= call_batch s -> num_calls s < max_calls ->
  spec (fetch_round env pool_id max_calls s) w
    (fun s' w' =>
       call_batch s' = round_batch max_calls s
       /\ num_calls s' = num_calls s + round_batch max_calls s
       /\ page s' = page s + round_batch max_calls s
       /\ calls (trace w') = calls (trace w) + round_batch max_calls s)
    (fun e w' =>
       e <> OutOfFuel
       /\ calls (trace w') = calls (trace w) + round_batch max_calls s).
Proof.
  intros Hb Hn.
  pose proof (round_batch_bounds max_calls s Hb Hn) as Hr.
  unfold fetch_round. fold (round_batch max_calls s).
  set (b := round_batch max_calls s) in *.
  eapply spec_bind with
    (P' := fun _ w' => calls (trace w') = calls (trace w)).
  { eapply spec_weaken; [apply rate_limit_calls | auto | contradiction]. }
  intros [ca cs] w1 H1. cbn beta iota.
  eapply spec_bind with
    (P' := fun _ w' => calls (trace w') = calls (trace w) + b).
  { eapply spec_weaken; [apply quiet_emit_all_calls | | contradiction].
    cbn beta. intros _ w2 H2. rewrite H2, H1, calls_requests.
    rewrite page_range_length by lia. reflexivity. }
  intros _ w2 H2.
  destruct (collect _ (done s) (transactions s)) as [dn txs].
  eapply spec_bind with
    (P' := fun _ w' => calls (trace w') = calls (trace w) + b).
  { eapply spec_weaken;
      [apply (quiet_flush_months (length txs) txs); lia | |];
      cbn beta; intros; rewrite <- H2; tauto. }
  intros rest w3 H3. apply spec_ret. cbn. auto.
Qed.

(** The loop: it never issues more than what is left of the budget, it
    returns [num_calls] equal to the calls issued, and the iteration bound
    [max_calls - num_calls] of the model is enough. *)
Lemma fetch_loop_calls env pool_id max_calls : forall fuel s w,
    1 <= call_batch s ->
    max_calls - num_calls s <= Z.of_nat fuel ->
    spec (fetch_loop fuel env pool_id max_calls s) w
      (fun s' w' =>
         calls (trace w') - calls (trace w) = num_calls s' - num_calls s
         /\ num_calls s <= num_calls s'
         /\ num_calls s' <= Z.max max_calls (num_calls s))
      (fun e w' =>
         e <> OutOfFuel
         /\ 0 <= calls (trace w') - calls (trace w)
            <= max_calls - num_calls s).
Proof.
  induction fuel as [|fuel IH]; intros s w Hb Hfuel.
  - cbn [fetch_loop].
    destruct (negb (done s) && (num_calls s <? max_calls)) eqn:G.
    + apply andb_true_iff in G. destruct G as [_ G].
      apply Z.ltb_lt in G. lia.
    + apply spec_ret. lia.
  - cbn [fetch_loop].
    destruct (negb (done s) && (num_calls s <? max_calls)) eqn:G;
      [|apply spec_ret; lia].
    apply andb_true_iff in G. destruct G as [_ G]. apply Z.ltb_lt in G.
    pose proof (round_batch_bounds max_calls s Hb G) as Hr.
    eapply spec_seq; [apply fetch_round_calls; assumption | |]; cbn beta.
    + intros e w' [He Hc]. split; [assumption | lia].
    + intros s' w' (Hcb & Hnc & _ & Hcalls).
      eapply spec_weaken; [apply (IH s' w'); lia | |]; cbn beta.
      * intros s'' w'' (H1 & H2 & H3). lia.
      * intros e w'' (He & H1). split; [assumption | lia].
Qed.

Lemma cache_transactions_calls env pool_id max_calls w :
  spec (cache_transactions env pool_id max_calls) w
    (fun n w' =>
       n = calls (trace w') - calls (trace w) /\ 0 <= n <= Z.max max_calls 0)
    (fun e w' =>
       e <> OutOfFuel
       /\ 0 <= calls (trace w') - calls (trace w) <= Z.max max_calls 0).
Proof.
  unfold cache_transactions.
  eapply spec_seq with (P' := fun _ w' => w' = w) (E' := fun _ _ => False);
    [reflexivity | contradiction |].
  intros cache _ ->.
  eapply spec_seq;
    [apply quiet_resume_estimate | cbn beta; intros e w' [? ?]; split; [assumption|lia] |].
  cbn beta. intros [pg cb] w1 H1. cbn beta iota.
  unfold ThreadPoolExecutor.
  destruct (at_least_one_call cb <=? 0) eqn:Ecb.
  { apply spec_raise. split; [discriminate | lia]. }
  apply Z.leb_gt in Ecb.
  eapply spec_seq with (P' := fun _ w' => w' = w1) (E' := fun _ _ => False);
    [reflexivity | contradiction |].
  intros _ _ ->.
  eapply spec_seq;
    [apply fetch_loop_calls; cbn; lia | cbn; intros e w' [? ?]; split; [assumption|lia] |].
  cbn. intros s w2 (H2 & H3 & H4).
  eapply spec_seq;
    [apply quiet_flush_rest | cbn beta; intros e w' [? ?]; split; [assumption|lia] |].
  cbn beta. intros _ w3 H5. apply spec_ret. lia.
Qed.

Lemma slice_length {A} (l : list A) bs be :
  0 <= bs <= be -> be <= len l -> len (slice l bs be) = be - bs.
Proof.
  intros H1 H2. unfold slice. rewrite length_firstn, length_skipn. lia.
Qed.

(** A round of the detail loop issues the calls of its batch. *)
Lemma utxo_round_calls env cache last_index s bs w :
  0 <= bs -> bs <= Z.min (bs + batch_size s) last_index ->
  last_index <= len cache ->
  spec (utxo_round env cache last_index s bs) w
    (fun s' w' =>
       batch_size s' = Z.min (bs + batch_size s) last_index - bs
       /\ u_num_calls s' = u_num_calls s + batch_size s'
       /\ calls (trace w') = calls (trace w) + batch_size s')
    (fun e w' =>
       e <> OutOfFuel
       /\ calls (trace w')
          = calls (trace w) + (Z.min (bs + batch_size s) last_index - bs)).
Proof.
  intros Hbs Hbe Hlast. unfold utxo_round.
  set (be := Z.min (bs + batch_size s) last_index) in *.
  eapply spec_seq with
    (P' := fun _ w' => calls (trace w') = calls (trace w));
    [apply rate_limit_calls | contradiction |].
  intros [ca cs] w1 H1. cbn beta iota.
  eapply spec_seq with
    (P' := fun _ w' => calls (trace w') = calls (trace w) + (be - bs))
    (E' := fun _ _ => False);
    [ | contradiction | ].
  { eapply spec_weaken; [apply quiet_emit_all_calls | | contradiction].
    cbn beta. intros _ w2 H2.
    rewrite H2, H1, calls_utxo_requests, slice_length by lia. reflexivity. }
  intros _ w2 H2.
  eapply spec_seq;
    [apply quiet_flush_utxo_months; lia
    | cbn beta; intros e w' [? ?]; split; [assumption|lia] |].
  cbn beta. intros rest w3 H3. apply spec_ret. cbn. lia.
Qed.

(** The detail loop over the starts [i0 * c, (i0 + 1) * c, ...] of the
    [n] batches that cover [last_index]. *)
Lemma utxo_loop_calls env cache last_index c n :
  0 < c -> 0 <= last_index <= len cache ->
  (Z.of_nat n - 1) * c < last_index <= Z.of_nat n * c ->
  forall m i0 s w,
    (i0 + m = n)%nat ->
    (0 < m -> batch_size s = c)%nat ->
    u_num_calls s = Z.min (Z.of_nat i0 * c) last_index ->
    spec (utxo_loop env cache last_index
            (map (fun i => 0 + Z.of_nat i * c) (seq i0 m)) s) w
      (fun s' w' =>
         calls (trace w') - calls (trace w) = u_num_calls s' - u_num_calls s
         /\ u_num_calls s' = last_index)
      (fun e w' =>
         e <> OutOfFuel
         /\ 0 <= calls (trace w') - calls (trace w)
            <= last_index - u_num_calls s).
Proof.
  intros Hc Hlast Hn.
  induction m as [|m IH]; intros i0 s w Hi Hbatch Hnum.
  - cbn [seq map utxo_loop]. apply spec_ret. nia.
  - cbn [seq map utxo_loop].
    specialize (Hbatch ltac:(lia)).
    assert (Hbs : Z.of_nat i0 * c < last_index) by nia.
    eapply spec_seq;
      [apply utxo_round_calls; nia | cbn beta | cbn beta].
    + intros e w' [He Hcalls]. split; [assumption|]. nia.
    + intros s' w' (Hb' & Hn' & Hcalls).
      assert (Hnext : u_num_calls s'
                      = Z.min (Z.of_nat (S i0) * c) last_index) by nia.
      assert (Hkeep : (0 < m)%nat -> batch_size s' = c).
      { intros Hm. assert ((Z.of_nat i0 + 1) * c < last_index) by nia. lia. }
      eapply spec_weaken;
        [apply (IH (S i0) s' w' ltac:(lia) Hkeep Hnext) | |]; cbn beta.
      * intros s'' w'' [H1 H2]. split; lia.
      * intros e w'' [He H1]. split; [assumption|]. nia.
Qed.

Lemma uncached_raises cache utxo_cache e :
  uncached cache utxo_cache = Raised e -> e <> OutOfFuel.
Proof.
  unfold uncached. destruct utxo_cache as [rows|]; [|discriminate].
  destruct (last_time row_time rows); [discriminate|].
  intros [= <-]. discriminate.
Qed.

Lemma uncached_length cache utxo_cache u :
  uncached cache utxo_cache = Ok u -> len u <= len cache.
Proof.
  unfold uncached. destruct utxo_cache as [rows|].
  - destruct (last_time row_time rows); [|discriminate].
    intros [= <-]. pose proof (filter_length_le (fun r => z <? time r) cache).
    lia.
  - intros [= <-]. lia.
Qed.

Lemma cache_utxos_calls env pool_id max_calls w :
  0 <= max_calls ->
  spec (cache_utxos env pool_id max_calls) w
    (fun n w' =>
       n = calls (trace w') - calls (trace w)
       /\ 0 <= n <= max_calls
       /\ forall cache u,
            get_transaction_cache (tx_dir w) = Some cache ->
            uncached cache (get_utxo_cache (utxo_dir w)) = Ok u ->
            n <= len u)
    (fun e w' =>
       e <> OutOfFuel
       /\ 0 <= calls (trace w') - calls (trace w) <= max_calls
       /\ forall cache u,
            get_transaction_cache (tx_dir w) = Some cache ->
            uncached cache (get_utxo_cache (utxo_dir w)) = Ok u ->
            calls (trace w') - calls (trace w) <= len u).
Proof.
  intros Hk. unfold cache_utxos.
  eapply spec_seq with
    (P' := fun a w' => a = get_transaction_cache (tx_dir w) /\ w' = w)
    (E' := fun _ _ => False);
    [split; reflexivity | contradiction |].
  intros _ _ [-> ->].
  destruct (get_transaction_cache (tx_dir w)) as [cache|] eqn:Ec.
  2:{ apply spec_ret. split; [lia|]. split; [lia|]. intros c' u' [=]. }
  eapply spec_seq with
    (P' := fun a w' => a = get_utxo_cache (utxo_dir w) /\ w' = w)
    (E' := fun _ _ => False);
    [split; reflexivity | contradiction |].
  intros _ _ [-> ->].
  destruct (uncached cache (get_utxo_cache (utxo_dir w))) as [u|e] eqn:Eu.
  2:{ apply spec_raise. split; [eapply uncached_raises, Eu|].
      split; [lia|]. intros c' u' [= <-] Hu. congruence. }
  cbn [lift_result]. apply spec_bind_ret.
  set (last_index := Z.min max_calls (len u)).
  assert (Hlast : 0 <= last_index <= len u) by (unfold last_index; lia).
  unfold python_range.
  destruct (cpu_count env =? 0) eqn:E0.
  { apply spec_raise. split; [discriminate|]. split; [lia|].
    intros c' u' _ _. lia. }
  apply Z.eqb_neq in E0. cbn [lift_result]. apply spec_bind_ret.
  destruct (0 <? cpu_count env) eqn:Epos.
  - apply Z.ltb_lt in Epos.
    replace (last_index - 0 + cpu_count env - 1)
      with (last_index + cpu_count env - 1) by lia.
    set (q := (last_index + cpu_count env - 1) / cpu_count env).
    assert (Hq : (q - 1) * cpu_count env < last_index <= q * cpu_count env).
    { unfold q. Z.div_mod_to_equations. nia. }
    assert (Hq0 : 0 <= q) by (unfold q; apply Z.div_pos; lia).
    eapply spec_seq;
      [apply (utxo_loop_calls env u last_index (cpu_count env) (Z.to_nat q));
       try lia; cbn; try lia
      | cbn beta | cbn beta].
    + intros e w' [He Hcalls]. cbn in Hcalls. split; [assumption|].
      split; [lia|]. intros c' u' [= <-] Hu'; rewrite Eu in Hu'; injection Hu' as <-; lia.
    + cbn. intros s w' [H1 H2].
      eapply spec_seq; [apply quiet_flush_utxo_rest | cbn beta | cbn beta].
      * intros e w'' [He H3]. split; [assumption|]. split; [lia|].
        intros c' u' [= <-] Hu'; rewrite Eu in Hu'; injection Hu' as <-; lia.
      * intros _ w'' H3. apply spec_ret. split; [lia|]. split; [lia|].
        intros c' u' [= <-] Hu'; rewrite Eu in Hu'; injection Hu' as <-; lia.
  - apply Z.ltb_ge in Epos.
    assert (Hn : Z.to_nat ((0 - last_index - cpu_count env - 1)
                           / - cpu_count env) = 0%nat).
    { assert ((0 - last_index - cpu_count env - 1) / - cpu_count env <= 0);
        [|lia].
      Z.div_mod_to_equations. nia. }
    rewrite Hn. cbn [seq map utxo_loop]. apply spec_bind_ret.
    cbn [tx_utxos u_num_calls]. apply spec_bind_ret.
    apply spec_ret. split; [lia|]. split; [lia|].
    intros c' u' _ _. lia.
Qed.

(* ===================================================================== *)
(** ** Sample data                                                        *)
(* ===================================================================== *)

(** A provider that serves a fixed list of references in pages of 100, in
    ascending order ([count=100, order="asc"]); pages are numbered from 1
    and the pages behind the data are empty. *)
Definition paged (records : list PoolTransactionReference)
    (_ : string) (page : Z) : list PoolTransactionReference :=
  firstn 100 (skipn (Z.to_nat ((page - 1) * 100)) records).

Module Sample.

Fixpoint digits (fuel n : nat) (acc : string) : string :=
  match fuel with
  | O => acc
  | S fuel' =>
      let d := Ascii.ascii_of_nat (48 + Nat.modulo n 10) in
      match Nat.div n 10 with
      | O => String d acc
      | q => digits fuel' q (String d acc)
      end
  end.

Definition hash_of (i : nat) : string := ("tx" ++ digits 20 i "")%string.

(** Reference number [i]: one every twelve hours from 2023-01-01. *)
Definition reference (i : nat) : PoolTransactionReference :=
  mkTx (hash_of i) 0 (Z.of_nat i) (timestamp 2023 1 1 + Z.of_nat i * 43200).

(** 250 references, from January to May 2023. *)
Definition references : list PoolTransactionReference :=
  map reference (seq 0 250).

(** A clock that starts on 2023-06-01 and advances a second a reading. *)
Definition june_clock (n : nat) : Q :=
  inject_Z (timestamp 2023 6 1 + Z.of_nat n).

Definition env (cpus : Z) : Env :=
  mkEnv cpus june_clock (paged references)
    (fun tx => [mkUtxo input "addr_in" tx; mkUtxo output "addr_out" tx]).

Definition empty_world : world := mkWorld [] [] 0 [].

End Sample.

Example sample_hash : Sample.hash_of 249 = "tx249"%string.
Proof. reflexivity. Qed.

(* ===================================================================== *)
(** ** C1: the call budget                                                *)
(* ===================================================================== *)

(** C1. For every pool, every budget [k >= 1] and every starting world, a
    run of [cache_transactions] and a run of [cache_utxos] each issue at
    most [k] remote calls, whatever the outcome; the model's loops finish
    within their iteration bound; a returned count equals the number of
    calls issued (so it is at most [k]). In the reference flow a round
    whose full batch would exceed the budget dispatches exactly the
    remaining [k - num_calls]. In the detail flow the calls are also
    bounded by the number of uncached references. *)
Theorem call_budget_respected env pool_id k w :
  1 <= k ->
  (forall r w', cache_transactions env pool_id k w = (r, w') ->
     0 <= calls (trace w') - calls (trace w) <= k
     /\ r <> Raised OutOfFuel
     /\ forall n, r = Ok n -> n = calls (trace w') - calls (trace w))
  /\ (forall s w1 s' w1',
        1 <= call_batch s ->
        num_calls s < k < num_calls s + call_batch s ->
        fetch_round env pool_id k s w1 = (Ok s', w1') ->
        call_batch s' = k - num_calls s
        /\ num_calls s' = k
        /\ calls (trace w1') - calls (trace w1) = k - num_calls s)
  /\ (forall r w', cache_utxos env pool_id k w = (r, w') ->
        0 <= calls (trace w') - calls (trace w) <= k
        /\ r <> Raised OutOfFuel
        /\ (forall n, r = Ok n -> n = calls (trace w') - calls (trace w))
        /\ forall cache u,
             get_transaction_cache (tx_dir w) = Some cache ->
             uncached cache (get_utxo_cache (utxo_dir w)) = Ok u ->
             calls (trace w') - calls (trace w) <= len u).
Proof.
  intros Hk. split; [|split].
  - intros r w' Hrun.
    pose proof (cache_transactions_calls env pool_id k w) as H.
    unfold spec in H. rewrite Hrun in H. destruct r as [n|e].
    + destruct H as [-> H]. split; [lia|]. split; [discriminate|].
      intros n' [= <-]. reflexivity.
    + destruct H as [He H]. split; [lia|]. split; [congruence|].
      discriminate.
  - intros s w1 s' w1' Hb [Hlt Hgt] Hrun.
    pose proof (fetch_round_calls env pool_id k s w1 Hb Hlt) as H.
    unfold spec in H. rewrite Hrun in H.
    destruct H as (H1 & H2 & _ & H4).
    assert (Hr : round_batch k s = k - num_calls s).
    { unfold round_batch.
      destruct (num_calls s + call_batch s >? k) eqn:E; [reflexivity|].
      rewrite Z.gtb_ltb in E. apply Z.ltb_ge in E. lia. }
    rewrite Hr in *. split; [lia|]. split; lia.
  - intros r w' Hrun.
    pose proof (cache_utxos_calls env pool_id k w ltac:(lia)) as H.
    unfold spec in H. rewrite Hrun in H. destruct r as [n|e].
    + destruct H as (-> & H1 & H2). split; [lia|]. split; [discriminate|].
      split; [|exact H2]. intros n' [= <-]. reflexivity.
    + destruct H as (He & H1 & H2). split; [lia|]. split; [congruence|].
      split; [discriminate | exact H2].
Qed.

Lemma call_budget_respected_witness :
  1 <= 10
  /\ forall r w',
       cache_transactions (Sample.env 16) "pool1" 10 Sample.empty_world
       = (r, w') ->
       0 <= calls (trace w') - calls (trace Sample.empty_world) <= 10
       /\ r <> Raised OutOfFuel
       /\ forall n, r = Ok n ->
                    n = calls (trace w') - calls (trace Sample.empty_world).
Proof.
  split; [lia|].
  apply (call_budget_respected (Sample.env 16) "pool1" 10 Sample.empty_world).
  lia.
Defined.

Example budget_truncates_batch :
  let run := cache_transactions (Sample.env 16) "pool1" 10 Sample.empty_world in
  fst run = Ok 10 /\ calls (trace (snd run)) = 10.
Proof. vm_compute. split; reflexivity. Qed.

(* ===================================================================== *)
(** ** C6: the rate limiter                                               *)
(* ===================================================================== *)

Lemma flush_months_trace : forall fuel txs w,
    trace (snd (flush_months fuel txs w)) = trace w.
Proof.
  induction fuel as [|fuel IH]; intros txs w; cbn [flush_months];
    (destruct (spans_months time txs); [|reflexivity]); [reflexivity|].
  unfold bind, on_tx_dir.
  destruct (_cache_transactions txs (tx_dir w)) as [[d rest]|e];
    [|reflexivity].
  rewrite IH. reflexivity.
Qed.

Lemma flush_utxo_months_trace : forall fuel txs w,
    trace (snd (flush_utxo_months fuel txs w)) = trace w.
Proof.
  induction fuel as [|fuel IH]; intros txs w; cbn [flush_utxo_months];
    (destruct (spans_months fst txs); [|reflexivity]); [reflexivity|].
  unfold bind, on_utxo_dir.
  destruct (_cache_utxos txs (utxo_dir w)) as [[d rest]|e]; [|reflexivity].
  rewrite IH. reflexivity.
Qed.

Local Open Scope Q_scope.

(** What the limiter does once a batch has gone before ([call_start] is
    set): the credit after the deduction and the refill, and the cooldown
    it asks for. *)
Definition credited (env : Env) (w : world) (n : Z) (calls_allowed t0 : Q)
  : Q :=
  calls_allowed - inject_Z n + (clock env (ticks w) - t0) * 10.

Definition cooldown (env : Env) (w : world) (n : Z) (calls_allowed t0 : Q)
  : list event :=
  if Qltb (credited env w n calls_allowed t0) 0
  then [Warning (5 * inject_Z n / 10); Sleep (5 * inject_Z n / 10)]
  else [].

Lemma Qltb_lt x y : Qltb x y = true <-> x < y.
Proof.
  unfold Qltb. rewrite negb_true_iff. split.
  - intros H. apply Qnot_le_lt. intros Hle.
    apply Qle_bool_iff in Hle. congruence.
  - intros H. destruct (Qle_bool y x) eqn:E; [|reflexivity].
    apply Qle_bool_iff in E. exfalso. exact (Qlt_not_le _ _ H E).
Qed.

Lemma rate_limit_after_first env n ca t0 w :
  let c := credited env w n ca t0 in
  rate_limit env n ca (Some t0) w
  = if Qltb c 0
    then (Ok (c + (clock env (S (ticks w)) - clock env (ticks w)) * 10,
              Some (clock env (S (S (ticks w))))),
          mkWorld (tx_dir w) (utxo_dir w) (S (S (S (ticks w))))
            (trace w ++ cooldown env w n ca t0))
    else (Ok (c, Some (clock env (S (ticks w)))),
          mkWorld (tx_dir w) (utxo_dir w) (S (S (ticks w)))
            (trace w ++ cooldown env w n ca t0)).
Proof.
  cbn zeta. unfold cooldown, rate_limit, bind, now, emit, ret.
  cbn [ticks tx_dir utxo_dir trace]. fold (credited env w n ca t0).
  destruct (Qltb (credited env w n ca t0) 0); cbn [ticks tx_dir utxo_dir trace].
  - rewrite <- app_assoc. reflexivity.
  - rewrite app_nil_r. reflexivity.
Qed.

Local Close Scope Q_scope.

Local Open Scope Q_scope.

(** The limiter in the words of the specification: what it emits, the
    counter it leaves and the start time it records, for a batch of [n]
    calls reserved in world [w] with counter [ca] and the previous start
    time [cs] ([None] before the first batch). *)
Definition limiter_events (env : Env) (w : world) (n : Z) (ca : Q)
    (cs : option Q) : list event :=
  match cs with
  | Some t0 => cooldown env w n ca t0
  | None => []
  end.

Definition counter_after (env : Env) (w : world) (n : Z) (ca : Q)
    (cs : option Q) : Q :=
  match cs with
  | Some t0 =>
      let c := credited env w n ca t0 in
      if Qltb c 0
      then c + (clock env (S (ticks w)) - clock env (ticks w)) * 10
      else c
  | None => ca - inject_Z n
  end.

Definition start_after (env : Env) (w : world) (n : Z) (ca : Q)
    (cs : option Q) : Q :=
  match cs with
  | Some t0 =>
      if Qltb (credited env w n ca t0) 0
      then clock env (S (S (ticks w)))
      else clock env (S (ticks w))
  | None => clock env (S (ticks w))
  end.

Definition ticks_after (env : Env) (w : world) (n : Z) (ca : Q)
    (cs : option Q) : nat :=
  match cs with
  | Some t0 =>
      if Qltb (credited env w n ca t0) 0
      then S (S (S (ticks w)))
      else S (S (ticks w))
  | None => S (S (ticks w))
  end.

Local Close Scope Q_scope.

(** The limiter of the code does what these say, from every state. *)
Lemma rate_limit_eq env n ca cs w :
  rate_limit env n ca cs w
  = (Ok (counter_after env w n ca cs, Some (start_after env w n ca cs)),
     mkWorld (tx_dir w) (utxo_dir w) (ticks_after env w n ca cs)
       (trace w ++ limiter_events env w n ca cs)).
Proof.
  destruct cs as [t0|].
  - rewrite rate_limit_after_first. cbn zeta.
    unfold counter_after, start_after, ticks_after, limiter_events.
    cbn zeta. destruct (Qltb (credited env w n ca t0) 0); reflexivity.
  - unfold rate_limit, bind, now, ret, limiter_events.
    cbn [tx_dir utxo_dir ticks trace]. rewrite app_nil_r. reflexivity.
Qed.

(** What a round of the reference loop emits. *)
Definition round_events (env : Env) (k : Z) (r : fetch_state * world)
  : list event :=
  let (s, w) := r in
  limiter_events env w (round_batch k s) (calls_allowed s) (call_start s)
  ++ map Request (page_range (page s) (round_batch k s)).

(** What a round of the detail loop emits, for the batch starting at
    [bs]. *)
Definition utxo_round_events (env : Env)
    (cache : list PoolTransactionReference) (last_index : Z)
    (r : utxo_state * Z * world) : list event :=
  let '(s, bs, w) := r in
  let be := Z.min (bs + batch_size s) last_index in
  limiter_events env w (be - bs) (u_calls_allowed s) (u_call_start s)
  ++ map (fun r => RequestUtxo (tx_hash r)) (slice cache bs be).

Lemma fetch_round_trace env pool_id k s w :
  trace (snd (fetch_round env pool_id k s w))
  = trace w ++ round_events env k (s, w).
Proof.
  unfold fetch_round, round_events. fold (round_batch k s).
  unfold bind at 1. rewrite rate_limit_eq. cbn beta iota.
  unfold bind at 1, emit_all. cbn [tx_dir utxo_dir ticks trace].
  destruct (collect _ (done s) (transactions s)) as [dn txs].
  unfold bind.
  match goal with
  | |- context [flush_months ?f ?l ?w0] =>
      pose proof (flush_months_trace f l w0) as Ht;
      destruct (flush_months f l w0) as [[rest|e] w3]
  end; unfold ret; cbn [snd trace] in *; rewrite Ht;
    rewrite <- app_assoc; reflexivity.
Qed.

(** A round hands the limiter's counter and start time on to the next. *)
Lemma fetch_round_hands_on env pool_id k s w s' w' :
  fetch_round env pool_id k s w = (Ok s', w') ->
  calls_allowed s'
  = counter_after env w (round_batch k s) (calls_allowed s) (call_start s)
  /\ call_start s'
     = Some (start_after env w (round_batch k s) (calls_allowed s)
               (call_start s)).
Proof.
  unfold fetch_round. fold (round_batch k s).
  unfold bind at 1. rewrite rate_limit_eq. cbn beta iota.
  unfold bind at 1, emit_all. cbn [tx_dir utxo_dir ticks trace].
  destruct (collect _ (done s) (transactions s)) as [dn txs].
  unfold bind.
  match goal with
  | |- context [flush_months ?f ?l ?w0] =>
      destruct (flush_months f l w0) as [[rest|e] w3]
  end; unfold ret; [|discriminate].
  intros [= <- _]. split; reflexivity.
Qed.

Lemma utxo_round_trace env cache last_index s bs w :
  trace (snd (utxo_round env cache last_index s bs w))
  = trace w ++ utxo_round_events env cache last_index (s, bs, w).
Proof.
  unfold utxo_round, utxo_round_events.
  unfold bind at 1. rewrite rate_limit_eq. cbn beta iota.
  unfold bind at 1, emit_all. cbn [tx_dir utxo_dir ticks trace].
  unfold bind.
  match goal with
  | |- context [flush_utxo_months ?f ?l ?w0] =>
      pose proof (flush_utxo_months_trace f l w0) as Ht;
      destruct (flush_utxo_months f l w0) as [[rest|e] w3]
  end; unfold ret; cbn [snd trace] in *; rewrite Ht;
    rewrite <- app_assoc; reflexivity.
Qed.

Lemma utxo_round_hands_on env cache last_index s bs w s' w' :
  utxo_round env cache last_index s bs w = (Ok s', w') ->
  let m := Z.min (bs + batch_size s) last_index - bs in
  u_calls_allowed s'
  = counter_after env w m (u_calls_allowed s) (u_call_start s)
  /\ u_call_start s'
     = Some (start_after env w m (u_calls_allowed s) (u_call_start s)).
Proof.
  unfold utxo_round.
  unfold bind at 1. rewrite rate_limit_eq. cbn beta iota.
  unfold bind at 1, emit_all. cbn [tx_dir utxo_dir ticks trace].
  unfold bind.
  match goal with
  | |- context [flush_utxo_months ?f ?l ?w0] =>
      destruct (flush_utxo_months f l w0) as [[rest|e] w3]
  end; unfold ret; [|discriminate].
  intros [= <- _]. split; reflexivity.
Qed.

(** The rounds of a run of the reference loop: the state and the world
    each round starts from, in order. It follows [fetch_loop] guard for
    guard. *)
Fixpoint fetch_rounds (fuel : nat) (env : Env) (pool_id : string)
    (max_calls : Z) (s : fetch_state) (w : world)
  : list (fetch_state * world) :=
  if negb (done s) && (num_calls s <? max_calls) then
    match fuel with
    | O => []
    | S fuel' =>
        (s, w)
        :: match fetch_round env pool_id max_calls s w with
           | (Ok s', w') => fetch_rounds fuel' env pool_id max_calls s' w'
           | (Raised _, _) => []
           end
    end
  else [].

(** The rounds of a run of the detail loop, with the start of each
    batch. *)
Fixpoint utxo_rounds (env : Env) (cache : list PoolTransactionReference)
    (last_index : Z) (starts : list Z) (s : utxo_state) (w : world)
  : list (utxo_state * Z * world) :=
  match starts with
  | [] => []
  | bs :: starts' =>
      (s, bs, w)
      :: match utxo_round env cache last_index s bs w with
         | (Ok s', w') => utxo_rounds env cache last_index starts' s' w'
         | (Raised _, _) => []
         end
  end.

(** Each round of the list starts where the round before it ended. *)
Fixpoint fetch_linked (env : Env) (pool_id : string) (max_calls : Z)
    (rs : list (fetch_state * world)) : Prop :=
  match rs with
  | (s, w) :: (((s', w') :: _) as rs') =>
      fetch_round env pool_id max_calls s w = (Ok s', w')
      /\ fetch_linked env pool_id max_calls rs'
  | _ => True
  end.

Fixpoint utxo_linked (env : Env) (cache : list PoolTransactionReference)
    (last_index : Z) (rs : list (utxo_state * Z * world)) : Prop :=
  match rs with
  | (s, bs, w) :: (((s', _, w') :: _) as rs') =>
      utxo_round env cache last_index s bs w = (Ok s', w')
      /\ utxo_linked env cache last_index rs'
  | _ => True
  end.

Lemma fetch_rounds_head fuel env pool_id k s w :
  fetch_rounds fuel env pool_id k s w = []
  \/ exists rs, fetch_rounds fuel env pool_id k s w = (s, w) :: rs.
Proof.
  destruct fuel; cbn [fetch_rounds];
    destruct (negb (done s) && (num_calls s <? k)); eauto.
Qed.

Lemma utxo_rounds_head env cache last_index starts s w :
  utxo_rounds env cache last_index starts s w = []
  \/ exists bs rs,
       utxo_rounds env cache last_index starts s w = (s, bs, w) :: rs.
Proof. destruct starts; cbn [utxo_rounds]; eauto. Qed.

Lemma fetch_rounds_linked env pool_id k : forall fuel s w,
    fetch_linked env pool_id k (fetch_rounds fuel env pool_id k s w).
Proof.
  induction fuel as [|fuel IH]; intros s w; cbn [fetch_rounds];
    destruct (negb (done s) && (num_calls s <? k)); try exact I.
  destruct (fetch_round env pool_id k s w) as [[s'|e] w'] eqn:E;
    [|exact I].
  specialize (IH s' w').
  destruct (fetch_rounds_head fuel env pool_id k s' w') as [H|[rs H]];
    rewrite H in *; [exact I|].
  split; [exact E | exact IH].
Qed.

Lemma utxo_rounds_linked env cache last_index : forall starts s w,
    utxo_linked env cache last_index
      (utxo_rounds env cache last_index starts s w).
Proof.
  induction starts as [|bs starts IH]; intros s w; cbn [utxo_rounds];
    [exact I|].
  destruct (utxo_round env cache last_index s bs w) as [[s'|e] w'] eqn:E;
    [|exact I].
  specialize (IH s' w').
  destruct (utxo_rounds_head env cache last_index starts s' w')
    as [H|(bs' & rs & H)]; rewrite H in *; [exact I|].
  split; [exact E | exact IH].
Qed.

(** Once a batch has gone, every later round finds [call_start] set. *)
Lemma fetch_rounds_started env pool_id k : forall fuel s w,
    call_start s <> None ->
    Forall (fun r => call_start (fst r) <> None)
      (fetch_rounds fuel env pool_id k s w).
Proof.
  induction fuel as [|fuel IH]; intros s w Hs; cbn [fetch_rounds];
    destruct (negb (done s) && (num_calls s <? k)); try constructor.
  - exact Hs.
  - destruct (fetch_round env pool_id k s w) as [[s'|e] w'] eqn:E;
      [|constructor].
    apply IH. destruct (fetch_round_hands_on _ _ _ _ _ _ _ E) as [_ H].
    rewrite H. discriminate.
Qed.

Lemma fetch_rounds_tail_started env pool_id k fuel s w :
  Forall (fun r => call_start (fst r) <> None)
    (tl (fetch_rounds fuel env pool_id k s w)).
Proof.
  destruct fuel as [|fuel]; cbn [fetch_rounds];
    destruct (negb (done s) && (num_calls s <? k)); try constructor.
  cbn [tl].
  destruct (fetch_round env pool_id k s w) as [[s'|e] w'] eqn:E;
    [|constructor].
  apply fetch_rounds_started.
  destruct (fetch_round_hands_on _ _ _ _ _ _ _ E) as [_ H].
  rewrite H. discriminate.
Qed.

Lemma utxo_rounds_started env cache last_index : forall starts s w,
    u_call_start s <> None ->
    Forall (fun r => u_call_start (fst (fst r)) <> None)
      (utxo_rounds env cache last_index starts s w).
Proof.
  induction starts as [|bs starts IH]; intros s w Hs; cbn [utxo_rounds];
    constructor.
  - exact Hs.
  - destruct (utxo_round env cache last_index s bs w) as [[s'|e] w'] eqn:E;
      [|constructor].
    apply IH. destruct (utxo_round_hands_on _ _ _ _ _ _ _ _ E) as [_ H].
    rewrite H. discriminate.
Qed.

Lemma utxo_rounds_tail_started env cache last_index starts s w :
  Forall (fun r => u_call_start (fst (fst r)) <> None)
    (tl (utxo_rounds env cache last_index starts s w)).
Proof.
  destruct starts as [|bs starts]; cbn [utxo_rounds tl]; [constructor|].
  destruct (utxo_round env cache last_index s bs w) as [[s'|e] w'] eqn:E;
    [|constructor].
  apply utxo_rounds_started.
  destruct (utxo_round_hands_on _ _ _ _ _ _ _ _ E) as [_ H].
  rewrite H. discriminate.
Qed.

(** The trace of a loop is what its rounds emit, round after round. *)
Lemma fetch_loop_trace env pool_id k : forall fuel s w,
    trace (snd (fetch_loop fuel env pool_id k s w))
    = trace w
      ++ concat (map (round_events env k)
                   (fetch_rounds fuel env pool_id k s w)).
Proof.
  induction fuel as [|fuel IH]; intros s w;
    cbn [fetch_loop fetch_rounds];
    destruct (negb (done s) && (num_calls s <? k));
    try (cbn; rewrite app_nil_r; reflexivity).
  unfold bind. pose proof (fetch_round_trace env pool_id k s w) as Ht.
  destruct (fetch_round env pool_id k s w) as [[s'|e] w'];
    cbn [snd] in Ht; cbn [map concat].
  - rewrite IH, Ht, <- app_assoc. reflexivity.
  - cbn [snd map concat]. rewrite app_nil_r. exact Ht.
Qed.

Lemma utxo_loop_trace env cache last_index : forall starts s w,
    trace (snd (utxo_loop env cache last_index starts s w))
    = trace w
      ++ concat (map (utxo_round_events env cache last_index)
                   (utxo_rounds env cache last_index starts s w)).
Proof.
  induction starts as [|bs starts IH]; intros s w;
    cbn [utxo_loop utxo_rounds];
    [cbn; rewrite app_nil_r; reflexivity|].
  unfold bind.
  pose proof (utxo_round_trace env cache last_index s bs w) as Ht.
  destruct (utxo_round env cache last_index s bs w) as [[s'|e] w'];
    cbn [snd] in Ht; cbn [map concat].
  - rewrite IH, Ht, <- app_assoc. reflexivity.
  - cbn [snd map concat]. rewrite app_nil_r. exact Ht.
Qed.

Lemma flush_rest_trace txs w :
  trace (snd (flush_rest txs w)) = trace w.
Proof.
  unfold flush_rest. destruct (0 <? len txs); [|reflexivity].
  unfold bind, on_tx_dir.
  destruct (_cache_transactions txs (tx_dir w)) as [[d rest]|e]; reflexivity.
Qed.

Lemma flush_utxo_rest_trace txs w :
  trace (snd (flush_utxo_rest txs w)) = trace w.
Proof.
  unfold flush_utxo_rest. destruct (0 <? len txs); [|reflexivity].
  unfold bind, on_utxo_dir.
  destruct (_cache_utxos txs (utxo_dir w)) as [[d rest]|e]; reflexivity.
Qed.

(** The reference flow, from the estimate on: its trace is what the
    rounds of its loop emit. *)
Lemma cache_transactions_rounds env pool_id k w p b w0 :
  resume_estimate env (get_transaction_cache (tx_dir w)) w
  = (Ok (p, b), w0) ->
  0 < at_least_one_call b ->
  trace (snd (cache_transactions env pool_id k w))
  = trace w0
    ++ concat (map (round_events env k)
                 (fetch_rounds (Z.to_nat k) env pool_id k
                    (mkFetch p (at_least_one_call b) 0 false [] 500%Q None)
                    w0)).
Proof.
  intros Hres Hb. unfold cache_transactions.
  unfold bind at 1, load_transaction_cache.
  unfold bind at 1. rewrite Hres. cbn beta iota.
  unfold bind at 1, ThreadPoolExecutor.
  replace (at_least_one_call b <=? 0) with false
    by (symmetry; apply Z.leb_gt; exact Hb).
  unfold ret at 1.
  set (s0 := mkFetch p (at_least_one_call b) 0 false [] 500%Q None).
  pose proof (fetch_loop_trace env pool_id k (Z.to_nat k) s0 w0) as Hl.
  unfold bind.
  destruct (fetch_loop (Z.to_nat k) env pool_id k s0 w0) as [[s|e] w1];
    cbn [snd] in Hl; [|exact Hl].
  pose proof (flush_rest_trace (transactions s) w1) as Hf.
  destruct (flush_rest (transactions s) w1) as [[[]|e] w2];
    cbn [snd] in Hf; unfold ret; cbn [snd]; rewrite Hf; exact Hl.
Qed.

(** The detail flow likewise. *)
Lemma cache_utxos_rounds env pool_id k w cache u starts :
  get_transaction_cache (tx_dir w) = Some cache ->
  uncached cache (get_utxo_cache (utxo_dir w)) = Ok u ->
  python_range 0 (Z.min k (len u)) (cpu_count env) = Ok starts ->
  trace (snd (cache_utxos env pool_id k w))
  = trace w
    ++ concat (map (utxo_round_events env u (Z.min k (len u)))
                 (utxo_rounds env u (Z.min k (len u)) starts
                    (mkUtxoState (cpu_count env) 0 [] 500%Q None) w)).
Proof.
  intros Hcache Hu Hstarts. unfold cache_utxos.
  unfold bind at 1, load_transaction_cache. rewrite Hcache.
  unfold bind at 1, load_utxo_cache. rewrite Hu.
  unfold bind at 1, lift_result at 1, ret at 1. rewrite Hstarts.
  unfold bind at 1, lift_result at 1, ret at 1.
  set (s0 := mkUtxoState (cpu_count env) 0 [] 500%Q None).
  pose proof (utxo_loop_trace env u (Z.min k (len u)) starts s0 w) as Hl.
  unfold bind.
  destruct (utxo_loop env u (Z.min k (len u)) starts s0 w) as [[s|e] w1];
    cbn [snd] in Hl; [|exact Hl].
  pose proof (flush_utxo_rest_trace (tx_utxos s) w1) as Hf.
  destruct (flush_utxo_rest (tx_utxos s) w1) as [[[]|e] w2];
    cbn [snd] in Hf; unfold ret; cbn [snd]; rewrite Hf; exact Hl.
Qed.

(** C6. The limiter, from every state it can be in: it never raises;
    before the first batch ([call_start] unset) it only deducts [n]; on
    every batch after the first the counter becomes
    [calls_allowed + elapsed * 10 - n] with no clamp at 500 (the counter
    can exceed 500), and exactly when that is negative the round logs one
    warning and sleeps [5 * n / 10] seconds, after which the time slept is
    credited too; in every case the batch is dispatched next. Each round
    of either flow runs the limiter on the counter and the start time the
    round before it left, so in a run of [cache_transactions] or
    [cache_utxos] every round after the first finds [call_start] set, and
    the trace of the run is, round after round, the limiter's events
    followed by the requests of the batch. *)
Theorem rate_limiter_cooldown env pool_id k :
  (* the counter: refill without clamp, then the deduction *)
  (forall w n ca t0,
      (credited env w n ca t0
       == ca + (clock env (ticks w) - t0) * 10 - inject_Z n)%Q
      /\ (Qltb (credited env w n ca t0) 0 = true
          <-> (credited env w n ca t0 < 0)%Q))
  (* the limiter never raises; what it returns and emits *)
  /\ (forall w n ca cs,
        exists w',
          rate_limit env n ca cs w
          = (Ok (counter_after env w n ca cs,
                 Some (start_after env w n ca cs)), w')
          /\ trace w' = trace w ++ limiter_events env w n ca cs)
  /\ (forall w n ca t0,
        ((credited env w n ca t0 < 0)%Q ->
         limiter_events env w n ca (Some t0)
         = [Warning (5 * inject_Z n / 10)%Q; Sleep (5 * inject_Z n / 10)%Q]
         /\ (counter_after env w n ca (Some t0)
             == credited env w n ca t0
                + (clock env (S (ticks w)) - clock env (ticks w)) * 10)%Q)
        /\ (~ (credited env w n ca t0 < 0)%Q ->
            limiter_events env w n ca (Some t0) = []
            /\ counter_after env w n ca (Some t0) = credited env w n ca t0)
        /\ limiter_events env w n ca None = []
        /\ counter_after env w n ca None = (ca - inject_Z n)%Q)
  (* the reference flow: a round, and a run *)
  /\ (forall s w,
        trace (snd (fetch_round env pool_id k s w))
        = trace w
          ++ limiter_events env w (round_batch k s) (calls_allowed s)
               (call_start s)
          ++ map Request (page_range (page s) (round_batch k s)))
  /\ (forall s w s' w',
        fetch_round env pool_id k s w = (Ok s', w') ->
        calls_allowed s'
        = counter_after env w (round_batch k s) (calls_allowed s)
            (call_start s)
        /\ call_start s'
           = Some (start_after env w (round_batch k s) (calls_allowed s)
                     (call_start s)))
  /\ (forall w p b w0,
        resume_estimate env (get_transaction_cache (tx_dir w)) w
        = (Ok (p, b), w0) ->
        0 < at_least_one_call b ->
        let s0 := mkFetch p (at_least_one_call b) 0 false [] 500%Q None in
        let rs := fetch_rounds (Z.to_nat k) env pool_id k s0 w0 in
        trace (snd (cache_transactions env pool_id k w))
        = trace w0 ++ concat (map (round_events env k) rs)
        /\ fetch_linked env pool_id k rs
        /\ Forall (fun r => call_start (fst r) <> None) (tl rs))
  (* the detail flow: a round, and a run *)
  /\ (forall cache last_index s bs w,
        let m := Z.min (bs + batch_size s) last_index - bs in
        trace (snd (utxo_round env cache last_index s bs w))
        = trace w
          ++ limiter_events env w m (u_calls_allowed s) (u_call_start s)
          ++ map (fun r => RequestUtxo (tx_hash r))
               (slice cache bs (bs + m)))
  /\ (forall cache last_index s bs w s' w',
        utxo_round env cache last_index s bs w = (Ok s', w') ->
        let m := Z.min (bs + batch_size s) last_index - bs in
        u_calls_allowed s'
        = counter_after env w m (u_calls_allowed s) (u_call_start s)
        /\ u_call_start s'
           = Some (start_after env w m (u_calls_allowed s)
                     (u_call_start s)))
  /\ (forall w cache u starts,
        get_transaction_cache (tx_dir w) = Some cache ->
        uncached cache (get_utxo_cache (utxo_dir w)) = Ok u ->
        python_range 0 (Z.min k (len u)) (cpu_count env) = Ok starts ->
        let last_index := Z.min k (len u) in
        let s0 := mkUtxoState (cpu_count env) 0 [] 500%Q None in
        let rs := utxo_rounds env u last_index starts s0 w in
        trace (snd (cache_utxos env pool_id k w))
        = trace w ++ concat (map (utxo_round_events env u last_index) rs)
        /\ utxo_linked env u last_index rs
        /\ Forall (fun r => u_call_start (fst (fst r)) <> None) (tl rs))
  (* no clamp: the counter can pass the burst capacity *)
  /\ (exists env' w' ca' t0', (500 < credited env' w' 1 ca' t0')%Q).
Proof.
  split; [|split; [|split; [|split; [|split; [|split;
    [|split; [|split; [|split]]]]]]]].
  - intros w n ca t0. split; [unfold credited; ring | apply Qltb_lt].
  - intros w n ca cs. eexists. split; [apply rate_limit_eq | reflexivity].
  - intros w n ca t0. split; [|split; [|split; reflexivity]].
    + intros Hneg. apply Qltb_lt in Hneg.
      unfold limiter_events, cooldown, counter_after. cbn zeta.
      rewrite Hneg. split; reflexivity.
    + intros Hpos.
      assert (Hb : Qltb (credited env w n ca t0) 0 = false).
      { destruct (Qltb (credited env w n ca t0) 0) eqn:E; [|reflexivity].
        apply Qltb_lt in E. contradiction. }
      unfold limiter_events, cooldown, counter_after. cbn zeta.
      rewrite Hb. split; reflexivity.
  - intros s w. rewrite fetch_round_trace. reflexivity.
  - intros s w s' w'. apply fetch_round_hands_on.
  - intros w p b w0 Hres Hb s0 rs. split; [|split].
    + apply cache_transactions_rounds; assumption.
    + apply fetch_rounds_linked.
    + apply fetch_rounds_tail_started.
  - intros cache last_index s bs w m. rewrite utxo_round_trace.
    unfold utxo_round_events.
    replace (bs + m) with (Z.min (bs + batch_size s) last_index)
      by (unfold m; lia).
    reflexivity.
  - intros cache last_index s bs w s' w'. apply utxo_round_hands_on.
  - intros w cache u starts Hcache Hu Hstarts last_index s0 rs.
    split; [|split].
    + apply cache_utxos_rounds with (cache := cache); assumption.
    + apply utxo_rounds_linked.
    + apply utxo_rounds_tail_started.
  - exists (mkEnv 1 (fun _ => 100%Q) (fun _ _ => []) (fun _ => [])).
    exists (mkWorld [] [] 0 []), 500%Q, 0%Q. reflexivity.
Qed.

Module Throttled.

(** 600 references cached and no UTXO yet, on 300 cores, with a clock
    that advances a second a reading. *)
Definition references : list PoolTransactionReference :=
  map Sample.reference (seq 0 600).

Definition w : world := mkWorld [(202301, references)] [] 0 [].

Definition is_delay (ev : event) : bool :=
  match ev with
  | Warning _ | Sleep _ => true
  | Request _ | RequestUtxo _ => false
  end.

End Throttled.

(** The second batch of 300 finds the counter at [500 - 300] and one
    second gone: [200 + 10 - 300] is negative, so the detail flow warns
    and sleeps [5 * 300 / 10] seconds, once. *)
Example detail_flow_sleeps :
  let run := cache_utxos (Sample.env 300) "pool1" 1000 Throttled.w in
  fst run = Ok 600
  /\ filter Throttled.is_delay (trace (snd run))
     = [Warning (5 * inject_Z 300 / 10)%Q; Sleep (5 * inject_Z 300 / 10)%Q].
Proof. vm_compute. split; reflexivity. Qed.


(* ===================================================================== *)
(** ** C8: where a run resumes                                            *)
(* ===================================================================== *)

(** C8. With a local cache the first page requested is
    [len(cache) // 100 + 1]; without one it is page 1 and the batch is the
    core count (which the [== 0] guard leaves alone on a machine with at
    least one core). *)
Theorem resume_page_and_batch env w :
  (forall cache, exists b w',
      resume_estimate env (Some cache) w = (Ok (len cache / 100 + 1, b), w'))
  /\ (exists w', resume_estimate env None w = (Ok (1, cpu_count env), w'))
  /\ (1 <= cpu_count env ->
      at_least_one_call (cpu_count env) = cpu_count env).
Proof.
  split; [|split].
  - intros cache. unfold resume_estimate, bind, now, ret.
    destruct (len (trailing_window _ cache) <=? 1); [eauto|].
    destruct (_ =? 0); eauto.
  - unfold resume_estimate, bind, now, ret. eauto.
  - intros Hc. unfold at_least_one_call.
    destruct (cpu_count env =? 0) eqn:E; [apply Z.eqb_eq in E; lia|].
    reflexivity.
Qed.

Lemma resume_page_and_batch_witness :
  1 <= cpu_count (Sample.env 4)
  /\ at_least_one_call (cpu_count (Sample.env 4)) = cpu_count (Sample.env 4).
Proof.
  split; [cbn; lia|].
  apply (resume_page_and_batch (Sample.env 4) Sample.empty_world).
  cbn. lia.
Defined.

(** The first requests of a run that finds a cache of 250 references:
    page 3 onwards. *)
Example resume_from_page_three :
  let w := snd (cache_transactions (Sample.env 4) "pool1" 10
                  Sample.empty_world) in
  firstn 1 (skipn (List.length (trace w))
              (trace (snd (cache_transactions (Sample.env 4) "pool1" 10 w))))
  = [Request 3].
Proof. vm_compute. reflexivity. Qed.

(* ===================================================================== *)
(** ** C9: the detail flow without a reference cache                      *)
(* ===================================================================== *)

(** C9. Without a reference cache [cache_utxos] returns 0 and leaves the
    world as it found it: no call, no file written, no exception. *)
Theorem cache_utxos_without_references env pool_id max_calls w :
  get_transaction_cache (tx_dir w) = None ->
  cache_utxos env pool_id max_calls w = (Ok 0, w).
Proof.
  intros H. unfold cache_utxos, bind, load_transaction_cache.
  rewrite H. reflexivity.
Qed.

Lemma cache_utxos_without_references_witness :
  get_transaction_cache (tx_dir Sample.empty_world) = None
  /\ cache_utxos (Sample.env 4) "pool1" 1000 Sample.empty_world
     = (Ok 0, Sample.empty_world).
Proof.
  split; [reflexivity|].
  apply cache_utxos_without_references. reflexivity.
Defined.

(* ===================================================================== *)
(** ** Facts about the directory                                          *)
(* ===================================================================== *)

Section DirectoryFacts.

Context {R : Type}.

Lemma read_to_feather_same name (df : list R) (d : dir R) :
  read_feather name (to_feather name df d) = Some df.
Proof.
  induction d as [|[k v] d IH]; cbn [to_feather read_feather].
  - rewrite Z.eqb_refl. reflexivity.
  - destruct (name <? k) eqn:E1.
    + cbn [read_feather]. rewrite Z.eqb_refl. reflexivity.
    + destruct (name =? k) eqn:E2; cbn [read_feather].
      * rewrite Z.eqb_refl. reflexivity.
      * rewrite Z.eqb_sym, E2. exact IH.
Qed.

Lemma read_to_feather_other name k (df : list R) (d : dir R) :
  k <> name -> read_feather k (to_feather name df d) = read_feather k d.
Proof.
  intros Hne. apply Z.eqb_neq in Hne.
  assert (Hne' : (name =? k) = false) by (rewrite Z.eqb_sym; exact Hne).
  induction d as [|[k' v] d IH]; cbn [to_feather read_feather].
  - rewrite Hne'. reflexivity.
  - destruct (name <? k') eqn:E1.
    + cbn [read_feather]. rewrite Hne'. reflexivity.
    + destruct (name =? k') eqn:E2; cbn [read_feather].
      * apply Z.eqb_eq in E2. subst k'. rewrite Hne'. reflexivity.
      * rewrite IH. reflexivity.
Qed.

End DirectoryFacts.

Lemma merge_partition_other {R} (rtime : R -> Z) df name d d' k :
  merge_partition rtime df name d = Ok d' ->
  k <> name -> read_feather k d' = read_feather k d.
Proof.
  unfold merge_partition. intros H Hne.
  destruct (read_feather name d) as [c|].
  - destruct (last_time rtime c); [|discriminate].
    destruct (0 <? _); injection H as <-; [|reflexivity].
    apply read_to_feather_other, Hne.
  - injection H as <-. apply read_to_feather_other, Hne.
Qed.

(* ===================================================================== *)
(** ** C10: the month is compared without the year                        *)
(* ===================================================================== *)


Module YearApart.

(** January 2023, June 2023 and January 2024. *)
Definition jan23 : PoolTransactionReference :=
  mkTx "a" 0 1 (timestamp 2023 1 15).
Definition jan24 : PoolTransactionReference :=
  mkTx "c" 0 3 (timestamp 2024 1 15).

End YearApart.


(* ===================================================================== *)
(** ** C7: the batch estimate                                             *)
(* ===================================================================== *)

(** The estimate of line 297 is the formula of the specification; it is at
    least 0, and so at least 1 after the guard of lines 306-307, when the
    clock is not behind the last cached record. *)
Lemma estimated_batch_floor_one cpus time_delta n time_period :
  1 <= cpus -> (0 <= time_delta)%Q -> 0 <= n -> 0 < time_period ->
  1 <= at_least_one_call (estimated_batch cpus time_delta n time_period)
    <= cpus.
Proof.
  intros Hc Hd Hn Hp. unfold at_least_one_call, estimated_batch.
  assert (H0 : (0 <= time_delta * (inject_Z n / inject_Z time_period) / 100)%Q).
  { apply Qle_shift_div_l; [reflexivity|]. rewrite Qmult_0_l.
    apply Qmult_le_0_compat; [exact Hd|].
    apply Qle_shift_div_l.
    - change 0%Q with (inject_Z 0). rewrite <- Zlt_Qlt. exact Hp.
    - rewrite Qmult_0_l. change 0%Q with (inject_Z 0).
      rewrite <- Zle_Qle. exact Hn. }
  apply Qfloor_resp_le in H0. change (Qfloor 0) with 0 in H0.
  destruct (Z.min cpus _ =? 0) eqn:E; [lia|].
  apply Z.eqb_neq in E. lia.
Qed.

(** With at least two rows in the window and a non-zero period, the
    estimate of [resume_estimate] is the formula: the window's count over
    its period, times the time since its last row, in pages of 100, capped
    by the core count. *)
Lemma resume_estimate_formula env cache w :
  let utcnow := clock env (ticks w) in
  let filtered := trailing_window utcnow cache in
  let time_period := final_time filtered - first_time filtered in
  (len filtered <=? 1) = false ->
  (time_period =? 0) = false ->
  fst (resume_estimate env (Some cache) w)
  = Ok (len cache / 100 + 1,
        Z.min (cpu_count env)
          (Qfloor ((clock env (S (ticks w)) - inject_Z (final_time filtered))
                   * (inject_Z (len filtered) / inject_Z time_period)
                   / 100))).
Proof.
  cbn zeta. intros H1 H2.
  unfold resume_estimate, bind, now, ret. cbn [ticks].
  rewrite H1, H2. reflexivity.
Qed.

Module ClockBehind.

(** Two cached references 100 seconds apart, and a machine whose clock is
    50 seconds behind the second one. *)
Definition t0 : Z := timestamp 2023 1 15.

Definition cached : list PoolTransactionReference :=
  [mkTx "a" 0 1 t0; mkTx "b" 0 2 (t0 + 100)].

Definition w : world := mkWorld [(202301, cached)] [] 0 [].

Definition env : Env :=
  mkEnv 4 (fun _ => inject_Z (t0 + 50)) (paged cached) (fun _ => []).

End ClockBehind.

(** C7 (the code departs from it). With the clock 50 seconds behind the
    last cached record, [time_delta] is negative, the estimate is -1, the
    [== 0] guard lets it through and [ThreadPoolExecutor(-1)] raises: the
    batch is not floored at 1 and no call is made. *)
Theorem batch_not_floored_at_one :
  fst (resume_estimate ClockBehind.env
         (get_transaction_cache (tx_dir ClockBehind.w)) ClockBehind.w)
  = Ok (1, -1)
  /\ at_least_one_call (-1) = -1
  /\ cache_transactions ClockBehind.env "pool1" 1000 ClockBehind.w
     = (Raised ValueError,
        mkWorld (tx_dir ClockBehind.w) [] 2 []).
Proof. vm_compute. repeat split; reflexivity. Qed.

(* ===================================================================== *)
(** ** C4: one file per month                                             *)
(* ===================================================================== *)

Module ThreeMonths.

(** Three calendar months: January 2023, January 2024, February 2024. *)
Definition jan23 : PoolTransactionReference :=
  mkTx "a" 0 1 (timestamp 2023 1 15).
Definition jan24 : PoolTransactionReference :=
  mkTx "b" 0 2 (timestamp 2024 1 15).
Definition feb24 : PoolTransactionReference :=
  mkTx "c" 0 3 (timestamp 2024 2 15).

Definition stream : list PoolTransactionReference := [jan23; jan24; feb24].

Definition env : Env :=
  mkEnv 4 Sample.june_clock (paged stream) (fun _ => []).

(** January, February and March 2023. *)
Definition consecutive : list PoolTransactionReference :=
  [mkTx "a" 0 1 (timestamp 2023 1 15); mkTx "b" 0 2 (timestamp 2023 1 20);
   mkTx "c" 0 3 (timestamp 2023 2 15); mkTx "d" 0 4 (timestamp 2023 3 15)].

Definition env_consecutive : Env :=
  mkEnv 4 Sample.june_clock (paged consecutive) (fun _ => []).

End ThreeMonths.

(** C4 (the code departs from it). A time-ordered stream over the three
    calendar months 2023-01, 2024-01 and 2024-02 ends in two files, not
    three, and the file of January 2023 holds the record of January 2024:
    the split looks at the month number only. *)
Theorem three_months_two_files :
  map time ThreeMonths.stream
  = [timestamp 2023 1 15; timestamp 2024 1 15; timestamp 2024 2 15]
  /\ map (fun r => (year_of (time r), month_of (time r))) ThreeMonths.stream
     = [(2023, 1); (2024, 1); (2024, 2)]
  /\ tx_dir (snd (cache_transactions ThreeMonths.env "pool1" 1000
                    Sample.empty_world))
     = [(202301, [ThreeMonths.jan23; ThreeMonths.jan24]);
        (202402, [ThreeMonths.feb24])].
Proof. vm_compute. repeat split; reflexivity. Qed.

(** Months of one year, or any months with different numbers, do get a
    file each. *)
Example consecutive_months_three_files :
  map (fun f => (fst f, map tx_hash (snd f)))
    (tx_dir (snd (cache_transactions ThreeMonths.env_consecutive "pool1" 1000
                    Sample.empty_world)))
  = [(202301, ["a"; "b"]); (202302, ["c"]); (202303, ["d"])]%string.
Proof. vm_compute. reflexivity. Qed.

(* ===================================================================== *)
(** ** C3: the merge, step by step on the file system                     *)
(* ===================================================================== *)

(** Lines 100-113 (and 146-159) again, now as the sequence of file-system
    operations they perform, so that the states in between (where a crash
    would leave the directory) can be looked at. *)
Section Crash.

Context {R : Type}.
Variable rtime : R -> Z.

(** [NNNNNN.arrow] and [NNNNNN_temp.arrow]. *)
Inductive path : Type :=
| Arrow (name : Z)
| Temp (name : Z).

Definition path_eqb (p q : path) : bool :=
  match p, q with
  | Arrow a, Arrow b => a =? b
  | Temp a, Temp b => a =? b
  | _, _ => false
  end.

(** A file is either completely written, or torn: a write is in progress
    and only some leading rows are there. *)
Inductive file : Type :=
| Whole (rows : list R)
| Torn (rows : list R).

Definition fs : Type := path -> option file.

Definition put (p : path) (f : option file) (s : fs) : fs :=
  fun q => if path_eqb q p then f else s q.

Inductive op : Type :=
| Open (p : path)            (** create or truncate for writing *)
| Write (p : path) (r : R)   (** one more row reaches the disk *)
| Close (p : path)           (** the write is complete *)
| Unlink (p : path)
| Rename (p q : path).

Definition step (o : op) (s : fs) : fs :=
  match o with
  | Open p => put p (Some (Torn [])) s
  | Write p r =>
      match s p with
      | Some (Torn rows) => put p (Some (Torn (rows ++ [r]))) s
      | _ => s
      end
  | Close p =>
      match s p with
      | Some (Torn rows) => put p (Some (Whole rows)) s
      | _ => s
      end
  | Unlink p => put p None s
  | Rename p q => put p None (put q (s p) s)
  end.

(** [df.to_feather(p)]. *)
Definition to_feather_ops (p : path) (df : list R) : list op :=
  Open p :: map (Write p) df ++ [Close p].

(** The states the directory goes through: the one before, and the one
    after each operation. *)
Fixpoint states (ops : list op) (s : fs) : list fs :=
  s :: match ops with
       | [] => []
       | o :: ops' => states ops' (step o s)
       end.

(** The operations of lines 100-113 on the partition [name]. *)
Definition merge_partition_ops (df : list R) (name : Z) (s : fs)
  : result (list op) :=
  match s (Arrow name) with
  | Some (Whole cache_df) =>
      match last_time rtime cache_df with
      | None => Raised IndexError
      | Some threshold =>
          let filtered := filter (fun r => threshold <? rtime r) df in
          if 0 <? len filtered then
            Ok (to_feather_ops (Temp name) (cache_df ++ filtered)
                ++ [Unlink (Arrow name); Rename (Temp name) (Arrow name)])
          else Ok []
      end
  | Some (Torn _) => Raised ValueError
  | None => Ok (to_feather_ops (Arrow name) df)
  end.

(** The directory of the coarser model as a file system: its files are
    whole and there is no temporary file. *)
Definition fs_of_dir (d : dir R) : fs :=
  fun p => match p with
           | Arrow k => option_map Whole (read_feather k d)
           | Temp _ => None
           end.

Lemma path_eqb_refl p : path_eqb p p = true.
Proof. destruct p; apply Z.eqb_refl. Qed.

Lemma put_same p f s : put p f s p = f.
Proof. unfold put. rewrite path_eqb_refl. reflexivity. Qed.

Lemma put_other p q f s : path_eqb q p = false -> put p f s q = s q.
Proof. unfold put. intros ->. reflexivity. Qed.

(** While [p] is being written, any other path [q] keeps its content. *)
Lemma writes_elsewhere p q : path_eqb q p = false ->
  forall df rows s s',
    s p = Some (Torn rows) ->
    In s' (states (map (Write p) df ++ [Close p]) s) ->
    s' q = s q
    /\ (s' p = Some (Whole (rows ++ df))
        \/ exists rows', s' p = Some (Torn rows')).
Proof.
  intros Hq. induction df as [|r df IH]; intros rows s s' Hp Hin.
  - cbn [map app states step] in Hin. rewrite Hp in Hin.
    destruct Hin as [<-|[<-|[]]].
    + split; [reflexivity|]. right. eauto.
    + split; [apply put_other, Hq|]. left.
      rewrite put_same, app_nil_r. reflexivity.
  - cbn [map app states] in Hin. destruct Hin as [<-|Hin].
    + split; [reflexivity|]. right. eauto.
    + cbn [step] in Hin. rewrite Hp in Hin.
      apply (IH (rows ++ [r])) in Hin; [|apply put_same].
      rewrite put_other in Hin by exact Hq.
      rewrite <- app_assoc in Hin. exact Hin.
Qed.

(** The state after all the operations. *)
Definition final (ops : list op) (s : fs) : fs :=
  fold_left (fun s o => step o s) ops s.

Lemma states_app ops1 ops2 s s' :
  In s' (states (ops1 ++ ops2) s) ->
  In s' (states ops1 s) \/ In s' (states ops2 (final ops1 s)).
Proof.
  revert s. induction ops1 as [|o ops1 IH]; intros s Hin.
  - right. exact Hin.
  - cbn [app states] in Hin. destruct Hin as [<-|Hin].
    + left. left. reflexivity.
    + apply IH in Hin. destruct Hin as [Hin|Hin].
      * left. right. exact Hin.
      * right. exact Hin.
Qed.

Lemma final_app ops1 ops2 s :
  final (ops1 ++ ops2) s = final ops2 (final ops1 s).
Proof. apply fold_left_app. Qed.

Lemma final_writes p : forall df rows s,
    s p = Some (Torn rows) ->
    let s' := final (map (Write p) df ++ [Close p]) s in
    s' p = Some (Whole (rows ++ df))
    /\ forall q, path_eqb q p = false -> s' q = s q.
Proof.
  induction df as [|r df IH]; intros rows s Hp; cbn zeta.
  - cbn [map app final fold_left step]. rewrite Hp.
    rewrite put_same, app_nil_r. split; [reflexivity|].
    intros q Hq. apply put_other, Hq.
  - cbn [map app final fold_left step]. rewrite Hp.
    destruct (IH (rows ++ [r]) (put p (Some (Torn (rows ++ [r]))) s)
                (put_same _ _ _)) as [H1 H2].
    unfold final in H1, H2. cbn zeta in H1, H2.
    rewrite <- app_assoc in H1. split; [exact H1|].
    intros q Hq. rewrite H2 by exact Hq. apply put_other, Hq.
Qed.

(** The merge into an existing partition, state by state: the partition's
    path holds the whole old file, then (once the temporary file is
    complete and the old file unlinked) nothing, then the whole new file.
    It is never torn. *)
Lemma merge_states name old kept s s' :
  s (Arrow name) = Some (Whole old) ->
  In s' (states (to_feather_ops (Temp name) (old ++ kept)
                 ++ [Unlink (Arrow name); Rename (Temp name) (Arrow name)]) s) ->
  s' (Arrow name) = Some (Whole old)
  \/ (s' (Arrow name) = None /\ s' (Temp name) = Some (Whole (old ++ kept)))
  \/ s' (Arrow name) = Some (Whole (old ++ kept)).
Proof.
  intros Hold Hin.
  assert (Hne : path_eqb (Arrow name) (Temp name) = false) by reflexivity.
  apply states_app in Hin. destruct Hin as [Hin|Hin].
  - unfold to_feather_ops in Hin. cbn [states] in Hin.
    destruct Hin as [<-|Hin]; [left; exact Hold|].
    cbn [step] in Hin.
    apply (writes_elsewhere _ _ Hne _ [] _ _ (put_same _ _ _)) in Hin.
    destruct Hin as [Hq _]. rewrite put_other in Hq by exact Hne.
    left. congruence.
  - unfold to_feather_ops in Hin.
    change (final (Open (Temp name)
                   :: map (Write (Temp name)) (old ++ kept)
                      ++ [Close (Temp name)]) s)
      with (final (map (Write (Temp name)) (old ++ kept)
                   ++ [Close (Temp name)]) (step (Open (Temp name)) s)) in Hin.
    set (s1 := step (Open (Temp name)) s) in *.
    destruct (final_writes (Temp name) (old ++ kept) [] s1
                (put_same _ _ _)) as [Ht Ho].
    cbn zeta in Ht, Ho.
    set (s2 := final _ s1) in *. cbn [app] in Ht.
    assert (Ha : s2 (Arrow name) = Some (Whole old)).
    { rewrite (Ho _ Hne). unfold s1. cbn [step].
      rewrite put_other by exact Hne. exact Hold. }
    cbn [states step] in Hin.
    destruct Hin as [<-|[<-|[<-|[]]]].
    + left. exact Ha.
    + right. left. split; [apply put_same|].
      rewrite put_other by reflexivity. exact Ht.
    + right. right. rewrite put_other by reflexivity. rewrite put_same.
      rewrite put_other by reflexivity. exact Ht.
Qed.

(** After the last operation the partition holds the merged rows and the
    temporary file is gone. *)
Lemma merge_final name old kept s :
  let s' := final (to_feather_ops (Temp name) (old ++ kept)
                   ++ [Unlink (Arrow name); Rename (Temp name) (Arrow name)])
              s in
  s' (Arrow name) = Some (Whole (old ++ kept))
  /\ s' (Temp name) = None
  /\ forall q, path_eqb q (Arrow name) = false ->
               path_eqb q (Temp name) = false -> s' q = s q.
Proof.
  cbn zeta. rewrite final_app. unfold to_feather_ops.
  change (final (Open (Temp name)
                 :: map (Write (Temp name)) (old ++ kept)
                    ++ [Close (Temp name)]) s)
    with (final (map (Write (Temp name)) (old ++ kept)
                 ++ [Close (Temp name)]) (step (Open (Temp name)) s)).
  set (s1 := step (Open (Temp name)) s).
  destruct (final_writes (Temp name) (old ++ kept) [] s1 (put_same _ _ _))
    as [Ht Ho].
  cbn zeta in Ht, Ho. set (s2 := final _ s1) in *. cbn [app] in Ht.
  cbn [final fold_left step]. split; [|split].
  - rewrite put_other by reflexivity. rewrite put_same.
    rewrite put_other by reflexivity. exact Ht.
  - apply put_same.
  - intros q Hq1 Hq2. rewrite !put_other by assumption.
    rewrite (Ho q Hq2). unfold s1. cbn [step]. apply put_other, Hq2.
Qed.

End Crash.

Lemma states_reach_prefix {R} (ops1 ops2 : list (@op R)) s :
  In (final ops1 s) (states (ops1 ++ ops2) s).
Proof.
  revert s. induction ops1 as [|o ops1 IH]; intros s.
  - destruct ops2; left; reflexivity.
  - cbn [app states]. right. apply IH.
Qed.

(** C3 (as amended). Merging into an existing partition: the old file is
    loaded, its last time is the threshold, the incoming rows strictly
    newer than it are kept, and the partition is rewritten, as the old rows
    followed by the kept ones, only when some row is kept. The rewrite goes
    through the temporary file: at every point in between the partition's
    path holds the whole old file, or nothing (the old file is unlinked
    before the rename, and then the temporary file holds the whole new
    content), or the whole new file. It never holds a torn file. The same
    lines serve [_cache_transactions] and [_cache_utxos]. *)
Theorem merge_goes_through_temporary_file {R} (rtime : R -> Z)
    df name d old threshold :
  read_feather name d = Some old ->
  last_time rtime old = Some threshold ->
  let kept := filter (fun r => threshold <? rtime r) df in
  let new := old ++ kept in
  merge_partition rtime df name d
  = Ok (if 0 <? len kept then to_feather name new d else d)
  /\ (kept = [] -> merge_partition_ops rtime df name (fs_of_dir d) = Ok [])
  /\ (kept <> [] ->
      exists ops,
        merge_partition_ops rtime df name (fs_of_dir d) = Ok ops
        /\ (forall s', In s' (states ops (fs_of_dir d)) ->
              s' (Arrow name) = Some (Whole old)
              \/ (s' (Arrow name) = None
                  /\ s' (Temp name) = Some (Whole new))
              \/ s' (Arrow name) = Some (Whole new))
        /\ (forall s' rows, In s' (states ops (fs_of_dir d)) ->
              s' (Arrow name) <> Some (Torn rows))
        /\ (exists s', In s' (states ops (fs_of_dir d))
                       /\ s' (Arrow name) = None)
        /\ forall p, final ops (fs_of_dir d) p
                     = fs_of_dir (to_feather name new d) p).
Proof.
  intros Hold Hlast kept new.
  assert (Hfs : fs_of_dir d (Arrow name) = Some (Whole old)).
  { cbn [fs_of_dir]. rewrite Hold. reflexivity. }
  split; [|split].
  - unfold merge_partition. rewrite Hold, Hlast. fold kept.
    destruct (0 <? len kept); reflexivity.
  - intros Hk. unfold merge_partition_ops. rewrite Hfs, Hlast.
    fold kept. rewrite Hk. reflexivity.
  - intros Hk.
    assert (Hpos : (0 <? len kept) = true).
    { apply Z.ltb_lt. destruct kept; [congruence | cbn [length]; lia]. }
    eexists. split.
    { unfold merge_partition_ops. rewrite Hfs, Hlast. fold kept.
      rewrite Hpos. reflexivity. }
    fold new.
    assert (Hst : forall s', In s'
                (states (to_feather_ops (Temp name) new
                         ++ [Unlink (Arrow name);
                             Rename (Temp name) (Arrow name)])
                   (fs_of_dir d)) ->
              s' (Arrow name) = Some (Whole old)
              \/ (s' (Arrow name) = None
                  /\ s' (Temp name) = Some (Whole new))
              \/ s' (Arrow name) = Some (Whole new)).
    { intros s' Hin. eapply merge_states; eassumption. }
    split; [exact Hst|]. split; [|split].
    + intros s' rows Hin Habs. apply Hst in Hin.
      destruct Hin as [H|[[H _]|H]]; congruence.
    + exists (final (to_feather_ops (Temp name) new ++ [Unlink (Arrow name)])
                (fs_of_dir d)).
      split.
      * replace (to_feather_ops (Temp name) new
                 ++ [Unlink (Arrow name); Rename (Temp name) (Arrow name)])
          with ((to_feather_ops (Temp name) new ++ [Unlink (Arrow name)])
                ++ [Rename (Temp name) (Arrow name)])
          by (rewrite <- app_assoc; reflexivity).
        apply states_reach_prefix.
      * rewrite final_app. cbn [final fold_left step]. apply put_same.
    + intros p.
      destruct (merge_final name old kept (fs_of_dir d)) as (Ha & Ht & Ho).
      fold new in Ha, Ht, Ho.
      destruct p as [k|k].
      * destruct (Z.eq_dec k name) as [->|Hne].
        -- rewrite Ha. cbn [fs_of_dir]. rewrite read_to_feather_same.
           reflexivity.
        -- rewrite Ho; [|cbn; apply Z.eqb_neq, Hne | reflexivity].
           cbn [fs_of_dir]. rewrite read_to_feather_other by exact Hne.
           reflexivity.
      * destruct (Z.eq_dec k name) as [->|Hne].
        -- rewrite Ht. reflexivity.
        -- rewrite Ho; [reflexivity | reflexivity |].
           cbn. apply Z.eqb_neq, Hne.
Qed.

Module Rewrite.

(** A partition of January 2023 with one reference, and a newer one
    arriving for it. *)
Definition old : list PoolTransactionReference :=
  [mkTx "a" 0 1 (timestamp 2023 1 10)].

Definition incoming : list PoolTransactionReference :=
  [mkTx "a" 0 1 (timestamp 2023 1 10); mkTx "b" 0 2 (timestamp 2023 1 20)].

Definition merged : list PoolTransactionReference :=
  [mkTx "a" 0 1 (timestamp 2023 1 10); mkTx "b" 0 2 (timestamp 2023 1 20)].

Definition d : dir PoolTransactionReference := [(202301, old)].

Definition ops : list op :=
  match merge_partition_ops time incoming 202301 (fs_of_dir d) with
  | Ok ops => ops
  | Raised _ => []
  end.

End Rewrite.

Lemma merge_goes_through_temporary_file_witness :
  read_feather 202301 Rewrite.d = Some Rewrite.old
  /\ last_time time Rewrite.old = Some (timestamp 2023 1 10)
  /\ merge_partition time Rewrite.incoming 202301 Rewrite.d
     = Ok [(202301, Rewrite.merged)].
Proof.
  split; [reflexivity|]. split; [reflexivity|].
  apply (merge_goes_through_temporary_file time Rewrite.incoming 202301
           Rewrite.d Rewrite.old (timestamp 2023 1 10));
    reflexivity.
Defined.

(** The claim as stated (the path holds the whole old or the whole new
    file at every point) fails: after the unlink the path holds nothing. *)
Lemma partition_absent_between_unlink_and_rename :
  ~ (forall s', In s' (states Rewrite.ops (fs_of_dir Rewrite.d)) ->
       s' (Arrow 202301) = Some (Whole Rewrite.old)
       \/ s' (Arrow 202301) = Some (Whole Rewrite.merged)).
Proof.
  intros H.
  specialize (H (final (firstn 5 Rewrite.ops) (fs_of_dir Rewrite.d))).
  assert (Hin : In (final (firstn 5 Rewrite.ops) (fs_of_dir Rewrite.d))
                  (states Rewrite.ops (fs_of_dir Rewrite.d))).
  { change Rewrite.ops with (firstn 5 Rewrite.ops ++ skipn 5 Rewrite.ops).
    apply states_reach_prefix. }
  destruct (H Hin) as [H1|H1]; vm_compute in H1; discriminate.
Qed.

(* ===================================================================== *)
(** ** Time-ordered streams and what a flush does to the directory        *)
(* ===================================================================== *)

Section Ordered.

Context {A : Type}.
Variable t_of : A -> Z.

(** Ascending (not necessarily strictly) in time. *)
Fixpoint time_ordered (l : list A) : Prop :=
  match l with
  | [] => True
  | a :: l' => Forall (fun b => t_of a <= t_of b) l' /\ time_ordered l'
  end.

Lemma time_ordered_app l1 l2 :
  time_ordered (l1 ++ l2) <->
  time_ordered l1 /\ time_ordered l2
  /\ forall a b, In a l1 -> In b l2 -> t_of a <= t_of b.
Proof.
  induction l1 as [|x l1 IH]; cbn [app time_ordered].
  - split; [intros H; repeat split; [exact H | intros a b []] | tauto].
  - rewrite IH, Forall_app. split.
    + intros [[H1 H2] (H3 & H4 & H5)]. repeat split; try assumption.
      intros a b [<-|Ha] Hb.
      * rewrite Forall_forall in H2. apply H2, Hb.
      * apply H5; assumption.
    + intros [[H1 H2] [H3 H4]]. repeat split; try assumption.
      * apply Forall_forall. intros b Hb. apply H4; [left; reflexivity|exact Hb].
      * intros a b Ha Hb. apply H4; [right; exact Ha | exact Hb].
Qed.

Lemma time_ordered_firstn n l : time_ordered l -> time_ordered (firstn n l).
Proof.
  intros H. rewrite <- (firstn_skipn n l) in H.
  apply time_ordered_app in H. tauto.
Qed.

Lemma time_ordered_skipn n l : time_ordered l -> time_ordered (skipn n l).
Proof.
  intros H. rewrite <- (firstn_skipn n l) in H.
  apply time_ordered_app in H. tauto.
Qed.

Lemma last_In (l : list A) d : l <> [] -> In (last l d) l.
Proof.
  induction l as [|x l IH]; [congruence|]. intros _.
  destruct l as [|y l]; [left; reflexivity|].
  right. apply IH. discriminate.
Qed.

(** In an ordered list nothing is later than the last element. *)
Lemma time_ordered_last l a d :
  time_ordered l -> In a l -> t_of a <= t_of (last l d).
Proof.
  induction l as [|x l IH]; intros Ho Hin; [destruct Hin|].
  destruct l as [|y l].
  - destruct Hin as [<-|[]]. cbn. lia.
  - destruct Ho as [Hx Ho]. destruct Hin as [<-|Hin].
    + rewrite Forall_forall in Hx. apply Hx.
      apply (last_In (y :: l) d). discriminate.
    + apply (IH Ho Hin).
Qed.

End Ordered.

Lemma firstn_add {A} (n m : nat) (l : list A) :
  firstn (n + m) l = firstn n l ++ firstn m (skipn n l).
Proof.
  revert l. induction n as [|n IH]; intros l; [reflexivity|].
  destruct l as [|a l]; cbn [Nat.add firstn skipn app].
  - rewrite firstn_nil. reflexivity.
  - rewrite IH. reflexivity.
Qed.

(** A later record of another month number has a greater file name. *)
Lemma cache_name_lt t1 t2 :
  t1 <= t2 -> month_of t1 <> month_of t2 -> cache_name t1 < cache_name t2.
Proof.
  intros Hle Hne. pose proof (month_index_mono t1 t2 Hle) as Hm.
  pose proof (month_of_range t1). pose proof (month_of_range t2).
  unfold month_index, cache_name in *.
  destruct (Z.eq_dec (year_of t1) (year_of t2)) as [E|NE]; [|nia].
  rewrite E in *. lia.
Qed.

Lemma cache_name_six_digits t :
  1000 <= year_of t <= 9999 -> six_digits (cache_name t) = true.
Proof.
  intros Hy. pose proof (month_of_range t).
  unfold six_digits, cache_name. apply andb_true_iff.
  split; apply Z.leb_le; lia.
Qed.

Section DirectoryAppend.

Context {R : Type}.

(** All the rows of a directory, in file-name order. *)
Definition written (d : dir R) : list R := concat (map snd d).

Definition names_below (k : Z) (d : dir R) : Prop :=
  Forall (fun e => fst e < k) d.

Definition names_match (d : dir R) : Prop :=
  Forall (fun e => six_digits (fst e) = true) d.

Lemma to_feather_append k v (d : dir R) :
  names_below k d -> to_feather k v d = d ++ [(k, v)].
Proof.
  induction d as [|[k' v'] d IH]; intros H; [reflexivity|].
  inversion H as [|? ? Hk Hd]; subst. cbn [fst] in Hk.
  cbn [to_feather app].
  destruct (k <? k') eqn:E1; [apply Z.ltb_lt in E1; lia|].
  destruct (k =? k') eqn:E2; [apply Z.eqb_eq in E2; lia|].
  rewrite IH by exact Hd. reflexivity.
Qed.

Lemma read_feather_below k (d : dir R) :
  names_below k d -> read_feather k d = None.
Proof.
  induction d as [|[k' v'] d IH]; intros H; [reflexivity|].
  inversion H as [|? ? Hk Hd]; subst. cbn [fst] in Hk.
  cbn [read_feather].
  destruct (k' =? k) eqn:E; [apply Z.eqb_eq in E; lia|]. apply IH, Hd.
Qed.

Lemma written_append k v (d : dir R) :
  written (d ++ [(k, v)]) = written d ++ v.
Proof.
  unfold written. rewrite map_app, concat_app. cbn. rewrite app_nil_r.
  reflexivity.
Qed.

Lemma names_below_weaken k k' (d : dir R) :
  k <= k' -> names_below k d -> names_below k' d.
Proof.
  intros Hle H. unfold names_below in *. rewrite Forall_forall in *.
  intros e He. specialize (H e He). lia.
Qed.

Lemma glob_names_match (d : dir R) : names_match d -> glob d = d.
Proof.
  induction d as [|e d IH]; intros H; [reflexivity|].
  inversion H; subst. cbn [glob filter]. rewrite H2.
  f_equal. apply IH. assumption.
Qed.

Lemma vaex_open_written (d : dir R) :
  names_match d -> d <> [] -> vaex_open d = Some (written d).
Proof.
  intros Hm Hne. unfold vaex_open. rewrite glob_names_match by exact Hm.
  destruct d; [congruence | reflexivity].
Qed.

End DirectoryAppend.

(** The split found by the scan: a non-empty leading run of one month
    number, followed by a record of another month number. *)
Lemma month_break_split {A} (t_of : A -> Z) : forall l a i j,
    month_break t_of i (a :: l) = Some j ->
    exists n b rest,
      j = (i + S n)%nat
      /\ Forall (fun x => month_of (t_of x) = month_of (t_of a))
           (firstn (S n) (a :: l))
      /\ skipn (S n) (a :: l) = b :: rest
      /\ month_of (t_of b) <> month_of (t_of a).
Proof.
  induction l as [|b l IH]; intros a i j H; [discriminate|].
  cbn [month_break] in H.
  destruct (month_of (t_of a) =? month_of (t_of b)) eqn:E; cbn [negb] in H.
  - apply Z.eqb_eq in E. apply IH in H.
    destruct H as (n & b' & rest & -> & Hall & Hskip & Hne).
    exists (S n), b', rest. split; [lia|]. split; [|split].
    + change (firstn (S (S n)) (a :: b :: l))
        with (a :: firstn (S n) (b :: l)).
      constructor; [reflexivity|].
      eapply Forall_impl; [|exact Hall]. cbn beta. intros x Hx. congruence.
    + exact Hskip.
    + congruence.
  - apply Z.eqb_neq in E. injection H as <-.
    exists 0%nat, b, l. split; [lia|]. split; [|split].
    + cbn. constructor; [reflexivity | constructor].
    + reflexivity.
    + congruence.
Qed.

(** A record is covered by the directory when the file of its own month
    exists and ends no earlier than the record. *)
Definition covered (d : dir PoolTransactionReference)
    (r : PoolTransactionReference) : Prop :=
  exists f t,
    read_feather (cache_name (time r)) d = Some f
    /\ last_time time f = Some t
    /\ time r <= t.

(** Within the list a month number names one calendar month. *)
Definition month_names_year (l : list PoolTransactionReference) : Prop :=
  forall a b, In a l -> In b l ->
    month_of (time a) = month_of (time b) ->
    year_of (time a) = year_of (time b).

Lemma cache_name_same t1 t2 :
  month_of t1 = month_of t2 -> year_of t1 = year_of t2 ->
  cache_name t1 = cache_name t2.
Proof. unfold cache_name. intros -> ->. reflexivity. Qed.

(** Every row of the directory is covered by it: each lies in the file
    of its own month. *)
Definition self_covered (d : dir PoolTransactionReference) : Prop :=
  Forall (covered d) (written d).

Lemma read_feather_app {R} name (d e : dir R) f :
  read_feather name d = Some f -> read_feather name (d ++ e) = Some f.
Proof.
  induction d as [|[k v] d IH]; [discriminate|].
  cbn [read_feather app]. destruct (k =? name); [exact (fun H => H) | exact IH].
Qed.

Lemma read_feather_app_below {R} name (d e : dir R) :
  names_below name d -> read_feather name (d ++ e) = read_feather name e.
Proof.
  induction d as [|[k v] d IH]; intros H; [reflexivity|].
  inversion H as [|? ? Hk Hd]; subst. cbn [fst] in Hk.
  cbn [read_feather app].
  destruct (k =? name) eqn:E; [apply Z.eqb_eq in E; lia | apply IH, Hd].
Qed.

Lemma covered_grows d e r : covered d r -> covered (d ++ e) r.
Proof.
  intros (f & t & Hf & Ht & Hle). exists f, t.
  split; [apply read_feather_app, Hf | split; assumption].
Qed.

(** Records of one month number, where a month number names one calendar
    month, get one file name. *)
Lemma same_month_same_name l first chunk :
  month_names_year l -> In first l -> incl chunk l ->
  Forall (fun r => month_of (time r) = month_of (time first)) chunk ->
  Forall (fun r => cache_name (time r) = cache_name (time first)) chunk.
Proof.
  intros Hy Hf Hincl Hm. apply Forall_forall. intros r Hr.
  rewrite Forall_forall in Hm.
  apply cache_name_same; [apply Hm, Hr|].
  apply Hy; [apply Hincl, Hr | exact Hf | apply Hm, Hr].
Qed.

(** A time-ordered buffer whose ends are in one calendar month lies in
    that month. *)
Lemma whole_buffer_one_month first tl :
  time_ordered time (first :: tl) ->
  month_names_year (first :: tl) ->
  spans_months time (first :: tl) = false ->
  Forall (fun r => month_of (time r) = month_of (time first)) (first :: tl).
Proof.
  intros Hord Hyear Hs. apply Forall_forall. intros r Hr.
  unfold spans_months in Hs. apply negb_false_iff, Z.eqb_eq in Hs.
  set (lst := last (first :: tl) first) in *.
  assert (Hlast : In lst (first :: tl)) by (apply last_In; discriminate).
  assert (Hy : year_of (time first) = year_of (time lst))
    by (apply Hyear; [left; reflexivity | exact Hlast | exact Hs]).
  assert (H1 : time first <= time r).
  { destruct Hord as [Hall _]. destruct Hr as [<-|Hr]; [lia|].
    rewrite Forall_forall in Hall. apply Hall, Hr. }
  assert (H2 : time r <= time lst)
    by (apply (time_ordered_last time); assumption).
  pose proof (month_index_mono _ _ H1) as M1.
  pose proof (month_index_mono _ _ H2) as M2.
  assert (M3 : month_index (time first) = month_index (time lst))
    by (unfold month_index; rewrite Hs, Hy; reflexivity).
  apply (month_index_inj (time r) (time first)). lia.
Qed.

Lemma self_covered_append d k chunk :
  self_covered d -> names_below k d ->
  time_ordered time chunk ->
  Forall (fun r => cache_name (time r) = k) chunk ->
  self_covered (d ++ [(k, chunk)]).
Proof.
  intros Hd Hk Ho Hn. unfold self_covered in *. rewrite written_append.
  apply Forall_app. split.
  - eapply Forall_impl; [|exact Hd]. intros r. apply covered_grows.
  - apply Forall_forall. intros r Hr.
    rewrite Forall_forall in Hn.
    destruct chunk as [|x chunk]; [destruct Hr|].
    exists (x :: chunk), (time (last (x :: chunk) x)).
    split; [|split].
    + rewrite (Hn r Hr), read_feather_app_below by exact Hk.
      cbn [read_feather]. rewrite Z.eqb_refl. reflexivity.
    + reflexivity.
    + apply (time_ordered_last time); assumption.
Qed.

(** A flush inside the loop, into a directory all of whose names are
    smaller: the leading month becomes a new last file. *)
Lemma flush_leading_month first tl d :
  spans_months time (first :: tl) = true ->
  time_ordered time (first :: tl) ->
  names_below (cache_name (time first)) d ->
  exists chunk b rest,
    first :: tl = chunk ++ b :: rest
    /\ chunk <> []
    /\ _cache_transactions (first :: tl) d
       = Ok (d ++ [(cache_name (time first), chunk)], b :: rest)
    /\ names_below (cache_name (time b))
         (d ++ [(cache_name (time first), chunk)])
    /\ (month_names_year (first :: tl) -> self_covered d ->
        self_covered (d ++ [(cache_name (time first), chunk)])).
Proof.
  intros Hs Ho Hd.
  destruct (split_index_spans time _ Hs) as (i & Hi & Hb & Hlt).
  destruct (month_break_split time _ _ _ _ Hb)
    as (n & b & rest & -> & Hall & Hskip & Hne).
  cbn [Nat.add] in *.
  exists (firstn (S n) (first :: tl)), b, rest.
  assert (Hsplit : first :: tl = firstn (S n) (first :: tl) ++ b :: rest).
  { rewrite <- Hskip. symmetry. apply firstn_skipn. }
  split; [exact Hsplit|]. split; [discriminate|]. split; [|split].
  3:{ intros Hyear Hself. apply self_covered_append;
        [exact Hself | exact Hd | apply time_ordered_firstn, Ho |].
      apply (same_month_same_name (first :: tl));
        [exact Hyear | left; reflexivity | | exact Hall].
      intros x Hx. rewrite <- (firstn_skipn (S n) (first :: tl)).
      apply in_or_app. left. exact Hx. }
  - unfold _cache_transactions. rewrite Hi.
    unfold merge_partition. rewrite (read_feather_below _ _ Hd).
    rewrite (to_feather_append _ _ _ Hd). rewrite Hskip. reflexivity.
  - assert (Hlt' : cache_name (time first) < cache_name (time b)).
    { apply cache_name_lt; [|congruence].
      destruct Ho as [Hf _]. rewrite Forall_forall in Hf. apply Hf.
      assert (Hin : In b (first :: tl))
        by (rewrite Hsplit; apply in_or_app; right; left; reflexivity).
      destruct Hin as [<-|Hin]; [congruence | exact Hin]. }
    apply Forall_app. split.
    + eapply names_below_weaken; [|exact Hd]. lia.
    + constructor; [exact Hlt' | constructor].
Qed.

(** The flush of a buffer whose ends have one month number: all of it
    becomes a new last file. *)
Lemma flush_whole_buffer first tl d :
  spans_months time (first :: tl) = false ->
  names_below (cache_name (time first)) d ->
  _cache_transactions (first :: tl) d
  = Ok (d ++ [(cache_name (time first), first :: tl)], []).
Proof.
  intros Hs Hd.
  unfold _cache_transactions.
  rewrite (split_index_whole time (first :: tl) ltac:(discriminate) Hs).
  rewrite firstn_all, skipn_all. unfold merge_partition.
  rewrite (read_feather_below _ _ Hd).
  rewrite (to_feather_append _ _ _ Hd). reflexivity.
Qed.

Lemma flush_whole_buffer_covered first tl d :
  spans_months time (first :: tl) = false ->
  time_ordered time (first :: tl) ->
  month_names_year (first :: tl) ->
  names_below (cache_name (time first)) d ->
  self_covered d ->
  self_covered (d ++ [(cache_name (time first), first :: tl)]).
Proof.
  intros Hs Ho Hyear Hd Hself.
  apply self_covered_append; [exact Hself | exact Hd | exact Ho |].
  apply (same_month_same_name (first :: tl));
    [exact Hyear | left; reflexivity | apply incl_refl |].
  apply whole_buffer_one_month; assumption.
Qed.

(* ===================================================================== *)
(** ** A run against a paged provider, from an empty cache                *)
(* ===================================================================== *)

(** The pending buffer is ahead of the directory: every file name is
    smaller than the name its first record will get. With nothing pending
    nothing has been written. *)
Definition ahead (d : dir PoolTransactionReference)
    (pending : list PoolTransactionReference) : Prop :=
  match pending with
  | [] => d = []
  | first :: _ => names_below (cache_name (time first)) d
  end.

(** The years [datetime] prints with four digits. *)
Definition four_digit_year (r : PoolTransactionReference) : Prop :=
  1000 <= year_of (time r) <= 9999.

Lemma ahead_app d pending new : ahead d pending -> ahead d (pending ++ new).
Proof.
  destruct pending as [|a l]; [|exact (fun H => H)].
  cbn [ahead app]. intros ->. destruct new; [reflexivity | constructor].
Qed.

Lemma flush_months_appends : forall fuel txs w,
    (List.length txs <= fuel)%nat ->
    time_ordered time txs -> Forall four_digit_year txs ->
    ahead (tx_dir w) txs -> names_match (tx_dir w) ->
    exists rest d',
      flush_months fuel txs w
      = (Ok rest, mkWorld d' (utxo_dir w) (ticks w) (trace w))
      /\ written d' ++ rest = written (tx_dir w) ++ txs
      /\ ahead d' rest /\ names_match d'
      /\ time_ordered time rest /\ Forall four_digit_year rest
      /\ spans_months time rest = false
      /\ (month_names_year txs -> self_covered (tx_dir w) ->
          self_covered d').
Proof.
  induction fuel as [|fuel IH]; intros txs w Hlen Ho Hy Ha Hm.
  - destruct txs; [|cbn in Hlen; lia].
    exists [], (tx_dir w). destruct w. cbn.
    repeat split; try assumption. auto.
  - cbn [flush_months]. destruct (spans_months time txs) eqn:Hs.
    2:{ exists txs, (tx_dir w). destruct w. cbn.
        repeat split; try assumption. auto. }
    destruct txs as [|first tl]; [discriminate|].
    destruct (flush_leading_month first tl (tx_dir w) Hs Ho Ha)
      as (chunk & b & rest1 & Hsplit & Hne & Hrun & Hbelow & Hcover).
    unfold bind, on_tx_dir. rewrite Hrun.
    set (d1 := tx_dir w ++ [(cache_name (time first), chunk)]) in *.
    assert (Ho1 : time_ordered time (b :: rest1)).
    { rewrite Hsplit in Ho. apply time_ordered_app in Ho. tauto. }
    assert (Hy1 : Forall four_digit_year (b :: rest1)).
    { rewrite Hsplit in Hy. apply Forall_app in Hy. tauto. }
    assert (Hm1 : names_match d1).
    { apply Forall_app. split; [exact Hm|]. constructor; [|constructor].
      apply cache_name_six_digits. inversion Hy; assumption. }
    assert (Hlen1 : (List.length (b :: rest1) <= fuel)%nat).
    { assert (List.length (first :: tl)
              = (List.length chunk + List.length (b :: rest1))%nat)
        by (rewrite Hsplit at 1; apply length_app).
      destruct chunk; [congruence|]. cbn [length] in *. lia. }
    destruct (IH (b :: rest1)
                (mkWorld d1 (utxo_dir w) (ticks w) (trace w))
                Hlen1 Ho1 Hy1 Hbelow Hm1)
      as (rest & d' & Hrun' & Hw & Ha' & Hm' & Ho' & Hy' & Hs' & Hcover').
    exists rest, d'. cbn [tx_dir utxo_dir ticks trace] in *.
    split; [exact Hrun'|]. split.
    { rewrite Hw. unfold d1. rewrite written_append, Hsplit, <- app_assoc.
      reflexivity. }
    repeat (split; [assumption|]).
    intros Hyear Hself. apply Hcover'; [|apply Hcover; assumption].
    intros x y Hx Hy0. apply Hyear; rewrite Hsplit; apply in_or_app; right;
      assumption.
Qed.

Lemma flush_rest_appends txs w :
  spans_months time txs = false ->
  Forall four_digit_year txs ->
  ahead (tx_dir w) txs -> names_match (tx_dir w) ->
  exists d',
    flush_rest txs w = (Ok tt, mkWorld d' (utxo_dir w) (ticks w) (trace w))
    /\ written d' = written (tx_dir w) ++ txs
    /\ names_match d'
    /\ (txs <> [] -> d' <> [])
    /\ (time_ordered time txs -> month_names_year txs ->
        self_covered (tx_dir w) -> self_covered d').
Proof.
  intros Hs Hy Ha Hm. unfold flush_rest.
  destruct txs as [|first tl].
  - exists (tx_dir w). destruct w. cbn. rewrite app_nil_r.
    repeat split; [assumption | congruence | auto].
  - replace (0 <? len (first :: tl)) with true
      by (symmetry; apply Z.ltb_lt; cbn [length]; lia).
    unfold bind, on_tx_dir.
    rewrite (flush_whole_buffer first tl (tx_dir w) Hs Ha).
    eexists. split; [reflexivity|]. split; [apply written_append|].
    split; [|split].
    + apply Forall_app. split; [exact Hm|]. constructor; [|constructor].
      apply cache_name_six_digits. inversion Hy; assumption.
    + intros _. destruct (tx_dir w); discriminate.
    + intros Ho Hyear Hself.
      apply flush_whole_buffer_covered; assumption.
Qed.

Lemma page_range_succ start n :
  0 <= n -> page_range start (n + 1) = start :: page_range (start + 1) n.
Proof.
  intros Hn. unfold page_range.
  replace (Z.to_nat (n + 1)) with (S (Z.to_nat n)) by lia.
  cbn [seq map]. f_equal; [lia|].
  rewrite <- seq_shift, map_map. apply map_ext. intros i. lia.
Qed.

(** What a batch of pages of a paged provider brings in: the next
    [100 * n] records, and the end of the run exactly when they reach the
    end of the data. *)
Lemma collect_paged records pool_id : forall (m : nat) p dn txs,
    1 <= p ->
    collect (map (paged records pool_id) (page_range p (Z.of_nat m))) dn txs
    = (dn || ((0 <? Z.of_nat m)
              && (len records <? 100 * (p - 1 + Z.of_nat m))),
       txs ++ firstn (100 * m)
                (skipn (Z.to_nat ((p - 1) * 100)) records)).
Proof.
  induction m as [|m IH]; intros p dn txs Hp.
  - cbn. rewrite orb_false_r, app_nil_r. reflexivity.
  - replace (Z.of_nat (S m)) with (Z.of_nat m + 1) by lia.
    rewrite page_range_succ by lia. cbn [map collect].
    set (o := Z.to_nat ((p - 1) * 100)).
    set (rest := skipn o records).
    assert (Hpage : paged records pool_id p = firstn 100 rest) by reflexivity.
    assert (Hrest : List.length rest = (List.length records - o)%nat)
      by apply length_skipn.
    assert (Hplen : List.length (firstn 100 rest)
                    = Nat.min 100 (List.length rest))
      by apply length_firstn.
    assert (Hnext : skipn (Z.to_nat ((p + 1 - 1) * 100)) records
                    = skipn 100 rest).
    { unfold rest. rewrite skipn_skipn. f_equal. unfold o. lia. }
    assert (Hlist : firstn (100 * S m) rest
                    = firstn 100 rest ++ firstn (100 * m) (skipn 100 rest)).
    { replace (100 * S m)%nat with (100 + 100 * m)%nat by lia.
      apply firstn_add. }
    replace (0 <? Z.of_nat m + 1) with true
      by (symmetry; apply Z.ltb_lt; lia).
    cbn [andb]. rewrite Hpage.
    destruct (len (firstn 100 rest) =? 100) eqn:Efull; cbn [negb].
    + apply Z.eqb_eq in Efull.
      rewrite IH by lia. rewrite Hnext, Hlist, <- app_assoc.
      f_equal. f_equal.
      destruct m as [|m].
      * cbn [Z.of_nat Z.ltb Z.compare andb].
        symmetry. apply Z.ltb_ge. unfold o in *. lia.
      * replace (0 <? Z.of_nat (S m)) with true
          by (symmetry; apply Z.ltb_lt; lia).
        cbn [andb]. f_equal. lia.
    + apply Z.eqb_neq in Efull.
      assert (Hend : (len records <? 100 * (p - 1 + (Z.of_nat m + 1)))
                     = true).
      { apply Z.ltb_lt. unfold o in *. lia. }
      rewrite Hend, orb_true_r.
      destruct (len (firstn 100 rest) =? 0) eqn:Eempty.
      * apply Z.eqb_eq in Eempty.
        assert (rest = []) as ->
            by (destruct rest; [reflexivity | cbn [length] in *; lia]).
        rewrite firstn_nil, app_nil_r. reflexivity.
      * rewrite IH by lia. rewrite Hnext, Hlist, <- app_assoc.
        reflexivity.
Qed.

Lemma Forall_prefix {A} (P : A -> Prop) n (l : list A) :
  Forall P l -> Forall P (firstn n l).
Proof.
  intros H. rewrite <- (firstn_skipn n l) in H.
  apply Forall_app in H. tauto.
Qed.

Lemma in_prefix {A} n (l : list A) x : In x (firstn n l) -> In x l.
Proof.
  intros H. rewrite <- (firstn_skipn n l). apply in_or_app. left. exact H.
Qed.

Lemma rate_limit_world env n ca cs w :
  exists r t tr,
    rate_limit env n ca cs w
    = (Ok r, mkWorld (tx_dir w) (utxo_dir w) t tr).
Proof.
  unfold rate_limit, bind, now, emit, ret. cbn [tx_dir utxo_dir ticks trace].
  destruct cs as [t0|]; [|eauto].
  destruct (Qltb _ _); cbn [tx_dir utxo_dir ticks trace]; eauto.
Qed.

Section CompleteFetch.

Variable env : Env.
Variable pool_id : string.
Variable records : list PoolTransactionReference.
Variable k : Z.

Hypothesis provider_paged :
  get_pool_transaction_history env = paged records.
Hypothesis one_core : 1 <= cpu_count env.
Hypothesis records_ordered : time_ordered time records.
Hypothesis records_years : Forall four_digit_year records.
Hypothesis budget : 1 <= k.

(** The number of calls after which the data is known to have ended: the
    first multiple of the batch size that is more than the number of full
    pages. *)
Definition calls_to_end : Z :=
  cpu_count env * (len records / 100 / cpu_count env + 1).

Lemma calls_to_end_facts :
  let q := len records / 100 / cpu_count env in
  cpu_count env * q <= len records / 100 < calls_to_end
  /\ 100 * (len records / 100) <= len records
     < 100 * (len records / 100) + 100
  /\ 0 <= q.
Proof.
  cbn zeta. unfold calls_to_end.
  pose proof (Z.mul_div_le (len records / 100) (cpu_count env) ltac:(lia)).
  pose proof (Z.mul_succ_div_gt (len records / 100) (cpu_count env)
                ltac:(lia)).
  pose proof (Z.mul_div_le (len records) 100 ltac:(lia)).
  pose proof (Z.mul_succ_div_gt (len records) 100 ltac:(lia)).
  assert (0 <= len records / 100) by (apply Z.div_pos; lia).
  assert (0 <= len records / 100 / cpu_count env)
    by (apply Z.div_pos; lia).
  lia.
Qed.

(** The invariant of the fetch loop. *)
Record fetching (s : fetch_state) (d : dir PoolTransactionReference)
  : Prop := mkFetching {
  f_page : page s = num_calls s + 1;
  f_stream : written d ++ transactions s
             = firstn (Z.to_nat (100 * num_calls s)) records;
  f_ahead : ahead d (transactions s);
  f_match : names_match d;
  f_guard : spans_months time (transactions s) = false;
  f_done : done s = (len records <? 100 * num_calls s);
  f_bound : 0 <= num_calls s <= Z.min k calls_to_end;
  f_before : num_calls s < Z.min k calls_to_end ->
             call_batch s = cpu_count env
             /\ exists j, num_calls s = j * cpu_count env;
  f_covered : month_names_year records -> self_covered d
}.

Lemma pending_ordered s d :
  fetching s d ->
  time_ordered time (transactions s)
  /\ Forall four_digit_year (transactions s).
Proof.
  intros F. pose proof (f_stream _ _ F) as Hs.
  pose proof (time_ordered_firstn time (Z.to_nat (100 * num_calls s)) _
                records_ordered) as Ho.
  pose proof (Forall_prefix _ (Z.to_nat (100 * num_calls s)) _
                records_years) as Hy.
  rewrite <- Hs in Ho, Hy.
  apply time_ordered_app in Ho. apply Forall_app in Hy. tauto.
Qed.

Lemma fetch_round_paged s w :
  fetching s (tx_dir w) ->
  done s = false -> num_calls s < k ->
  exists s' w',
    fetch_round env pool_id k s w = (Ok s', w')
    /\ fetching s' (tx_dir w')
    /\ num_calls s < num_calls s'.
Proof.
  intros F Hdone Hlt.
  destruct calls_to_end_facts as (Hq & Hn & Hq0).
  set (q := len records / 100 / cpu_count env) in *.
  pose proof (f_done _ _ F) as Hd. rewrite Hdone in Hd.
  symmetry in Hd. apply Z.ltb_ge in Hd.
  pose proof (f_bound _ _ F) as Hb.
  assert (Hbefore : num_calls s < Z.min k calls_to_end) by lia.
  destruct (f_before _ _ F Hbefore) as (Hcb & j & Hj).
  assert (Hjq : j <= q) by (unfold calls_to_end in *; fold q in Hq; nia).
  unfold fetch_round. fold (round_batch k s).
  set (b := round_batch k s).
  assert (Hbval : b = Z.min (cpu_count env) (k - num_calls s)).
  { unfold b, round_batch. rewrite Hcb.
    destruct (num_calls s + cpu_count env >? k) eqn:E.
    - apply Z.gtb_lt in E. lia.
    - rewrite Z.gtb_ltb in E. apply Z.ltb_ge in E. lia. }
  assert (Hb1 : 1 <= b) by lia.
  destruct (rate_limit_world env b (calls_allowed s) (call_start s) w)
    as ([ca cs] & t & tr & Hrl).
  unfold bind at 1. rewrite Hrl. cbn beta iota.
  unfold bind at 1, emit_all at 1. cbn [tx_dir utxo_dir ticks trace].
  rewrite provider_paged, (f_page _ _ F).
  set (new := firstn (100 * Z.to_nat b)
                (skipn (Z.to_nat (num_calls s * 100)) records)).
  assert (Hcol : collect (map (paged records pool_id)
                            (page_range (num_calls s + 1) b))
                   (done s) (transactions s)
                 = (len records <? 100 * (num_calls s + b),
                    transactions s ++ new)).
  { pose proof (collect_paged records pool_id (Z.to_nat b)
                  (num_calls s + 1) (done s) (transactions s) ltac:(lia))
      as H.
    rewrite Z2Nat.id in H by lia. rewrite H, Hdone.
    replace (0 <? b) with true by (symmetry; apply Z.ltb_lt; lia).
    cbn [orb andb]. unfold new.
    replace (num_calls s + 1 - 1) with (num_calls s) by lia.
    reflexivity. }
  rewrite Hcol.
  set (txs := transactions s ++ new).
  assert (Hstream : written (tx_dir w) ++ txs
                    = firstn (Z.to_nat (100 * (num_calls s + b))) records).
  { unfold txs. rewrite app_assoc, (f_stream _ _ F). unfold new.
    replace (Z.to_nat (100 * (num_calls s + b)))
      with (Z.to_nat (100 * num_calls s) + 100 * Z.to_nat b)%nat by lia.
    rewrite firstn_add. do 3 f_equal. lia. }
  assert (Hot : time_ordered time txs /\ Forall four_digit_year txs).
  { pose proof (time_ordered_firstn time
                  (Z.to_nat (100 * (num_calls s + b))) _ records_ordered) as Ho.
    pose proof (Forall_prefix _ (Z.to_nat (100 * (num_calls s + b))) _
                  records_years) as Hy.
    rewrite <- Hstream in Ho, Hy.
    apply time_ordered_app in Ho. apply Forall_app in Hy. tauto. }
  destruct Hot as [Ho Hy].
  destruct (flush_months_appends (List.length txs) txs
              (mkWorld (tx_dir w) (utxo_dir w) t
                 (tr ++ map Request (page_range (num_calls s + 1) b)))
              (le_n _) Ho Hy
              (ahead_app _ _ _ (f_ahead _ _ F)) (f_match _ _ F))
    as (rest & d' & Hflush & Hw & Ha' & Hm' & Ho' & Hy' & Hs' & Hcover).
  cbn [tx_dir utxo_dir ticks trace] in *.
  unfold bind. rewrite Hflush. unfold ret.
  eexists. eexists. split; [reflexivity|].
  cbn [tx_dir num_calls]. split; [|lia].
  constructor; cbn [page call_batch num_calls done transactions].
  - lia.
  - rewrite Hw. exact Hstream.
  - exact Ha'.
  - exact Hm'.
  - exact Hs'.
  - reflexivity.
  - unfold calls_to_end in *. fold q in Hb, Hbefore |- *. nia.
  - intros Hnext. split; [lia|]. exists (j + 1). lia.
  - intros Hyear. apply Hcover; [|apply (f_covered _ _ F Hyear)].
    intros x y Hx Hy0. apply Hyear;
      apply (in_prefix (Z.to_nat (100 * (num_calls s + b))));
      rewrite <- Hstream; apply in_or_app; right; assumption.
Qed.

Lemma fetching_exit s d :
  fetching s d ->
  negb (done s) && (num_calls s <? k) = false ->
  num_calls s = Z.min k calls_to_end.
Proof.
  intros F G.
  destruct calls_to_end_facts as (Hq & Hn & Hq0).
  pose proof (f_bound _ _ F) as Hb. pose proof (f_done _ _ F) as Hd.
  destruct (Z_lt_ge_dec (num_calls s) (Z.min k calls_to_end))
    as [Hlt|]; [exfalso|lia].
  destruct (f_before _ _ F Hlt) as (_ & j & Hj).
  apply andb_false_iff in G. destruct G as [G|G].
  - apply negb_false_iff in G. rewrite G in Hd. symmetry in Hd.
    apply Z.ltb_lt in Hd. unfold calls_to_end in *.
    set (q := len records / 100 / cpu_count env) in *.
    assert (j <= q) by nia.
    assert (j * cpu_count env <= cpu_count env * q) by nia.
    lia.
  - apply Z.ltb_ge in G. lia.
Qed.

Lemma fetch_loop_paged : forall fuel s w,
    fetching s (tx_dir w) ->
    k - num_calls s <= Z.of_nat fuel ->
    exists s' w',
      fetch_loop fuel env pool_id k s w = (Ok s', w')
      /\ fetching s' (tx_dir w')
      /\ num_calls s' = Z.min k calls_to_end.
Proof.
  induction fuel as [|fuel IH]; intros s w F Hfuel; cbn [fetch_loop];
    destruct (negb (done s) && (num_calls s <? k)) eqn:G.
  - apply andb_true_iff in G. destruct G as [_ G]. apply Z.ltb_lt in G. lia.
  - exists s, w. split; [reflexivity|]. split; [exact F|].
    eapply fetching_exit; eassumption.
  - apply andb_true_iff in G. destruct G as [G1 G2].
    apply negb_true_iff in G1. apply Z.ltb_lt in G2.
    destruct (fetch_round_paged s w F G1 G2) as (s1 & w1 & Hr & F1 & Hgrow).
    unfold bind. rewrite Hr.
    apply (IH s1 w1 F1). lia.
  - exists s, w. split; [reflexivity|]. split; [exact F|].
    eapply fetching_exit; eassumption.
Qed.

(** A run from an empty directory: the calls it makes and the cache it
    leaves. *)
Lemma cache_transactions_from_empty w :
  tx_dir w = [] ->
  let n := Z.min k calls_to_end in
  exists w',
    cache_transactions env pool_id k w = (Ok n, w')
    /\ written (tx_dir w') = firstn (Z.to_nat (100 * n)) records
    /\ names_match (tx_dir w')
    /\ (tx_dir w' = [] -> firstn (Z.to_nat (100 * n)) records = [])
    /\ (month_names_year records -> self_covered (tx_dir w')).
Proof.
  intros Hempty n. unfold cache_transactions.
  unfold bind at 1, load_transaction_cache.
  unfold get_transaction_cache. rewrite Hempty. cbn [vaex_open glob filter].
  unfold bind at 1, resume_estimate at 1, bind at 1, now at 1, ret at 1.
  cbn beta iota.
  assert (Hone : at_least_one_call (cpu_count env) = cpu_count env).
  { unfold at_least_one_call.
    destruct (cpu_count env =? 0) eqn:E; [apply Z.eqb_eq in E; lia|].
    reflexivity. }
  rewrite Hone. unfold bind at 1, ThreadPoolExecutor.
  replace (cpu_count env <=? 0) with false
    by (symmetry; apply Z.leb_gt; lia).
  unfold ret at 1.
  set (w0 := mkWorld (tx_dir w) (utxo_dir w) (S (ticks w)) (trace w)).
  set (s0 := mkFetch 1 (cpu_count env) 0 false [] 500%Q None).
  assert (F0 : fetching s0 (tx_dir w0)).
  { destruct calls_to_end_facts as (Hq & Hn & Hq0).
    unfold w0, s0. cbn [tx_dir]. rewrite Hempty.
    constructor; cbn [page num_calls transactions done call_batch];
      try reflexivity.
    - constructor.
    - symmetry. apply Z.ltb_ge. lia.
    - unfold calls_to_end in *. nia.
    - intros _. split; [reflexivity|]. exists 0. lia.
    - intros _. constructor. }
  destruct (fetch_loop_paged (Z.to_nat k) s0 w0 F0) as (s' & w1 & Hl & F & Hn).
  { unfold s0. cbn [num_calls]. lia. }
  unfold bind at 1. rewrite Hl.
  destruct (pending_ordered _ _ F) as [Ho Hy].
  destruct (flush_rest_appends (transactions s') w1 (f_guard _ _ F) Hy
              (f_ahead _ _ F) (f_match _ _ F))
    as (d' & Hf & Hw & Hm & Hne & Hcover).
  unfold bind. rewrite Hf. unfold ret. fold n in Hn. rewrite Hn.
  eexists. split; [reflexivity|]. cbn [tx_dir utxo_dir].
  split; [|split; [exact Hm|split]].
  - rewrite Hw, (f_stream _ _ F), Hn. reflexivity.
  - intros ->. rewrite <- Hn, <- (f_stream _ _ F).
    cbn [written map concat] in Hw. symmetry in Hw.
    apply app_eq_nil in Hw. destruct Hw as [Hw1 Hw2].
    rewrite Hw1, Hw2. reflexivity.
  - intros Hyear. apply Hcover; [exact Ho | | apply (f_covered _ _ F Hyear)].
    intros x y Hx Hy0. apply Hyear;
      apply (in_prefix (Z.to_nat (100 * num_calls s')));
      rewrite <- (f_stream _ _ F); apply in_or_app; right; assumption.
Qed.

End CompleteFetch.

(* ===================================================================== *)
(** ** Checking concrete streams                                          *)
(* ===================================================================== *)

Section Checkers.

Context {A : Type}.
Variable t_of : A -> Z.

Fixpoint ascending (l : list A) : bool :=
  match l with
  | a :: (b :: _) as tl => (t_of a <=? t_of b) && ascending tl
  | _ => true
  end.

Lemma ascending_ordered l : ascending l = true -> time_ordered t_of l.
Proof.
  induction l as [|a l IH]; intros H; [exact I|].
  destruct l as [|b l]; [split; [constructor | exact I]|].
  cbn [ascending] in H. apply andb_true_iff in H. destruct H as [Hab H].
  apply Z.leb_le in Hab. specialize (IH H). split; [|exact IH].
  destruct IH as [Hb _]. constructor; [exact Hab|].
  eapply Forall_impl; [|exact Hb]. cbn beta. intros x Hx. lia.
Qed.

End Checkers.

Fixpoint distinct (l : list string) : bool :=
  match l with
  | [] => true
  | a :: l' => negb (existsb (String.eqb a) l') && distinct l'
  end.

Lemma distinct_NoDup l : distinct l = true -> NoDup l.
Proof.
  induction l as [|a l IH]; intros H; [constructor|].
  cbn [distinct] in H. apply andb_true_iff in H. destruct H as [Ha H].
  constructor; [|apply IH, H].
  intros Hin. apply negb_true_iff in Ha.
  assert (existsb (String.eqb a) l = true); [|congruence].
  apply existsb_exists. exists a. split; [exact Hin | apply String.eqb_refl].
Qed.

Definition four_digit_yearb (r : PoolTransactionReference) : bool :=
  (1000 <=? year_of (time r)) && (year_of (time r) <=? 9999).

Lemma four_digit_years l :
  forallb four_digit_yearb l = true -> Forall four_digit_year l.
Proof.
  intros H. apply Forall_forall. intros r Hr.
  rewrite forallb_forall in H. specialize (H r Hr).
  unfold four_digit_yearb in H. apply andb_true_iff in H.
  destruct H as [H1 H2]. apply Z.leb_le in H1, H2. split; assumption.
Qed.

Definition storableb (r : PoolTransactionReference) : bool :=
  (-9223372036 <=? time r) && (time r <=? 9223372036)
  && (- 2 ^ 63 <=? tx_index r) && (tx_index r <? 2 ^ 63)
  && (- 2 ^ 63 <=? block_height r) && (block_height r <? 2 ^ 63).

Lemma storable_all l : forallb storableb l = true -> Forall storable l.
Proof.
  intros H. apply Forall_forall. intros r Hr.
  rewrite forallb_forall in H. specialize (H r Hr).
  unfold storableb in H. rewrite !andb_true_iff in H.
  destruct H as [[[[[H1 H2] H3] H4] H5] H6].
  apply Z.leb_le in H1, H2, H3, H5. apply Z.ltb_lt in H4, H6.
  unfold storable. lia.
Qed.

(** The years pandas holds have four digits. *)
Lemma storable_four_digit_year r : storable r -> four_digit_year r.
Proof.
  intros [Ht _]. unfold four_digit_year.
  assert (Hlo : 12011 < month_index (-9223372036))
    by (vm_compute; reflexivity).
  assert (Hhi : month_index 9223372036 < 120000)
    by (vm_compute; reflexivity).
  pose proof (month_index_mono (-9223372036) (time r) ltac:(lia)) as H1.
  pose proof (month_index_mono (time r) 9223372036 ltac:(lia)) as H2.
  assert (Hidx : 12011 < month_index (time r) < 120000) by lia.
  clear Hlo Hhi H1 H2. unfold month_index in Hidx.
  pose proof (month_of_range (time r)). lia.
Qed.

Lemma storable_years l : Forall storable l -> Forall four_digit_year l.
Proof. apply Forall_impl. exact storable_four_digit_year. Qed.

(* ===================================================================== *)
(** ** C2: the scenario of 250 records                                    *)
(* ===================================================================== *)

(** C2 (as amended). From an empty cache, against a provider that serves
    250 time-ordered references with distinct hashes, all of values pandas
    and arrow hold ([storable]), in pages of 100 (100, 100, 50, then empty
    pages), [cache_transactions(pool, 10)] issues whole
    batches of [c = cpu_count()] pages: [min 10 (c * (2 / c + 1))] calls,
    which is 4 exactly on two or four cores (3 on one or three cores, [c]
    on five to ten, 10 above). The resulting cache holds exactly the 250
    records, so all its hashes are distinct. *)
Theorem scenario_250_records env pool_id records w :
  get_pool_transaction_history env = paged records ->
  1 <= cpu_count env ->
  len records = 250 ->
  time_ordered time records ->
  Forall storable records ->
  NoDup (map tx_hash records) ->
  tx_dir w = [] ->
  let c := cpu_count env in
  let n := Z.min 10 (c * (2 / c + 1)) in
  exists w',
    cache_transactions env pool_id 10 w = (Ok n, w')
    /\ calls (trace w') - calls (trace w) = n
    /\ 3 <= n <= 10
    /\ (n = 4 <-> c = 2 \/ c = 4)
    /\ exists cache,
         get_transaction_cache (tx_dir w') = Some cache
         /\ cache = records
         /\ len cache = 250
         /\ NoDup (map tx_hash cache).
Proof.
  intros Hprov Hcpu Hlen Hord Hstore Hnodup Hempty c n.
  pose proof (storable_years records Hstore) as Hyears.
  destruct (cache_transactions_from_empty env pool_id records 10
              Hprov Hcpu Hord Hyears ltac:(lia) w Hempty)
    as (w' & Hrun & Hw & Hm & Hne & _).
  unfold calls_to_end in *. rewrite Hlen in *.
  change (250 / 100) with 2 in *. fold c in Hrun, Hw, Hne. fold n in Hrun, Hw, Hne.
  assert (Hn : 3 <= n <= 10 /\ (n = 4 <-> c = 2 \/ c = 4)).
  { unfold n. destruct (Z.eq_dec c 1) as [->|H1]; [cbn; lia|].
    destruct (Z.eq_dec c 2) as [->|H2]; [cbn; lia|].
    rewrite (Z.div_small 2 c) by (unfold c in *; lia).
    unfold c in *. lia. }
  assert (Hall : firstn (Z.to_nat (100 * n)) records = records).
  { apply firstn_all2. lia. }
  rewrite Hall in *.
  exists w'. split; [exact Hrun|]. split; [|split; [tauto|split; [tauto|]]].
  - pose proof (cache_transactions_calls env pool_id 10 w) as Hc.
    unfold spec in Hc. rewrite Hrun in Hc. lia.
  - exists records. split; [|split; [reflexivity|split; assumption]].
    unfold get_transaction_cache. rewrite <- Hw.
    apply vaex_open_written; [exact Hm|].
    intros Hnil. apply Hne in Hnil. rewrite Hnil in Hlen. discriminate.
Qed.

Lemma sample_references_ok :
  len Sample.references = 250
  /\ time_ordered time Sample.references
  /\ Forall four_digit_year Sample.references
  /\ NoDup (map tx_hash Sample.references).
Proof.
  split; [reflexivity|]. split; [|split].
  - apply ascending_ordered. vm_compute. reflexivity.
  - apply four_digit_years. vm_compute. reflexivity.
  - apply distinct_NoDup. vm_compute. reflexivity.
Defined.

Lemma scenario_250_records_witness :
  exists w',
    cache_transactions (Sample.env 4) "pool1" 10 Sample.empty_world
    = (Ok 4, w')
    /\ calls (trace w') - calls (trace Sample.empty_world) = 4
    /\ 3 <= 4 <= 10
    /\ (4 = 4 <-> 4 = 2 \/ 4 = 4)
    /\ exists cache,
         get_transaction_cache (tx_dir w') = Some cache
         /\ cache = Sample.references
         /\ len cache = 250
         /\ NoDup (map tx_hash cache).
Proof.
  destruct sample_references_ok as (Hlen & Hord & Hyears & Hnodup).
  apply (scenario_250_records (Sample.env 4) "pool1" Sample.references
           Sample.empty_world);
    [reflexivity | cbn; lia | exact Hlen | exact Hord
    | apply storable_all; vm_compute; reflexivity
    | exact Hnodup | reflexivity].
Defined.

(** The claim as stated, exactly 4 calls (or fewer only when [max_calls]
    cuts the run short), fails on eight cores: one batch of 8 calls. *)
Lemma eight_cores_eight_calls :
  let run := cache_transactions (Sample.env 8) "pool1" 10 Sample.empty_world
  in
  fst run = Ok 8
  /\ calls (trace (snd run)) = 8
  /\ ~ (fst run = Ok 4 \/ exists n, fst run = Ok n /\ n < 4 /\ n = 10).
Proof.
  vm_compute. split; [reflexivity|]. split; [reflexivity|].
  intros [H|(n & H & H1 & H2)]; [discriminate|].
  injection H as <-. discriminate.
Qed.

(** On one core the run stops after 3 calls, at the short page, without
    asking for the empty fourth page. *)
Example one_core_three_calls :
  let run := cache_transactions (Sample.env 1) "pool1" 10 Sample.empty_world
  in
  fst run = Ok 3
  /\ map (fun f => (fst f, len (snd f))) (tx_dir (snd run))
     = [(202301, 62); (202302, 56); (202303, 62); (202304, 60); (202305, 10)].
Proof. vm_compute. split; reflexivity. Qed.

(* ===================================================================== *)
(** ** A second run over a complete cache                                 *)
(* ===================================================================== *)

Lemma filter_none {A} (f : A -> bool) l :
  Forall (fun x => f x = false) l -> filter f l = [].
Proof.
  induction 1 as [|x l Hx _ IH]; [reflexivity|].
  cbn [filter]. rewrite Hx. exact IH.
Qed.

(** Merging records that the file already covers writes nothing. *)
Lemma merge_partition_covered df name d f t :
  read_feather name d = Some f ->
  last_time time f = Some t ->
  Forall (fun r => time r <= t) df ->
  merge_partition time df name d = Ok d.
Proof.
  intros Hf Ht Hall. unfold merge_partition. rewrite Hf, Ht.
  rewrite filter_none; [reflexivity|].
  eapply Forall_impl; [|exact Hall]. cbn beta. intros r Hr.
  apply Z.ltb_ge. exact Hr.
Qed.

Lemma same_name_covered d first r :
  covered d first -> covered d r ->
  cache_name (time r) = cache_name (time first) ->
  exists f t,
    read_feather (cache_name (time first)) d = Some f
    /\ last_time time f = Some t /\ time first <= t /\ time r <= t.
Proof.
  intros (f & t & Hf & Ht & Hle) (f' & t' & Hf' & Ht' & Hle') Hname.
  rewrite Hname in Hf'. rewrite Hf in Hf'. injection Hf' as <-.
  rewrite Ht in Ht'. injection Ht' as <-.
  exists f, t. repeat split; assumption.
Qed.

(** A flush of covered records leaves the directory as it is. *)
Lemma _cache_transactions_covered first tl d :
  Forall (covered d) (first :: tl) ->
  time_ordered time (first :: tl) ->
  month_names_year (first :: tl) ->
  exists i,
    _cache_transactions (first :: tl) d = Ok (d, skipn i (first :: tl))
    /\ (0 < i)%nat
    /\ (spans_months time (first :: tl) = false ->
        skipn i (first :: tl) = []).
Proof.
  intros Hcov Hord Hyear.
  assert (Hfirst : covered d first) by (inversion Hcov; assumption).
  destruct Hfirst as (f & t & Hf & Ht & Hle).
  assert (Hmerge : forall i,
             Forall (fun r => month_of (time r) = month_of (time first))
               (firstn i (first :: tl)) ->
             merge_partition time (firstn i (first :: tl))
               (cache_name (time first)) d = Ok d).
  { intros i Hmonths. apply (merge_partition_covered _ _ _ f t Hf Ht).
    apply Forall_forall. intros r Hr.
    assert (Hin : In r (first :: tl)).
    { rewrite <- (firstn_skipn i (first :: tl)). apply in_or_app. left.
      exact Hr. }
    rewrite Forall_forall in Hmonths, Hcov.
    assert (Hname : cache_name (time r) = cache_name (time first)).
    { apply cache_name_same; [apply Hmonths, Hr|].
      apply Hyear; [exact Hin | left; reflexivity | apply Hmonths, Hr]. }
    destruct (same_name_covered d first r) as (f' & t' & Hf' & Ht' & _ & Hr');
      [exists f, t; auto | apply Hcov, Hin | exact Hname |].
    rewrite Hf in Hf'. injection Hf' as <-.
    rewrite Ht in Ht'. injection Ht' as <-. exact Hr'. }
  destruct (spans_months time (first :: tl)) eqn:Hs.
  - destruct (split_index_spans time _ Hs) as (i & Hi & Hb & Hlt).
    destruct (month_break_split time _ _ _ _ Hb)
      as (n & b & rest & -> & Hall & Hskip & Hne).
    cbn [Nat.add] in *. exists (S n).
    split; [|split; [lia | intros [=]]].
    unfold _cache_transactions. rewrite Hi, (Hmerge (S n) Hall).
    reflexivity.
  - exists (List.length (first :: tl)).
    split; [|split; [cbn [length]; lia | intros _; apply skipn_all]].
    unfold _cache_transactions.
    rewrite (split_index_whole time (first :: tl) ltac:(discriminate) Hs).
    rewrite Hmerge; [reflexivity|].
    rewrite firstn_all. apply Forall_forall. intros r Hr.
    (* between the first and the last record, which share their month *)
    unfold spans_months in Hs. apply negb_false_iff, Z.eqb_eq in Hs.
    set (lst := last (first :: tl) first) in *.
    assert (Hlast : In lst (first :: tl)) by (apply last_In; discriminate).
    assert (Hy : year_of (time first) = year_of (time lst))
      by (apply Hyear; [left; reflexivity | exact Hlast | exact Hs]).
    assert (H1 : time first <= time r).
    { destruct Hord as [Hall _]. destruct Hr as [<-|Hr]; [lia|].
      rewrite Forall_forall in Hall. apply Hall, Hr. }
    assert (H2 : time r <= time lst)
      by (apply (time_ordered_last time); assumption).
    pose proof (month_index_mono _ _ H1) as M1.
    pose proof (month_index_mono _ _ H2) as M2.
    assert (M3 : month_index (time first) = month_index (time lst))
      by (unfold month_index; rewrite Hs, Hy; reflexivity).
    apply (month_index_inj (time r) (time first)). lia.
Qed.

Lemma covered_suffix d i l :
  Forall (covered d) l -> time_ordered time l -> month_names_year l ->
  Forall (covered d) (skipn i l) /\ time_ordered time (skipn i l)
  /\ month_names_year (skipn i l).
Proof.
  intros Hc Ho Hy. split; [|split].
  - rewrite <- (firstn_skipn i l) in Hc. apply Forall_app in Hc. tauto.
  - apply time_ordered_skipn, Ho.
  - intros a b Ha Hb. apply Hy; rewrite <- (firstn_skipn i l);
      apply in_or_app; right; assumption.
Qed.

Lemma flush_months_covered : forall fuel txs w,
    (List.length txs <= fuel)%nat ->
    Forall (covered (tx_dir w)) txs ->
    time_ordered time txs -> month_names_year txs ->
    exists rest,
      flush_months fuel txs w = (Ok rest, w)
      /\ spans_months time rest = false
      /\ Forall (covered (tx_dir w)) rest
      /\ time_ordered time rest /\ month_names_year rest.
Proof.
  induction fuel as [|fuel IH]; intros txs w Hlen Hc Ho Hy.
  - destruct txs; [|cbn in Hlen; lia]. exists []. cbn. auto.
  - cbn [flush_months]. destruct (spans_months time txs) eqn:Hs.
    2:{ exists txs. auto. }
    destruct txs as [|first tl]; [discriminate|].
    destruct (_cache_transactions_covered first tl (tx_dir w) Hc Ho Hy)
      as (i & Hrun & Hi & _).
    unfold bind, on_tx_dir. rewrite Hrun.
    destruct (covered_suffix (tx_dir w) i _ Hc Ho Hy) as (Hc' & Ho' & Hy').
    assert (Hlen' : (List.length (skipn i (first :: tl)) <= fuel)%nat).
    { rewrite length_skipn. cbn [length] in *. lia. }
    replace (mkWorld (tx_dir w) (utxo_dir w) (ticks w) (trace w)) with w
      by (destruct w; reflexivity).
    apply (IH _ w Hlen' Hc' Ho' Hy').
Qed.

Lemma flush_rest_covered txs w :
  spans_months time txs = false ->
  Forall (covered (tx_dir w)) txs ->
  time_ordered time txs -> month_names_year txs ->
  flush_rest txs w = (Ok tt, w).
Proof.
  intros Hs Hc Ho Hy. unfold flush_rest.
  destruct txs as [|first tl]; [reflexivity|].
  replace (0 <? len (first :: tl)) with true
    by (symmetry; apply Z.ltb_lt; cbn [length]; lia).
  destruct (_cache_transactions_covered first tl (tx_dir w) Hc Ho Hy)
    as (i & Hrun & _ & _).
  unfold bind, on_tx_dir. rewrite Hrun. unfold ret.
  destruct w; reflexivity.
Qed.

(** A first run with budget enough to reach the end of the data leaves a
    cache that holds every remote record, each covered by the file of its
    own month: the state the second run is considered in. *)
Lemma first_run_completes env pool_id records k w :
  get_pool_transaction_history env = paged records ->
  1 <= cpu_count env ->
  time_ordered time records ->
  Forall four_digit_year records ->
  month_names_year records ->
  records <> [] ->
  len records < 100 * k ->
  tx_dir w = [] ->
  exists n w',
    cache_transactions env pool_id k w = (Ok n, w')
    /\ get_transaction_cache (tx_dir w') = Some records
    /\ Forall (covered (tx_dir w')) records.
Proof.
  intros Hprov Hcpu Hord Hyears Hmonth Hne Hk Hempty.
  destruct (cache_transactions_from_empty env pool_id records k
              Hprov Hcpu Hord Hyears ltac:(lia) w Hempty)
    as (w' & Hrun & Hw & Hm & Hnil & Hcover).
  destruct (calls_to_end_facts env records Hcpu) as (Hq & Hn & Hq0).
  assert (Hall : firstn (Z.to_nat (100 * Z.min k (calls_to_end env records)))
                   records = records).
  { apply firstn_all2. lia. }
  rewrite Hall in *.
  exists (Z.min k (calls_to_end env records)), w'.
  split; [exact Hrun|]. split.
  - unfold get_transaction_cache. rewrite <- Hw.
    apply vaex_open_written; [exact Hm|].
    intros Habs. apply Hne, Hnil, Habs.
  - specialize (Hcover Hmonth). unfold self_covered in Hcover.
    rewrite Hw in Hcover. exact Hcover.
Qed.

Lemma resume_estimate_world env cache w :
  exists p b t,
    resume_estimate env cache w
    = (Ok (p, b), mkWorld (tx_dir w) (utxo_dir w) t (trace w))
    /\ (forall c, cache = Some c -> p = len c / 100 + 1)
    /\ at_least_one_call b <= Z.max 1 (cpu_count env).
Proof.
  unfold resume_estimate, bind, now, ret. cbn [tx_dir utxo_dir ticks trace].
  destruct cache as [c|].
  - destruct (len (trailing_window _ c) <=? 1).
    + do 3 eexists. split; [reflexivity|]. split.
      * intros c' [= <-]. reflexivity.
      * cbn. lia.
    + destruct (_ =? 0).
      * do 3 eexists. split; [reflexivity|]. split.
        -- intros c' [= <-]. reflexivity.
        -- cbn. lia.
      * do 3 eexists. split; [reflexivity|]. split.
        -- intros c' [= <-]. reflexivity.
        -- unfold at_least_one_call, estimated_batch.
           destruct (Z.min _ _ =? 0); lia.
  - do 3 eexists. split; [reflexivity|]. split; [discriminate|].
    unfold at_least_one_call. destruct (cpu_count env =? 0); lia.
Qed.

Lemma rate_limit_first env n ca w :
  rate_limit env n ca None w
  = (Ok ((ca - inject_Z n)%Q, Some (clock env (S (ticks w)))),
     mkWorld (tx_dir w) (utxo_dir w) (S (S (ticks w))) (trace w)).
Proof. reflexivity. Qed.

Lemma fetch_loop_done fuel env pool_id k s w :
  done s = true -> fetch_loop fuel env pool_id k s w = (Ok s, w).
Proof. intros H. destruct fuel; cbn [fetch_loop]; rewrite H; reflexivity. Qed.

(** C5 (as amended). When the cache holds every remote record (the
    directory reads back as the provider's records, and the file of each
    re-fetched record's month ends no earlier than the record), a further
    run, where the resume estimate is positive, issues exactly one batch:
    [min(call_batch, max_calls)] calls for the pages from
    [len(cache) // 100 + 1] on, of which the first is short or empty and
    the others are empty. [call_batch] is the resume estimate and can be
    as large as the core count. The run leaves the directory, and so the
    cached records, unchanged. ([first_run_completes] shows a first run
    establishing the state assumed here.) *)
Theorem second_run_one_batch env pool_id records k w p b w1 :
  get_pool_transaction_history env = paged records ->
  get_transaction_cache (tx_dir w) = Some records ->
  let resume := len records / 100 + 1 in
  let last_page := paged records pool_id resume in
  Forall (covered (tx_dir w)) last_page ->
  time_ordered time last_page ->
  month_names_year last_page ->
  1 <= k ->
  resume_estimate env (Some records) w = (Ok (p, b), w1) ->
  1 <= at_least_one_call b ->
  let n := Z.min (at_least_one_call b) k in
  exists w',
    cache_transactions env pool_id k w = (Ok n, w')
    /\ tx_dir w' = tx_dir w
    /\ get_transaction_cache (tx_dir w') = Some records
    /\ trace w' = trace w ++ map Request (page_range resume n)
    /\ calls (trace w') - calls (trace w) = n
    /\ 1 <= n <= Z.max 1 (cpu_count env)
    /\ len last_page < 100
    /\ forall q, resume < q -> paged records pool_id q = [].
Proof.
  intros Hprov Hcache resume last_page Hcov Hord Hyear Hk Hres Hb n.
  destruct (resume_estimate_world env (Some records) w)
    as (p' & b' & t & Hres' & Hp & Hle).
  rewrite Hres in Hres'. injection Hres' as <- <- ->.
  specialize (Hp records eq_refl). fold resume in Hp. subst p.
  assert (Hn : 1 <= n <= Z.max 1 (cpu_count env)) by (unfold n; lia).
  pose proof (Z.mul_div_le (len records) 100 ltac:(lia)) as Hd1.
  pose proof (Z.mul_succ_div_gt (len records) 100 ltac:(lia)) as Hd2.
  assert (Hd0 : 0 <= len records / 100) by (apply Z.div_pos; lia).
  set (o := Z.to_nat ((resume - 1) * 100)).
  assert (Ho : Z.of_nat o = 100 * (len records / 100))
    by (unfold o, resume; lia).
  assert (Hshort : (List.length (skipn o records) < 100)%nat)
    by (rewrite length_skipn; lia).
  assert (Hpage : last_page = skipn o records).
  { unfold last_page, paged. fold o. apply firstn_all2. lia. }
  set (s0 := mkFetch resume (at_least_one_call b) 0 false [] 500%Q None).
  assert (Hbatch : round_batch k s0 = n).
  { unfold round_batch, s0, n. cbn [num_calls call_batch].
    destruct (0 + at_least_one_call b >? k) eqn:E.
    - apply Z.gtb_lt in E. lia.
    - rewrite Z.gtb_ltb in E. apply Z.ltb_ge in E. lia. }
  set (w2 := mkWorld (tx_dir w) (utxo_dir w) (S (S t))
               (trace w ++ map Request (page_range resume n))).
  assert (Hcol : collect (map (get_pool_transaction_history env pool_id)
                            (page_range resume n)) false []
                 = (true, last_page)).
  { rewrite Hprov.
    pose proof (collect_paged records pool_id (Z.to_nat n) resume false []
                  ltac:(unfold resume; lia)) as H.
    rewrite Z2Nat.id in H by lia. rewrite H. fold o.
    replace (0 <? n) with true by (symmetry; apply Z.ltb_lt; lia).
    replace (len records <? 100 * (resume - 1 + n)) with true
      by (symmetry; apply Z.ltb_lt; unfold resume; lia).
    cbn [orb andb app]. rewrite Hpage. f_equal. apply firstn_all2. lia. }
  destruct (flush_months_covered (List.length last_page) last_page w2
              (le_n _) Hcov Hord Hyear)
    as (rest & Hflush & Hs & Hc' & Ho' & Hy').
  assert (Hround : fetch_round env pool_id k s0
                     (mkWorld (tx_dir w) (utxo_dir w) t (trace w))
                   = (Ok (mkFetch (resume + n) n (0 + n) true rest
                            (500 - inject_Z n)%Q
                            (Some (clock env (S t)))), w2)).
  { unfold fetch_round. fold (round_batch k s0). rewrite Hbatch.
    unfold s0 at 1 2. cbn [calls_allowed call_start].
    unfold bind at 1. rewrite rate_limit_first.
    cbn [tx_dir utxo_dir ticks trace].
    unfold bind at 1, emit_all. cbn [tx_dir utxo_dir ticks trace].
    unfold s0. cbn [page done transactions num_calls].
    rewrite Hcol. fold w2. unfold bind. rewrite Hflush. reflexivity. }
  exists w2.
  assert (Hrun : cache_transactions env pool_id k w = (Ok n, w2)).
  { unfold cache_transactions.
    unfold bind at 1, load_transaction_cache. rewrite Hcache.
    unfold bind at 1. rewrite Hres. cbn beta iota.
    unfold bind at 1, ThreadPoolExecutor.
    replace (at_least_one_call b <=? 0) with false
      by (symmetry; apply Z.leb_gt; lia).
    unfold ret at 1. fold s0.
    destruct (Z.to_nat k) as [|fuel] eqn:Ek; [lia|].
    cbn [fetch_loop]. unfold s0 at 1 2. cbn [done num_calls]. fold s0.
    replace (0 <? k) with true by (symmetry; apply Z.ltb_lt; lia).
    cbn [negb andb].
    unfold bind at 1. unfold bind at 1. rewrite Hround.
    rewrite fetch_loop_done by reflexivity.
    cbn [transactions num_calls].
    unfold bind.
    rewrite (flush_rest_covered rest w2 Hs Hc' Ho' Hy').
    unfold ret. replace (0 + n) with n by lia. reflexivity. }
  split; [exact Hrun|]. split; [reflexivity|].
  split; [exact Hcache|]. split; [reflexivity|]. split.
  - unfold w2. cbn [trace]. rewrite calls_app, calls_requests.
    rewrite page_range_length by lia. lia.
  - split; [exact Hn|]. split.
    + rewrite Hpage. lia.
    + intros q Hq. unfold paged.
      rewrite skipn_all2; [apply firstn_nil|]. unfold resume in Hq. lia.
Qed.

Definition coveredb (d : dir PoolTransactionReference)
    (r : PoolTransactionReference) : bool :=
  match read_feather (cache_name (time r)) d with
  | Some f =>
      match last_time time f with
      | Some t => time r <=? t
      | None => false
      end
  | None => false
  end.

Lemma coveredb_covered d l :
  forallb (coveredb d) l = true -> Forall (covered d) l.
Proof.
  intros H. apply Forall_forall. intros r Hr.
  rewrite forallb_forall in H. specialize (H r Hr).
  unfold coveredb in H. unfold covered.
  destruct (read_feather (cache_name (time r)) d) as [f|] eqn:Ef;
    [|discriminate].
  destruct (last_time time f) as [t|] eqn:Et; [|discriminate].
  exists f, t. apply Z.leb_le in H. repeat split; assumption.
Qed.

Definition month_names_yearb (l : list PoolTransactionReference) : bool :=
  forallb (fun a =>
    forallb (fun b =>
      implb (month_of (time a) =? month_of (time b))
            (year_of (time a) =? year_of (time b))) l) l.

Lemma month_names_yearb_ok l :
  month_names_yearb l = true -> month_names_year l.
Proof.
  intros H a b Ha Hb Hm. unfold month_names_yearb in H.
  rewrite forallb_forall in H. specialize (H a Ha).
  rewrite forallb_forall in H. specialize (H b Hb).
  apply Z.eqb_eq in Hm. rewrite Hm in H. apply Z.eqb_eq. exact H.
Qed.

Module Rerun.

(** The world the first run of the sample leaves on four cores. *)
Definition cached_world : world :=
  snd (cache_transactions (Sample.env 4) "pool1" 10 Sample.empty_world).

(** The second run takes place a year later, on the same machine. *)
Definition late_clock (n : nat) : Q :=
  inject_Z (timestamp 2024 6 1 + Z.of_nat n).

Definition env : Env :=
  mkEnv 4 late_clock (paged Sample.references) (get_utxo (Sample.env 4)).

Definition estimated_world : world :=
  snd (resume_estimate env (Some Sample.references) cached_world).

Definition last_page : list PoolTransactionReference :=
  paged Sample.references "pool1" 3.

End Rerun.

Lemma rerun_sample_ok :
  get_transaction_cache (tx_dir Rerun.cached_world) = Some Sample.references
  /\ Forall (covered (tx_dir Rerun.cached_world)) Rerun.last_page
  /\ time_ordered time Rerun.last_page
  /\ month_names_year Rerun.last_page
  /\ resume_estimate Rerun.env (Some Sample.references) Rerun.cached_world
     = (Ok (3, 4), Rerun.estimated_world).
Proof.
  split; [vm_compute; reflexivity|]. split; [|split; [|split]].
  - apply coveredb_covered. vm_compute. reflexivity.
  - apply ascending_ordered. vm_compute. reflexivity.
  - apply month_names_yearb_ok. vm_compute. reflexivity.
  - vm_compute. reflexivity.
Defined.

Lemma second_run_one_batch_witness :
  exists w',
    cache_transactions Rerun.env "pool1" 10 Rerun.cached_world = (Ok 4, w')
    /\ tx_dir w' = tx_dir Rerun.cached_world
    /\ get_transaction_cache (tx_dir w') = Some Sample.references.
Proof.
  destruct rerun_sample_ok as (Hcache & Hcov & Hord & Hyear & Hres).
  destruct (second_run_one_batch Rerun.env "pool1" Sample.references
              10 Rerun.cached_world 3 4 Rerun.estimated_world
              eq_refl Hcache Hcov Hord Hyear ltac:(lia) Hres
              ltac:(cbn; lia))
    as (w' & Hrun & Hdir & Hsame & _).
  exists w'. split; [exact Hrun|]. split; [exact Hdir | exact Hsame].
Defined.

(** The claim as stated, no call beyond a single short or empty page,
    fails on four cores a year later: the second run asks for pages 3, 4,
    5 and 6, and changes nothing. *)
Lemma second_run_four_calls :
  let run := cache_transactions Rerun.env "pool1" 10 Rerun.cached_world in
  fst run = Ok 4
  /\ trace (snd run)
     = trace Rerun.cached_world
       ++ [Request 3; Request 4; Request 5; Request 6]
  /\ calls (trace (snd run)) - calls (trace Rerun.cached_world) = 4
  /\ ~ calls (trace (snd run)) - calls (trace Rerun.cached_world) = 1.
Proof.
  vm_compute. split; [reflexivity|]. split; [reflexivity|].
  split; [reflexivity | discriminate].
Qed.

(** The detail flow on the sample: with a budget of 10 it fetches the
    UTXOs of the first 10 references, two rows each, in batches of 4, 4
    and 2. *)
Example detail_flow_sample :
  let run := cache_utxos (Sample.env 4) "pool1" 10 Rerun.cached_world in
  fst run = Ok 10
  /\ map (fun f => (fst f, len (snd f))) (utxo_dir (snd run))
     = [(202301, 20)]
  /\ calls (trace (snd run)) - calls (trace Rerun.cached_world) = 10.
Proof. vm_compute. repeat split; reflexivity. Qed.

(* ===================================================================== *)
(** * Further properties of the code                                      *)
(* ===================================================================== *)

(* ===================================================================== *)
(** ** The flush: what it takes, what it keeps                            *)
(* ===================================================================== *)

Lemma last_of_app {A} (l1 l2 : list A) d :
  l2 <> [] -> last (l1 ++ l2) d = last l2 d.
Proof.
  intros H. induction l1 as [|a l1 IH]; [reflexivity|].
  cbn [app]. destruct (l1 ++ l2) as [|b l] eqn:E.
  - destruct l1; [cbn in E; congruence | discriminate].
  - change (last (a :: b :: l) d) with (last (b :: l) d). exact IH.
Qed.

Section MergeFacts.

Context {R : Type}.
Variable rtime : R -> Z.

Lemma last_time_none (df : list R) : last_time rtime df = None <-> df = [].
Proof. destruct df; split; intros H; try reflexivity; discriminate. Qed.

Lemma last_time_app (old kept : list R) x :
  last_time rtime (old ++ x :: kept)
  = Some (rtime (last (x :: kept) x)).
Proof.
  unfold last_time. destruct (old ++ x :: kept) as [|y l] eqn:E.
  - destruct old; discriminate.
  - f_equal. f_equal. rewrite <- E.
    rewrite (last_default (old ++ x :: kept) y x)
      by (destruct old; discriminate).
    apply last_of_app. discriminate.
Qed.

(** The three ways a merge ends. *)
Lemma merge_partition_cases df name (d : dir R) :
  (read_feather name d = None
   /\ merge_partition rtime df name d = Ok (to_feather name df d))
  \/ (read_feather name d = Some []
      /\ merge_partition rtime df name d = Raised IndexError)
  \/ (exists old t,
        read_feather name d = Some old
        /\ last_time rtime old = Some t
        /\ let kept := filter (fun r => t <? rtime r) df in
           merge_partition rtime df name d
           = Ok (if 0 <? len kept
                 then to_feather name (old ++ kept) d else d)).
Proof.
  unfold merge_partition.
  destruct (read_feather name d) as [old|]; [|left; split; reflexivity].
  right. destruct old as [|x old]; [left; split; reflexivity|].
  right. exists (x :: old), (rtime (last (x :: old) x)).
  split; [reflexivity|]. split; [reflexivity|]. cbn zeta.
  cbn [last_time]. destruct (0 <? _); reflexivity.
Qed.

Lemma time_ordered_filter (f : R -> bool) l :
  time_ordered rtime l -> time_ordered rtime (filter f l).
Proof.
  induction l as [|a l IH]; intros H; [exact I|].
  destruct H as [Ha H]. cbn [filter]. destruct (f a).
  - split; [|apply IH, H].
    apply Forall_forall. intros b Hb. apply filter_In in Hb.
    rewrite Forall_forall in Ha. apply Ha, Hb.
  - apply IH, H.
Qed.

(** A merge only appends: what a file held stays, in place, at its
    head. *)
Lemma merge_partition_appends df name (d d' : dir R) :
  merge_partition rtime df name d = Ok d' ->
  forall k old, read_feather k d = Some old ->
    exists extra,
      read_feather k d' = Some (old ++ extra)
      /\ incl extra df
      /\ forall t, last_time rtime old = Some t ->
                   Forall (fun r => t < rtime r) extra.
Proof.
  intros Hm k old Hk.
  destruct (Z.eq_dec k name) as [->|Hne].
  - destruct (merge_partition_cases df name d)
      as [[Hn _]|[[He Hr]|(old' & t & Ho & Ht & Hr)]];
      [congruence | congruence |].
    cbn zeta in Hr. rewrite Hm in Hr. rewrite Hk in Ho.
    injection Ho as <-. injection Hr as ->.
    destruct (0 <? len (filter (fun r => t <? rtime r) df)) eqn:E.
    + exists (filter (fun r => t <? rtime r) df).
      rewrite read_to_feather_same. split; [reflexivity|]. split.
      * intros x Hx. apply filter_In in Hx. tauto.
      * intros t' Ht'. rewrite Ht in Ht'. injection Ht' as <-.
        apply Forall_forall. intros x Hx. apply filter_In in Hx.
        apply Z.ltb_lt. tauto.
    + exists []. rewrite app_nil_r. split; [exact Hk|].
      split; [intros x []|]. intros; constructor.
  - exists []. rewrite app_nil_r.
    rewrite (merge_partition_other rtime df name d d' k Hm Hne).
    split; [exact Hk|]. split; [intros x []|]. intros; constructor.
Qed.

(** A merge of time-ordered rows into time-ordered files leaves every
    file time-ordered. *)
Lemma merge_partition_ordered df name (d d' : dir R) :
  merge_partition rtime df name d = Ok d' ->
  time_ordered rtime df ->
  (forall k f, read_feather k d = Some f -> time_ordered rtime f) ->
  forall k f, read_feather k d' = Some f -> time_ordered rtime f.
Proof.
  intros Hm Hdf Hd k f Hk.
  destruct (Z.eq_dec k name) as [->|Hne].
  2:{ rewrite (merge_partition_other rtime df name d d' k Hm Hne) in Hk.
      eapply Hd, Hk. }
  destruct (merge_partition_cases df name d)
    as [[Hn Hr]|[[He Hr]|(old & t & Ho & Ht & Hr)]].
  - rewrite Hm in Hr. injection Hr as ->.
    rewrite read_to_feather_same in Hk. injection Hk as <-. exact Hdf.
  - congruence.
  - cbn zeta in Hr. rewrite Hm in Hr. injection Hr as ->.
    destruct (0 <? len (filter (fun r => t <? rtime r) df)).
    2:{ rewrite Ho in Hk. injection Hk as <-. eapply Hd, Ho. }
    rewrite read_to_feather_same in Hk. injection Hk as <-.
    apply time_ordered_app. split; [eapply Hd, Ho|].
    split; [apply time_ordered_filter, Hdf|].
    intros a b Ha Hb. apply filter_In in Hb. destruct Hb as [_ Hb].
    apply Z.ltb_lt in Hb.
    destruct old as [|x old]; [destruct Ha|].
    change (Some (rtime (last (x :: old) x)) = Some t) in Ht.
    injection Ht as Ht.
    change (rtime (last (x :: old) x) = t) in Ht.
    pose proof (time_ordered_last rtime (x :: old) a x (Hd _ _ Ho) Ha).
    lia.
Qed.

(** Merging the same time-ordered rows again changes nothing. *)
Lemma merge_partition_again df name (d d' : dir R) :
  df <> [] -> time_ordered rtime df ->
  merge_partition rtime df name d = Ok d' ->
  merge_partition rtime df name d' = Ok d'.
Proof.
  intros Hne Hdf Hm.
  assert (Hall : forall x, In x df ->
            forall y, rtime y = rtime (last df y) -> rtime x <= rtime y).
  { intros x Hx y Hy. rewrite Hy. apply time_ordered_last; assumption. }
  assert (Hnone : forall t, (forall x, In x df -> rtime x <= t) ->
            filter (fun r => t <? rtime r) df = []).
  { intros t Ht. apply filter_none. apply Forall_forall. intros x Hx.
    apply Z.ltb_ge. apply Ht, Hx. }
  destruct (merge_partition_cases df name d)
    as [[Hn Hr]|[[He Hr]|(old & t & Ho & Ht & Hr)]].
  - rewrite Hm in Hr. injection Hr as ->.
    unfold merge_partition at 1. rewrite read_to_feather_same.
    destruct df as [|x df]; [congruence|]. cbn [last_time].
    rewrite Hnone; [reflexivity|].
    intros y Hy. apply time_ordered_last; assumption.
  - congruence.
  - cbn zeta in Hr. rewrite Hm in Hr. injection Hr as ->.
    set (kept := filter (fun r => t <? rtime r) df) in *.
    destruct (0 <? len kept) eqn:E; [|exact Hm].
    destruct kept as [|x kept'] eqn:Ek; [discriminate|].
    unfold merge_partition at 1. rewrite read_to_feather_same.
    rewrite last_time_app.
    assert (Hkord : time_ordered rtime (x :: kept')).
    { rewrite <- Ek. apply time_ordered_filter, Hdf. }
    assert (Hlast : In (last (x :: kept') x) (x :: kept'))
      by (apply last_In; discriminate).
    rewrite Hnone; [reflexivity|].
    intros y Hy.
    destruct (t <? rtime y) eqn:Ey.
    + apply (time_ordered_last rtime (x :: kept') y x Hkord).
      rewrite <- Ek. apply filter_In. split; assumption.
    + apply Z.ltb_ge in Ey.
      rewrite <- Ek in Hlast. apply filter_In in Hlast.
      destruct Hlast as [_ Hl]. apply Z.ltb_lt in Hl.
      rewrite Ek in Hl. lia.
Qed.

End MergeFacts.

(** On a non-empty buffer the split takes at least one record. *)
Lemma split_index_nonempty {A} (t_of : A -> Z) a l :
  exists i,
    split_index t_of (a :: l) = Ok i
    /\ (0 < i <= List.length (a :: l))%nat.
Proof.
  destruct (spans_months t_of (a :: l)) eqn:Hs.
  - destruct (split_index_spans t_of _ Hs) as (i & Hi & _ & Hlt).
    exists i. split; [exact Hi | lia].
  - exists (List.length (a :: l)).
    split; [apply split_index_whole; [discriminate | exact Hs]|].
    cbn [length]. lia.
Qed.

Lemma _cache_transactions_ok txs d d' rest :
  _cache_transactions txs d = Ok (d', rest) ->
  exists first tl i,
    txs = first :: tl
    /\ (0 < i <= List.length txs)%nat
    /\ rest = skipn i txs
    /\ merge_partition time (firstn i txs) (cache_name (time first)) d
       = Ok d'.
Proof.
  destruct txs as [|first tl]; [discriminate|].
  destruct (split_index_nonempty time first tl) as (i & Hi & Hb).
  unfold _cache_transactions. rewrite Hi.
  destruct (merge_partition _ _ _ _) as [d1|e] eqn:Em; [|discriminate].
  intros [= <- <-]. exists first, tl, i. auto.
Qed.

Lemma _cache_utxos_ok utxos d d' rest :
  _cache_utxos utxos d = Ok (d', rest) ->
  exists first tl i,
    utxos = first :: tl
    /\ (0 < i <= List.length utxos)%nat
    /\ rest = skipn i utxos
    /\ merge_partition row_time (add_time (firstn i utxos))
         (cache_name (fst first)) d
       = Ok d'.
Proof.
  destruct utxos as [|first tl]; [discriminate|].
  destruct (split_index_nonempty fst first tl) as (i & Hi & Hb).
  unfold _cache_utxos. rewrite Hi.
  destruct (merge_partition _ _ _ _) as [d1|e] eqn:Em; [|discriminate].
  intros [= <- <-]. exists first, tl, i. auto.
Qed.

Lemma in_add_time r utxos :
  In r (add_time utxos) ->
  exists tdf, In tdf utxos /\ In (row r) (snd tdf) /\ row_time r = fst tdf.
Proof.
  unfold add_time. intros H. apply in_concat in H.
  destruct H as (rows & Hrows & Hr). apply in_map_iff in Hrows.
  destruct Hrows as (tdf & <- & Htdf). apply in_map_iff in Hr.
  destruct Hr as (u & <- & Hu). exists tdf. auto.
Qed.

Lemma add_time_ordered utxos :
  time_ordered fst utxos -> time_ordered row_time (add_time utxos).
Proof.
  induction utxos as [|[t df] utxos IH]; intros H; [exact I|].
  destruct H as [Ht H].
  change (add_time ((t, df) :: utxos))
    with (map (fun u => mkRow u t) df ++ add_time utxos).
  apply time_ordered_app. split; [|split; [apply IH, H|]].
  - clear. induction df as [|u df IH]; [exact I|]. split; [|exact IH].
    apply Forall_forall. intros r Hr. apply in_map_iff in Hr.
    destruct Hr as (u' & <- & _). cbn. lia.
  - intros a b Ha Hb. apply in_map_iff in Ha. destruct Ha as (u & <- & _).
    apply in_add_time in Hb. destruct Hb as (tdf & Hin & _ & ->).
    rewrite Forall_forall in Ht. apply (Ht tdf Hin).
Qed.

(** X1. A successful flush only appends: every partition that existed
    still exists and still starts with the rows it had; what is added to
    it comes from the flushed buffer and is strictly newer than its old
    last row. *)
Theorem flush_only_appends txs d d' rest k old :
  _cache_transactions txs d = Ok (d', rest) ->
  read_feather k d = Some old ->
  exists extra,
    read_feather k d' = Some (old ++ extra)
    /\ incl extra txs
    /\ forall t, last_time time old = Some t ->
                 Forall (fun r => t < time r) extra.
Proof.
  intros Hrun Hk.
  destruct (_cache_transactions_ok _ _ _ _ Hrun)
    as (first & tl & i & -> & Hi & -> & Hm).
  destruct (merge_partition_appends time _ _ _ _ Hm k old Hk)
    as (extra & H1 & H2 & H3).
  exists extra. split; [exact H1|]. split; [|exact H3].
  intros x Hx. apply (in_prefix i). apply H2, Hx.
Qed.

Lemma flush_only_appends_witness :
  exists extra,
    read_feather 202301 [(202301, Rewrite.merged)]
    = Some (Rewrite.old ++ extra)
    /\ incl extra Rewrite.incoming
    /\ forall t, last_time time Rewrite.old = Some t ->
                 Forall (fun r => t < time r) extra.
Proof.
  apply (flush_only_appends Rewrite.incoming Rewrite.d
           [(202301, Rewrite.merged)] [] 202301 Rewrite.old);
    reflexivity.
Defined.

(** X2. The UTXO flush only appends too: an existing partition keeps its
    rows at its head, and the rows added are rows of the flushed frames,
    stamped with a time strictly after the old last row. *)
Theorem utxo_flush_only_appends utxos d d' rest k old :
  _cache_utxos utxos d = Ok (d', rest) ->
  read_feather k d = Some old ->
  exists extra,
    read_feather k d' = Some (old ++ extra)
    /\ incl extra (add_time utxos)
    /\ forall t, last_time row_time old = Some t ->
                 Forall (fun r => t < row_time r) extra.
Proof.
  intros Hrun Hk.
  destruct (_cache_utxos_ok _ _ _ _ Hrun)
    as (first & tl & i & -> & Hi & -> & Hm).
  destruct (merge_partition_appends row_time _ _ _ _ Hm k old Hk)
    as (extra & H1 & H2 & H3).
  exists extra. split; [exact H1|]. split; [|exact H3].
  intros x Hx. apply H2 in Hx. apply in_add_time in Hx.
  destruct Hx as (tdf & Hin & Hrow & Ht).
  unfold add_time. apply in_concat.
  exists (map (fun u => mkRow u (fst tdf)) (snd tdf)). split.
  - apply in_map_iff. exists tdf. split; [reflexivity|].
    apply (in_prefix i). exact Hin.
  - apply in_map_iff. exists (row x). split; [|exact Hrow].
    destruct x as [u t]. cbn in *. congruence.
Qed.

Module UtxoSample.

Definition old_rows : list UtxoRow :=
  [mkRow (mkUtxo input "addr_in" "a") (timestamp 2023 1 10)].

Definition d : dir UtxoRow := [(202301, old_rows)].

(** The frames of two transactions of January 2023. *)
Definition fetched : list (Z * list Utxo) :=
  [(timestamp 2023 1 10, [mkUtxo input "addr_in" "a"]);
   (timestamp 2023 1 20,
    [mkUtxo input "addr_in" "b"; mkUtxo output "addr_out" "b"])].

Definition merged : list UtxoRow :=
  old_rows
  ++ [mkRow (mkUtxo input "addr_in" "b") (timestamp 2023 1 20);
      mkRow (mkUtxo output "addr_out" "b") (timestamp 2023 1 20)].

End UtxoSample.

Lemma utxo_flush_only_appends_witness :
  exists extra,
    read_feather 202301 [(202301, UtxoSample.merged)]
    = Some (UtxoSample.old_rows ++ extra)
    /\ incl extra (add_time UtxoSample.fetched)
    /\ forall t, last_time row_time UtxoSample.old_rows = Some t ->
                 Forall (fun r => t < row_time r) extra.
Proof.
  apply (utxo_flush_only_appends UtxoSample.fetched UtxoSample.d
           [(202301, UtxoSample.merged)] [] 202301 UtxoSample.old_rows);
    reflexivity.
Defined.

(** X3. Time order is kept: flushing a time-ordered buffer into a
    directory whose partitions are time-ordered leaves every partition
    time-ordered. *)
Theorem flush_keeps_partitions_ordered txs d d' rest :
  _cache_transactions txs d = Ok (d', rest) ->
  time_ordered time txs ->
  (forall k f, read_feather k d = Some f -> time_ordered time f) ->
  forall k f, read_feather k d' = Some f -> time_ordered time f.
Proof.
  intros Hrun Ho Hd.
  destruct (_cache_transactions_ok _ _ _ _ Hrun)
    as (first & tl & i & -> & Hi & -> & Hm).
  apply (merge_partition_ordered time _ _ _ _ Hm);
    [apply time_ordered_firstn, Ho | exact Hd].
Qed.

Lemma flush_keeps_partitions_ordered_witness :
  _cache_transactions Rewrite.incoming Rewrite.d
  = Ok ([(202301, Rewrite.merged)], [])
  /\ time_ordered time Rewrite.merged.
Proof.
  split; [reflexivity|].
  apply (flush_keeps_partitions_ordered Rewrite.incoming Rewrite.d
           [(202301, Rewrite.merged)] [])
    with (k := 202301).
  - reflexivity.
  - apply ascending_ordered. reflexivity.
  - intros k f H. unfold Rewrite.d in H. cbn [read_feather] in H.
    destruct (202301 =? k); [|discriminate H].
    injection H as <-. apply ascending_ordered. reflexivity.
  - reflexivity.
Defined.

(** X4. Flushing the same time-ordered buffer a second time changes
    nothing: the rows written the first time are all at or before the new
    last row, so none is appended again. *)
Theorem flush_twice_is_once txs d d' rest :
  time_ordered time txs ->
  _cache_transactions txs d = Ok (d', rest) ->
  _cache_transactions txs d' = Ok (d', rest).
Proof.
  intros Ho Hrun.
  destruct txs as [|first tl]; [discriminate|].
  destruct (split_index_nonempty time first tl) as (j & Hj & Hb).
  revert Hrun. unfold _cache_transactions. rewrite Hj.
  destruct (merge_partition time (firstn j (first :: tl)) _ d)
    as [d1|e] eqn:E; [|discriminate].
  intros [= <- <-].
  assert (Hne : firstn j (first :: tl) <> [])
    by (destruct j; [lia | discriminate]).
  rewrite (merge_partition_again time _ _ d d1 Hne
             (time_ordered_firstn time j _ Ho) E).
  reflexivity.
Qed.

Lemma flush_twice_is_once_witness :
  time_ordered time Rewrite.incoming
  /\ _cache_transactions Rewrite.incoming [(202301, Rewrite.merged)]
     = Ok ([(202301, Rewrite.merged)], []).
Proof.
  assert (Ho : time_ordered time Rewrite.incoming)
    by (apply ascending_ordered; reflexivity).
  split; [exact Ho|].
  apply (flush_twice_is_once Rewrite.incoming Rewrite.d
           [(202301, Rewrite.merged)] [] Ho).
  reflexivity.
Defined.

(** X5. What a flush takes. An empty buffer raises [IndexError]. From a
    non-empty buffer of references pandas and arrow hold ([storable]) the
    flush takes a non-empty leading run and returns
    the rest, unless the partition named by the first record exists and
    is empty, the only case in which it raises. When the ends of the
    buffer have one month number it takes everything; otherwise it takes
    the records up to the first change of month number. When the
    partition did not exist it holds exactly the records taken. *)
Theorem flush_takes_leading_records first tl d :
  Forall storable (first :: tl) ->
  let txs := first :: tl in
  let name := cache_name (time first) in
  _cache_transactions [] d = Raised IndexError
  /\ ((read_feather name d = Some []
       /\ _cache_transactions txs d = Raised IndexError)
      \/ exists i d',
           (0 < i <= List.length txs)%nat
           /\ _cache_transactions txs d = Ok (d', skipn i txs)
           /\ (read_feather name d = None ->
               read_feather name d' = Some (firstn i txs))
           /\ (spans_months time txs = false -> i = List.length txs)
           /\ (spans_months time txs = true ->
               Forall (fun r => month_of (time r) = month_of (time first))
                 (firstn i txs)
               /\ exists b rest,
                    skipn i txs = b :: rest
                    /\ month_of (time b) <> month_of (time first))).
Proof.
  intros _ txs name. split; [reflexivity|].
  assert (Hidx : exists i,
             split_index time txs = Ok i
             /\ (0 < i <= List.length txs)%nat
             /\ (spans_months time txs = false -> i = List.length txs)
             /\ (spans_months time txs = true ->
                 Forall (fun r => month_of (time r) = month_of (time first))
                   (firstn i txs)
                 /\ exists b rest,
                      skipn i txs = b :: rest
                      /\ month_of (time b) <> month_of (time first))).
  { destruct (spans_months time txs) eqn:Hs.
    - destruct (split_index_spans time _ Hs) as (i & Hi & Hb & Hlt).
      destruct (month_break_split time _ _ _ _ Hb)
        as (n & b & rest & -> & Hall & Hskip & Hne).
      exists (0 + S n)%nat. split; [exact Hi|]. split; [lia|].
      split; [discriminate|]. intros _. split; [exact Hall|].
      exists b, rest. split; assumption.
    - exists (List.length txs).
      split; [apply split_index_whole; [discriminate | exact Hs]|].
      split; [unfold txs; cbn [length]; lia|].
      split; [reflexivity | discriminate]. }
  destruct Hidx as (i & Hi & Hb & Hwhole & Hspan).
  destruct (merge_partition_cases time (firstn i txs) name d)
    as [[Hn Hr]|[[He Hr]|(old & t & Ho & Ht & Hr)]].
  - right. exists i, (to_feather name (firstn i txs) d).
    split; [exact Hb|]. split.
    + unfold _cache_transactions. rewrite Hi. fold txs. unfold txs at 1.
      fold name. rewrite Hr. reflexivity.
    + split; [intros _; apply read_to_feather_same|]. split; assumption.
  - left. split; [exact He|].
    unfold _cache_transactions. rewrite Hi. fold txs. unfold txs at 1.
    fold name. rewrite Hr. reflexivity.
  - right. cbn zeta in Hr. eexists i, _.
    split; [exact Hb|]. split.
    + unfold _cache_transactions. rewrite Hi. fold txs. unfold txs at 1.
      fold name. rewrite Hr. reflexivity.
    + split; [intros Hnone; congruence|]. split; assumption.
Qed.

Module TwoMonths.

(** A reference of February 2023 and one of March 2023. *)
Definition buffer : list PoolTransactionReference :=
  [mkTx "c" 0 3 (timestamp 2023 2 5); mkTx "d" 0 4 (timestamp 2023 3 5)].

End TwoMonths.

Lemma flush_takes_leading_records_witness :
  Forall storable TwoMonths.buffer
  /\ exists i d',
       (0 < i <= 2)%nat
       /\ _cache_transactions TwoMonths.buffer Rewrite.d
          = Ok (d', skipn i TwoMonths.buffer)
       /\ (read_feather 202302 Rewrite.d = None ->
           read_feather 202302 d' = Some (firstn i TwoMonths.buffer)).
Proof.
  assert (Hs : Forall storable TwoMonths.buffer)
    by (apply storable_all; vm_compute; reflexivity).
  split; [exact Hs|].
  destruct (flush_takes_leading_records
              (mkTx "c" 0 3 (timestamp 2023 2 5))
              [mkTx "d" 0 4 (timestamp 2023 3 5)] Rewrite.d Hs)
    as [_ [[Hempty _]|(i & d' & Hi & Hrun & Hnew & _)]];
    [discriminate Hempty|].
  exists i, d'. split; [exact Hi|]. split; [exact Hrun | exact Hnew].
Defined.

(** X6. The UTXO flush takes frames the same way: an empty buffer raises
    [IndexError]; from a non-empty buffer it takes a non-empty leading run
    of frames and returns the rest, unless the partition named by the
    first frame's time exists and is empty; a partition that did not exist
    holds exactly the rows of the frames taken, each stamped with the time
    of its transaction. *)
Theorem utxo_flush_takes_leading_frames first tl d :
  let utxos := first :: tl in
  let name := cache_name (fst first) in
  _cache_utxos [] d = Raised IndexError
  /\ ((read_feather name d = Some []
       /\ _cache_utxos utxos d = Raised IndexError)
      \/ exists i d',
           (0 < i <= List.length utxos)%nat
           /\ _cache_utxos utxos d = Ok (d', skipn i utxos)
           /\ (read_feather name d = None ->
               read_feather name d' = Some (add_time (firstn i utxos)))
           /\ (spans_months fst utxos = false -> i = List.length utxos)
           /\ Forall (fun r => exists tdf,
                        In tdf (firstn i utxos)
                        /\ In (row r) (snd tdf) /\ row_time r = fst tdf)
                (add_time (firstn i utxos))).
Proof.
  intros utxos name. split; [reflexivity|].
  assert (Hidx : exists i,
             split_index fst utxos = Ok i
             /\ (0 < i <= List.length utxos)%nat
             /\ (spans_months fst utxos = false -> i = List.length utxos)).
  { destruct (spans_months fst utxos) eqn:Hs.
    - destruct (split_index_spans fst _ Hs) as (i & Hi & Hb & Hlt).
      exists i. split; [exact Hi|]. split; [lia | discriminate].
    - exists (List.length utxos).
      split; [apply split_index_whole; [discriminate | exact Hs]|].
      split; [unfold utxos; cbn [length]; lia | reflexivity]. }
  destruct Hidx as (i & Hi & Hb & Hwhole).
  assert (Hrows : Forall (fun r => exists tdf,
                     In tdf (firstn i utxos)
                     /\ In (row r) (snd tdf) /\ row_time r = fst tdf)
                    (add_time (firstn i utxos))).
  { apply Forall_forall. intros r Hr. apply in_add_time, Hr. }
  destruct (merge_partition_cases row_time (add_time (firstn i utxos))
              name d)
    as [[Hn Hr]|[[He Hr]|(old & t & Ho & Ht & Hr)]].
  - right. exists i, (to_feather name (add_time (firstn i utxos)) d).
    split; [exact Hb|]. split.
    + unfold _cache_utxos. rewrite Hi. fold utxos. unfold utxos at 1.
      fold name. rewrite Hr. reflexivity.
    + split; [intros _; apply read_to_feather_same|]. split; assumption.
  - left. split; [exact He|].
    unfold _cache_utxos. rewrite Hi. fold utxos. unfold utxos at 1.
    fold name. rewrite Hr. reflexivity.
  - right. cbn zeta in Hr. eexists i, _.
    split; [exact Hb|]. split.
    + unfold _cache_utxos. rewrite Hi. fold utxos. unfold utxos at 1.
      fold name. rewrite Hr. reflexivity.
    + split; [intros Hnone; congruence|]. split; assumption.
Qed.

(* ===================================================================== *)
(** ** What a run leaves alone                                            *)
(* ===================================================================== *)

(** [keeps proj m]: whatever the outcome, [m] leaves the part [proj] of
    the world as it found it. *)
Definition keeps {X A} (proj : world -> X) (m : M A) : Prop :=
  forall w, proj (snd (m w)) = proj w.

Lemma keeps_ret {X A} (proj : world -> X) (a : A) : keeps proj (ret a).
Proof. intros w. reflexivity. Qed.

Lemma keeps_raise {X A} (proj : world -> X) e : keeps proj (@raise A e).
Proof. intros w. reflexivity. Qed.

Lemma keeps_bind {X A B} (proj : world -> X) (m : M A) (f : A -> M B) :
  keeps proj m -> (forall a, keeps proj (f a)) -> keeps proj (bind m f).
Proof.
  intros Hm Hf w. unfold bind. specialize (Hm w).
  destruct (m w) as [[a|e] w']; cbn [snd] in *.
  - rewrite Hf. exact Hm.
  - exact Hm.
Qed.

Lemma keeps_lift_result {X A} (proj : world -> X) (r : result A) :
  keeps proj (lift_result r).
Proof. destruct r; intros w; reflexivity. Qed.

Lemma keeps_on_tx_dir {X A} (proj : world -> X) f :
  (forall d u t tr d', proj (mkWorld d u t tr) = proj (mkWorld d' u t tr)) ->
  keeps proj (@on_tx_dir A f).
Proof.
  intros H w. unfold on_tx_dir.
  destruct (f (tx_dir w)) as [[d a]|e]; [|reflexivity].
  cbn [snd]. destruct w. apply H.
Qed.

Lemma keeps_on_utxo_dir {X A} (proj : world -> X) f :
  (forall d u t tr u', proj (mkWorld d u t tr) = proj (mkWorld d u' t tr)) ->
  keeps proj (@on_utxo_dir A f).
Proof.
  intros H w. unfold on_utxo_dir.
  destruct (f (utxo_dir w)) as [[d a]|e]; [|reflexivity].
  cbn [snd]. destruct w. apply H.
Qed.

Lemma keeps_rate_limit {X} (proj : world -> X) env n ca cs :
  (forall d u t tr t' tr', proj (mkWorld d u t tr) = proj (mkWorld d u t' tr')) ->
  keeps proj (rate_limit env n ca cs).
Proof.
  intros H w. destruct (rate_limit_world env n ca cs w) as (r & t & tr & Hr).
  rewrite Hr. cbn [snd]. destruct w. apply H.
Qed.

Lemma keeps_resume_estimate {X} (proj : world -> X) env cache :
  (forall d u t tr t' tr', proj (mkWorld d u t tr) = proj (mkWorld d u t' tr')) ->
  keeps proj (resume_estimate env cache).
Proof.
  intros H w.
  destruct (resume_estimate_world env cache w) as (p & b & t & Hr & _).
  rewrite Hr. cbn [snd]. destruct w. apply H.
Qed.

Lemma keeps_emit_all {X} (proj : world -> X) evs :
  (forall d u t tr t' tr', proj (mkWorld d u t tr) = proj (mkWorld d u t' tr')) ->
  keeps proj (emit_all evs).
Proof. intros H w. unfold emit_all. cbn [snd]. destruct w. apply H. Qed.

Lemma keeps_flush_months {X} (proj : world -> X) :
  (forall d u t tr d', proj (mkWorld d u t tr) = proj (mkWorld d' u t tr)) ->
  forall fuel txs, keeps proj (flush_months fuel txs).
Proof.
  intros H. induction fuel as [|fuel IH]; intros txs; cbn [flush_months];
    (destruct (spans_months time txs); [|apply keeps_ret]).
  - apply keeps_raise.
  - apply keeps_bind; [apply keeps_on_tx_dir, H | exact IH].
Qed.

Lemma keeps_flush_utxo_months {X} (proj : world -> X) :
  (forall d u t tr u', proj (mkWorld d u t tr) = proj (mkWorld d u' t tr)) ->
  forall fuel txs, keeps proj (flush_utxo_months fuel txs).
Proof.
  intros H. induction fuel as [|fuel IH]; intros txs;
    cbn [flush_utxo_months];
    (destruct (spans_months fst txs); [|apply keeps_ret]).
  - apply keeps_raise.
  - apply keeps_bind; [apply keeps_on_utxo_dir, H | exact IH].
Qed.

Lemma fetch_round_keeps_utxo_dir env pool_id k s :
  keeps utxo_dir (fetch_round env pool_id k s).
Proof.
  unfold fetch_round.
  apply keeps_bind; [apply keeps_rate_limit; reflexivity|]. intros [ca cs].
  apply keeps_bind; [apply keeps_emit_all; reflexivity|]. intros _.
  destruct (collect _ (done s) (transactions s)) as [dn txs].
  apply keeps_bind; [apply keeps_flush_months; reflexivity|]. intros rest.
  apply keeps_ret.
Qed.

Lemma fetch_loop_keeps_utxo_dir env pool_id k :
  forall fuel s, keeps utxo_dir (fetch_loop fuel env pool_id k s).
Proof.
  induction fuel as [|fuel IH]; intros s; cbn [fetch_loop];
    (destruct (negb (done s) && (num_calls s <? k)); [|apply keeps_ret]).
  - apply keeps_raise.
  - apply keeps_bind; [apply fetch_round_keeps_utxo_dir | exact IH].
Qed.

Lemma utxo_round_keeps_tx_dir env cache last_index s bs :
  keeps tx_dir (utxo_round env cache last_index s bs).
Proof.
  unfold utxo_round.
  apply keeps_bind; [apply keeps_rate_limit; reflexivity|]. intros [ca cs].
  apply keeps_bind; [apply keeps_emit_all; reflexivity|]. intros _.
  apply keeps_bind; [apply keeps_flush_utxo_months; reflexivity|].
  intros rest. apply keeps_ret.
Qed.

Lemma utxo_loop_keeps_tx_dir env cache last_index :
  forall starts s, keeps tx_dir (utxo_loop env cache last_index starts s).
Proof.
  induction starts as [|bs starts IH]; intros s; cbn [utxo_loop].
  - apply keeps_ret.
  - apply keeps_bind; [apply utxo_round_keeps_tx_dir | exact IH].
Qed.

(** X7. The two flows write to separate directories: whatever its
    outcome, a run of [cache_transactions] leaves the UTXO directory as it
    was, and a run of [cache_utxos] leaves the reference directory as it
    was. *)
Theorem caches_are_separate env pool_id k w :
  utxo_dir (snd (cache_transactions env pool_id k w)) = utxo_dir w
  /\ tx_dir (snd (cache_utxos env pool_id k w)) = tx_dir w.
Proof.
  split.
  - revert w. change (keeps utxo_dir (cache_transactions env pool_id k)).
    unfold cache_transactions.
    apply keeps_bind; [intros w; reflexivity|]. intros cache.
    apply keeps_bind; [apply keeps_resume_estimate; reflexivity|].
    intros [pg cb].
    apply keeps_bind.
    { unfold ThreadPoolExecutor.
      destruct (_ <=? 0); [apply keeps_raise | apply keeps_ret]. }
    intros _.
    apply keeps_bind; [apply fetch_loop_keeps_utxo_dir|]. intros s.
    apply keeps_bind; [|intros; apply keeps_ret].
    unfold flush_rest. destruct (0 <? _); [|apply keeps_ret].
    apply keeps_bind; [apply keeps_on_tx_dir; reflexivity|].
    intros; apply keeps_ret.
  - revert w. change (keeps tx_dir (cache_utxos env pool_id k)).
    unfold cache_utxos.
    apply keeps_bind; [intros w; reflexivity|]. intros [cache|];
      [|apply keeps_ret].
    apply keeps_bind; [intros w; reflexivity|]. intros utxo_cache.
    apply keeps_bind; [apply keeps_lift_result|]. intros u.
    apply keeps_bind; [apply keeps_lift_result|]. intros starts.
    apply keeps_bind; [apply utxo_loop_keeps_tx_dir|]. intros s.
    apply keeps_bind; [|intros; apply keeps_ret].
    unfold flush_utxo_rest. destruct (0 <? _); [|apply keeps_ret].
    apply keeps_bind; [apply keeps_on_utxo_dir; reflexivity|].
    intros; apply keeps_ret.
Qed.

(* ===================================================================== *)
(** ** The remote calls of a run, in order                                *)
(* ===================================================================== *)

Definition is_request (ev : event) : bool :=
  match ev with
  | Request _ | RequestUtxo _ => true
  | Warning _ | Sleep _ => false
  end.

(** The remote calls of a trace, oldest first. *)
Definition requests (tr : list event) : list event := filter is_request tr.

Lemma requests_app tr1 tr2 :
  requests (tr1 ++ tr2) = requests tr1 ++ requests tr2.
Proof. apply filter_app. Qed.

Lemma requests_pages pages : requests (map Request pages) = map Request pages.
Proof.
  induction pages as [|p l IH]; [reflexivity|].
  cbn [map requests filter is_request]. f_equal. exact IH.
Qed.

Lemma requests_hashes {A} (f : A -> string) l :
  requests (map (fun r => RequestUtxo (f r)) l)
  = map (fun r => RequestUtxo (f r)) l.
Proof.
  induction l as [|p l IH]; [reflexivity|].
  cbn [map requests filter is_request]. f_equal. exact IH.
Qed.

Lemma rate_limit_requests env n ca cs w :
  requests (trace (snd (rate_limit env n ca cs w))) = requests (trace w).
Proof.
  unfold rate_limit, bind, now, emit, ret.
  cbn [tx_dir utxo_dir ticks trace].
  destruct cs as [t0|]; [|reflexivity].
  destruct (Qltb _ _); cbn [snd trace]; [|reflexivity].
  rewrite !requests_app. cbn. rewrite !app_nil_r. reflexivity.
Qed.

Lemma page_range_shift p (na : nat) : forall nb s,
    map (fun i => p + Z.of_nat i) (seq (s + na) nb)
    = map (fun i => p + Z.of_nat na + Z.of_nat i) (seq s nb).
Proof.
  induction nb as [|nb IH]; intros s; [reflexivity|].
  cbn [seq map]. f_equal; [lia | apply (IH (S s))].
Qed.

Lemma page_range_app start a b :
  0 <= a -> 0 <= b ->
  page_range start (a + b) = page_range start a ++ page_range (start + a) b.
Proof.
  intros Ha Hb. unfold page_range.
  rewrite Z2Nat.inj_add, seq_app, map_app by assumption. f_equal.
  pose proof (page_range_shift start (Z.to_nat a) (Z.to_nat b) 0) as H.
  rewrite Z2Nat.id in H by assumption. exact H.
Qed.

Lemma slice_app {A} (l : list A) a b c :
  0 <= a <= b -> b <= c ->
  slice l a c = slice l a b ++ slice l b c.
Proof.
  intros Hab Hbc. unfold slice.
  replace (Z.to_nat (c - a)) with (Z.to_nat (b - a) + Z.to_nat (c - b))%nat
    by lia.
  rewrite firstn_add, skipn_skipn. do 3 f_equal. lia.
Qed.

Lemma slice_from_start {A} (l : list A) n :
  slice l 0 n = firstn (Z.to_nat n) l.
Proof. unfold slice. rewrite Z.sub_0_r. reflexivity. Qed.

(** The calls of a round of the reference loop: the pages of its batch,
    in ascending order, whether or not the flush that follows raises. *)
Lemma fetch_round_requests env pool_id k s w :
  requests (trace (snd (fetch_round env pool_id k s w)))
  = requests (trace w)
    ++ map Request (page_range (page s) (round_batch k s)).
Proof.
  unfold fetch_round. fold (round_batch k s). unfold bind at 1.
  pose proof (rate_limit_requests env (round_batch k s) (calls_allowed s)
                (call_start s) w) as Hr.
  destruct (rate_limit_returns env (round_batch k s) (calls_allowed s)
              (call_start s) w) as ([ca cs] & w1 & H1).
  rewrite H1 in *. cbn [snd] in Hr. cbn beta iota.
  unfold bind at 1, emit_all.
  destruct (collect _ (done s) (transactions s)) as [dn txs].
  unfold bind.
  match goal with
  | |- context [flush_months ?f ?t ?w2] =>
      pose proof (flush_months_trace f t w2) as Hf;
      destruct (flush_months f t w2) as [[rest|e] w3]
  end; unfold ret; cbn beta iota; cbn [snd trace] in *;
    rewrite Hf, requests_app, requests_pages, Hr; reflexivity.
Qed.

(** The calls of a round of the detail loop: the hashes of its slice of
    the uncached references, in order. *)
Lemma utxo_round_requests env cache last_index s bs w :
  requests (trace (snd (utxo_round env cache last_index s bs w)))
  = requests (trace w)
    ++ map (fun r => RequestUtxo (tx_hash r))
         (slice cache bs (Z.min (bs + batch_size s) last_index)).
Proof.
  unfold utxo_round. unfold bind at 1.
  set (be := Z.min (bs + batch_size s) last_index).
  pose proof (rate_limit_requests env (be - bs) (u_calls_allowed s)
                (u_call_start s) w) as Hr.
  destruct (rate_limit_returns env (be - bs) (u_calls_allowed s)
              (u_call_start s) w) as ([ca cs] & w1 & H1).
  rewrite H1 in *. cbn [snd] in Hr. cbn beta iota.
  unfold bind at 1, emit_all. unfold bind.
  match goal with
  | |- context [flush_utxo_months ?f ?t ?w2] =>
      pose proof (flush_utxo_months_trace f t w2) as Hf;
      destruct (flush_utxo_months f t w2) as [[rest|e] w3]
  end; unfold ret; cbn beta iota; cbn [snd trace] in *;
    rewrite Hf, requests_app, requests_hashes, Hr; reflexivity.
Qed.

Lemma fetch_loop_requests env pool_id k : forall fuel s w,
    1 <= call_batch s ->
    k - num_calls s <= Z.of_nat fuel ->
    spec (fetch_loop fuel env pool_id k s) w
      (fun s' w' =>
         num_calls s <= num_calls s' <= Z.max k (num_calls s)
         /\ requests (trace w')
            = requests (trace w)
              ++ map Request
                   (page_range (page s) (num_calls s' - num_calls s)))
      (fun e w' =>
         exists j, 0 <= j <= k - num_calls s
           /\ requests (trace w')
              = requests (trace w) ++ map Request (page_range (page s) j)).
Proof.
  induction fuel as [|fuel IH]; intros s w Hb Hfuel.
  - cbn [fetch_loop].
    destruct (negb (done s) && (num_calls s <? k)) eqn:G.
    + apply andb_true_iff in G. destruct G as [_ G].
      apply Z.ltb_lt in G. lia.
    + apply spec_ret. split; [lia|].
      rewrite Z.sub_diag. cbn. rewrite app_nil_r. reflexivity.
  - cbn [fetch_loop].
    destruct (negb (done s) && (num_calls s <? k)) eqn:G.
    2:{ apply spec_ret. split; [lia|].
        rewrite Z.sub_diag. cbn. rewrite app_nil_r. reflexivity. }
    apply andb_true_iff in G. destruct G as [_ G]. apply Z.ltb_lt in G.
    pose proof (round_batch_bounds k s Hb G) as Hr.
    pose proof (fetch_round_calls env pool_id k s w Hb G) as Hc.
    pose proof (fetch_round_requests env pool_id k s w) as Hq.
    unfold spec in *. unfold bind.
    destruct (fetch_round env pool_id k s w) as [[s'|e] w']; cbn [snd] in Hq.
    + destruct Hc as (Hcb & Hnc & Hpg & _).
      specialize (IH s' w' ltac:(lia) ltac:(lia)).
      destruct (fetch_loop fuel env pool_id k s' w') as [[s''|e] w''].
      * destruct IH as [Hn Ht]. split; [lia|].
        rewrite Ht, Hq, <- app_assoc, <- map_app, Hpg.
        rewrite <- page_range_app by lia. do 3 f_equal. lia.
      * destruct IH as (j & Hj & Ht).
        exists (round_batch k s + j). split; [lia|].
        rewrite Ht, Hq, <- app_assoc, <- map_app, Hpg.
        rewrite <- page_range_app by lia. reflexivity.
    + exists (round_batch k s). split; [lia | exact Hq].
Qed.

(** The page a run starts from: the one after the full pages cached. *)
Definition resume_page (d : dir PoolTransactionReference) : Z :=
  match get_transaction_cache d with
  | Some cache => len cache / 100 + 1
  | None => 1
  end.

(** X8. The pages a run of [cache_transactions] asks for are consecutive:
    a run that returns [n] has requested pages [p, p + 1, ..., p + n - 1],
    in that order and each once, where [p] is the page after the full
    pages of the cache it found (1 without a cache); batches leave no gap
    and repeat no page. A run that raises has requested a leading part of
    that sequence, within the budget. *)
Theorem pages_requested_are_consecutive env pool_id k w :
  spec (cache_transactions env pool_id k) w
    (fun n w' =>
       0 <= n <= Z.max k 0
       /\ requests (trace w')
          = requests (trace w)
            ++ map Request (page_range (resume_page (tx_dir w)) n))
    (fun e w' =>
       exists j, 0 <= j <= Z.max k 0
         /\ requests (trace w')
            = requests (trace w)
              ++ map Request (page_range (resume_page (tx_dir w)) j)).
Proof.
  assert (Hnone : forall p, requests (trace w)
                  = requests (trace w) ++ map Request (page_range p 0)).
  { intros p. cbn. rewrite app_nil_r. reflexivity. }
  unfold spec, cache_transactions.
  unfold bind at 1, load_transaction_cache.
  destruct (resume_estimate_world env (get_transaction_cache (tx_dir w)) w)
    as (p & b & t & Hres & Hp & _).
  unfold bind at 1. rewrite Hres. cbn beta iota.
  set (w0 := mkWorld (tx_dir w) (utxo_dir w) t (trace w)).
  assert (Hpg : p = resume_page (tx_dir w)).
  { unfold resume_page.
    destruct (get_transaction_cache (tx_dir w)) as [c|] eqn:Ec.
    - apply (Hp c eq_refl).
    - revert Hres. unfold resume_estimate, bind, now, ret.
      intros [= <- _ _]. reflexivity. }
  unfold bind at 1, ThreadPoolExecutor.
  destruct (at_least_one_call b <=? 0) eqn:Ecb.
  { exists 0. split; [lia | apply Hnone]. }
  apply Z.leb_gt in Ecb. unfold ret at 1.
  set (s0 := mkFetch p (at_least_one_call b) 0 false [] 500%Q None).
  pose proof (fetch_loop_requests env pool_id k (Z.to_nat k) s0 w0
                ltac:(cbn; lia) ltac:(cbn; lia)) as Hl.
  unfold spec in Hl. unfold bind at 1.
  destruct (fetch_loop (Z.to_nat k) env pool_id k s0 w0) as [[s|e] w1].
  - destruct Hl as [Hn Ht]. cbn [num_calls page s0] in Hn, Ht.
    rewrite Z.sub_0_r, Hpg in Ht. unfold bind.
    pose proof (flush_rest_trace (transactions s) w1) as Hf.
    destruct (flush_rest (transactions s) w1) as [[[]|e] w2];
      cbn [snd] in Hf; unfold ret; cbn beta iota; rewrite Hf.
    + split; [lia | exact Ht].
    + exists (num_calls s). split; [lia | exact Ht].
  - destruct Hl as (j & Hj & Ht). cbn [num_calls page s0 trace w0] in Hj, Ht.
    exists j. split; [lia|]. rewrite Ht, Hpg. reflexivity.
Qed.

Lemma utxo_loop_requests env cache last_index c n :
  0 < c -> 0 <= last_index <= len cache ->
  (Z.of_nat n - 1) * c < last_index <= Z.of_nat n * c ->
  forall m i0 s w,
    (i0 + m = n)%nat ->
    (0 < m -> batch_size s = c)%nat ->
    u_num_calls s = Z.min (Z.of_nat i0 * c) last_index ->
    spec (utxo_loop env cache last_index
            (map (fun i => 0 + Z.of_nat i * c) (seq i0 m)) s) w
      (fun s' w' =>
         u_num_calls s' = last_index
         /\ requests (trace w')
            = requests (trace w)
              ++ map (fun r => RequestUtxo (tx_hash r))
                   (slice cache (u_num_calls s) last_index))
      (fun e w' =>
         exists j, u_num_calls s <= j <= last_index
           /\ requests (trace w')
              = requests (trace w)
                ++ map (fun r => RequestUtxo (tx_hash r))
                     (slice cache (u_num_calls s) j)).
Proof.
  intros Hc Hlast Hn.
  induction m as [|m IH]; intros i0 s w Hi Hbatch Hnum.
  - cbn [seq map utxo_loop]. apply spec_ret.
    assert (Hend : u_num_calls s = last_index) by nia.
    split; [exact Hend|]. rewrite Hend. unfold slice.
    rewrite Z.sub_diag. cbn. rewrite app_nil_r. reflexivity.
  - cbn [seq map utxo_loop].
    specialize (Hbatch ltac:(lia)).
    assert (Hbs : Z.of_nat i0 * c < last_index) by nia.
    assert (Hstart : u_num_calls s = Z.of_nat i0 * c) by lia.
    cbn [Z.add].
    set (bs := Z.of_nat i0 * c) in *.
    set (be := Z.min (bs + batch_size s) last_index).
    assert (Hbe : bs <= be <= last_index) by (unfold be; lia).
    pose proof (utxo_round_calls env cache last_index s bs w
                  ltac:(unfold bs; nia) ltac:(fold be; lia) ltac:(lia))
      as Hcalls.
    pose proof (utxo_round_requests env cache last_index s bs w) as Hq.
    fold be in Hcalls, Hq.
    unfold spec in *. unfold bind.
    destruct (utxo_round env cache last_index s bs w) as [[s'|e] w'];
      cbn [snd] in Hq.
    + destruct Hcalls as (Hb' & Hn' & _).
      assert (Hnext : u_num_calls s'
                      = Z.min (Z.of_nat (S i0) * c) last_index)
        by (unfold be, bs in *; nia).
      assert (Hkeep : (0 < m)%nat -> batch_size s' = c).
      { intros Hm. assert ((Z.of_nat i0 + 1) * c < last_index) by nia.
        unfold be, bs in *. lia. }
      assert (Hs' : u_num_calls s' = be) by lia.
      specialize (IH (S i0) s' w' ltac:(lia) Hkeep Hnext).
      destruct (utxo_loop env cache last_index _ s' w') as [[s''|e] w''].
      * destruct IH as [H1 H2]. split; [exact H1|].
        rewrite H2, Hq, <- app_assoc, <- map_app, Hs', Hstart.
        rewrite <- slice_app by (unfold bs in *; nia). reflexivity.
      * destruct IH as (j & Hj & H2). exists j. split; [lia|].
        rewrite H2, Hq, <- app_assoc, <- map_app, Hs', Hstart.
        rewrite <- slice_app by (unfold bs in *; nia). reflexivity.
    + exists be. split; [lia|]. rewrite Hstart. exact Hq.
Qed.

(** X9. The detail flow asks for the UTXOs of the uncached references in
    cache order: with a budget [k >= 0] on a machine with at least one
    core, a run that returns has made exactly [min(k, len(uncached))]
    calls, one for each of the first that many uncached references, in
    their order; a run that raises has made the calls of a leading part
    of them. *)
Theorem detail_requests_in_order env pool_id k w cache u :
  0 <= k -> 1 <= cpu_count env ->
  get_transaction_cache (tx_dir w) = Some cache ->
  uncached cache (get_utxo_cache (utxo_dir w)) = Ok u ->
  spec (cache_utxos env pool_id k) w
    (fun n w' =>
       n = Z.min k (len u)
       /\ requests (trace w')
          = requests (trace w)
            ++ map (fun r => RequestUtxo (tx_hash r))
                 (firstn (Z.to_nat n) u))
    (fun e w' =>
       exists j, 0 <= j <= Z.min k (len u)
         /\ requests (trace w')
            = requests (trace w)
              ++ map (fun r => RequestUtxo (tx_hash r))
                   (firstn (Z.to_nat j) u)).
Proof.
  intros Hk Hcpu Hcache Hu.
  unfold spec, cache_utxos.
  unfold bind at 1, load_transaction_cache. rewrite Hcache.
  unfold bind at 1, load_utxo_cache. rewrite Hu.
  unfold bind at 1, lift_result at 1, ret at 1.
  set (last_index := Z.min k (len u)).
  assert (Hlast : 0 <= last_index <= len u) by (unfold last_index; lia).
  unfold python_range.
  replace (cpu_count env =? 0) with false by (symmetry; apply Z.eqb_neq; lia).
  replace (0 <? cpu_count env) with true by (symmetry; apply Z.ltb_lt; lia).
  unfold bind at 1, lift_result at 1, ret at 1.
  replace (last_index - 0 + cpu_count env - 1)
    with (last_index + cpu_count env - 1) by lia.
  set (q := (last_index + cpu_count env - 1) / cpu_count env).
  assert (Hq : (q - 1) * cpu_count env < last_index <= q * cpu_count env).
  { unfold q. Z.div_mod_to_equations. nia. }
  assert (Hq0 : 0 <= q) by (unfold q; apply Z.div_pos; lia).
  set (s0 := mkUtxoState (cpu_count env) 0 [] 500%Q None).
  pose proof (utxo_loop_requests env u last_index (cpu_count env)
                (Z.to_nat q) ltac:(lia) Hlast ltac:(lia)
                (Z.to_nat q) 0%nat s0 w eq_refl ltac:(reflexivity)
                ltac:(cbn; lia)) as Hl.
  unfold spec in Hl. unfold bind at 1.
  destruct (utxo_loop env u last_index _ s0 w) as [[s|e] w1].
  - destruct Hl as [Hn Ht]. cbn [u_num_calls s0] in Ht.
    rewrite slice_from_start in Ht. unfold bind.
    pose proof (flush_utxo_rest_trace (tx_utxos s) w1) as Hf.
    destruct (flush_utxo_rest (tx_utxos s) w1) as [[[]|e] w2];
      cbn [snd] in Hf; unfold ret; cbn beta iota; rewrite Hf.
    + split; [exact Hn|]. rewrite Hn. exact Ht.
    + exists last_index. split; [lia | exact Ht].
  - destruct Hl as (j & Hj & Ht). cbn [u_num_calls s0] in Hj, Ht.
    rewrite slice_from_start in Ht.
    exists j. split; [lia | exact Ht].
Qed.

Module Detail.

(** The reference cache holds [a] and [b]; the UTXO cache holds the rows
    of [a] only. *)
Definition w : world := mkWorld [(202301, Rewrite.merged)] UtxoSample.d 0 [].

Definition pending : list PoolTransactionReference :=
  [mkTx "b" 0 2 (timestamp 2023 1 20)].

End Detail.

Lemma detail_requests_in_order_witness :
  spec (cache_utxos (Sample.env 4) "pool1" 5) Detail.w
    (fun n w' => n = 1 /\ requests (trace w') = [RequestUtxo "b"])
    (fun e w' =>
       exists j, 0 <= j <= 1
         /\ requests (trace w')
            = map (fun r => RequestUtxo (tx_hash r))
                (firstn (Z.to_nat j) Detail.pending)).
Proof.
  apply (detail_requests_in_order (Sample.env 4) "pool1" 5 Detail.w
           Rewrite.merged Detail.pending);
    [lia | cbn; lia | reflexivity | reflexivity].
Defined.

(* ===================================================================== *)
(** ** Edges of a run                                                     *)
(* ===================================================================== *)

Lemma fetch_loop_spent fuel env pool_id k s w :
  k <= num_calls s -> fetch_loop fuel env pool_id k s w = (Ok s, w).
Proof.
  intros H. assert (G : (num_calls s <? k) = false) by (apply Z.ltb_ge; lia).
  destruct fuel; cbn [fetch_loop]; rewrite G, andb_false_r; reflexivity.
Qed.

(** X10. A budget of zero or less buys nothing. [cache_transactions]
    makes no call and leaves both directories as they were; it returns 0,
    unless the resume estimate is negative, where the executor refuses
    the width. On a machine with at least one core [cache_utxos] leaves
    the world untouched and returns 0, unless the UTXO cache exists and
    is empty, where reading its last row raises [IndexError]. *)
Theorem no_budget_no_calls env pool_id k w :
  k <= 0 ->
  (let run := cache_transactions env pool_id k w in
   (fst run = Ok 0 \/ fst run = Raised ValueError)
   /\ tx_dir (snd run) = tx_dir w
   /\ utxo_dir (snd run) = utxo_dir w
   /\ trace (snd run) = trace w)
  /\ (1 <= cpu_count env ->
      let run := cache_utxos env pool_id k w in
      (fst run = Ok 0 \/ fst run = Raised IndexError) /\ snd run = w).
Proof.
  intros Hk. split.
  - assert (H : exists r t,
               cache_transactions env pool_id k w
               = (r, mkWorld (tx_dir w) (utxo_dir w) t (trace w))
               /\ (r = Ok 0 \/ r = Raised ValueError)).
    { unfold cache_transactions.
      unfold bind at 1, load_transaction_cache.
      destruct (resume_estimate_world env
                  (get_transaction_cache (tx_dir w)) w)
        as (p & b & t & Hres & _).
      unfold bind at 1. rewrite Hres. cbn beta iota.
      unfold bind at 1, ThreadPoolExecutor.
      destruct (at_least_one_call b <=? 0).
      { exists (Raised ValueError), t. split; [reflexivity | tauto]. }
      unfold ret at 1. unfold bind at 1.
      rewrite fetch_loop_spent by (cbn; lia).
      exists (Ok 0), t. split; [reflexivity | tauto]. }
    destruct H as (r & t & Hrun & Hr). cbn zeta. rewrite Hrun.
    cbn [fst snd tx_dir utxo_dir trace]. tauto.
  - intros Hcpu.
    assert (H : exists r,
               cache_utxos env pool_id k w = (r, w)
               /\ (r = Ok 0 \/ r = Raised IndexError)).
    { unfold cache_utxos.
      unfold bind at 1, load_transaction_cache.
      destruct (get_transaction_cache (tx_dir w)) as [cache|].
      2:{ exists (Ok 0). split; [reflexivity | tauto]. }
      unfold bind at 1, load_utxo_cache.
      destruct (uncached cache (get_utxo_cache (utxo_dir w)))
        as [u|e] eqn:Eu.
      2:{ exists (Raised e). split; [reflexivity|]. right.
          revert Eu. unfold uncached.
          destruct (get_utxo_cache (utxo_dir w)) as [rows|];
            [|discriminate].
          destruct (last_time row_time rows); [discriminate|].
          intros [= <-]. reflexivity. }
      unfold bind at 1, lift_result at 1, ret at 1.
      set (last_index := Z.min k (len u)).
      unfold python_range.
      replace (cpu_count env =? 0) with false
        by (symmetry; apply Z.eqb_neq; lia).
      replace (0 <? cpu_count env) with true
        by (symmetry; apply Z.ltb_lt; lia).
      assert (Hn : Z.to_nat ((last_index - 0 + cpu_count env - 1)
                             / cpu_count env) = 0%nat).
      { assert ((last_index - 0 + cpu_count env - 1) / cpu_count env <= 0);
          [|lia].
        assert (last_index <= 0) by (unfold last_index; lia).
        Z.div_mod_to_equations. nia. }
      rewrite Hn. exists (Ok 0). split; [reflexivity | tauto]. }
    destruct H as (r & Hrun & Hr). cbn zeta. rewrite Hrun.
    cbn [fst snd]. tauto.
Qed.

Lemma no_budget_no_calls_witness :
  (let run := cache_transactions (Sample.env 4) "pool1" 0 Detail.w in
   (fst run = Ok 0 \/ fst run = Raised ValueError)
   /\ tx_dir (snd run) = tx_dir Detail.w
   /\ utxo_dir (snd run) = utxo_dir Detail.w
   /\ trace (snd run) = trace Detail.w)
  /\ (let run := cache_utxos (Sample.env 4) "pool1" 0 Detail.w in
      (fst run = Ok 0 \/ fst run = Raised IndexError)
      /\ snd run = Detail.w).
Proof.
  destruct (no_budget_no_calls (Sample.env 4) "pool1" 0 Detail.w
              ltac:(lia)) as [H1 H2].
  split; [exact H1 | apply H2; cbn; lia].
Defined.

(** A round before which no batch has gone ([call_start] is unset) only
    issues its requests. *)
Lemma fetch_round_first_trace env pool_id k s w :
  call_start s = None ->
  trace (snd (fetch_round env pool_id k s w))
  = trace w ++ map Request (page_range (page s) (round_batch k s)).
Proof.
  intros Hcs. unfold fetch_round. fold (round_batch k s). rewrite Hcs.
  unfold bind at 1. rewrite rate_limit_first. cbn beta iota.
  unfold bind at 1, emit_all. cbn [tx_dir utxo_dir ticks trace].
  destruct (collect _ (done s) (transactions s)) as [dn txs].
  unfold bind.
  match goal with
  | |- context [flush_months ?f ?t ?w2] =>
      pose proof (flush_months_trace f t w2) as Hf;
      destruct (flush_months f t w2) as [[rest|e] w3]
  end; unfold ret; cbn beta iota; cbn [snd trace] in *; exact Hf.
Qed.

(** X11. The first batch is never delayed: on a first run (no cache)
    whose budget fits in one batch, [k <= cpu_count()], the run requests
    pages 1 to [k] and nothing else happens, no warning and no sleep,
    however large [k] is compared with the limiter's credit of 500. *)
Theorem run_within_one_batch_never_sleeps env pool_id k w :
  get_transaction_cache (tx_dir w) = None ->
  1 <= k <= cpu_count env ->
  trace (snd (cache_transactions env pool_id k w))
  = trace w ++ map Request (page_range 1 k).
Proof.
  intros Hnone Hk. unfold cache_transactions.
  unfold bind at 1, load_transaction_cache. rewrite Hnone.
  unfold bind at 1, resume_estimate at 1, bind at 1, now at 1, ret at 1.
  cbn beta iota.
  assert (Hone : at_least_one_call (cpu_count env) = cpu_count env).
  { unfold at_least_one_call.
    destruct (cpu_count env =? 0) eqn:E; [apply Z.eqb_eq in E; lia|].
    reflexivity. }
  rewrite Hone. unfold bind at 1, ThreadPoolExecutor.
  replace (cpu_count env <=? 0) with false
    by (symmetry; apply Z.leb_gt; lia).
  unfold ret at 1.
  set (w0 := mkWorld (tx_dir w) (utxo_dir w) (S (ticks w)) (trace w)).
  set (s0 := mkFetch 1 (cpu_count env) 0 false [] 500%Q None).
  destruct (Z.to_nat k) as [|fuel] eqn:Efuel; [lia|].
  cbn [fetch_loop]. cbn [done num_calls s0 negb andb].
  replace (0 <? k) with true by (symmetry; apply Z.ltb_lt; lia).
  assert (Hb : round_batch k s0 = k).
  { unfold round_batch, s0. cbn [num_calls call_batch].
    destruct (0 + cpu_count env >? k) eqn:E; [lia|].
    rewrite Z.gtb_ltb in E. apply Z.ltb_ge in E. lia. }
  pose proof (fetch_round_first_trace env pool_id k s0 w0 eq_refl) as Ht.
  pose proof (fetch_round_calls env pool_id k s0 w0
                ltac:(cbn; lia) ltac:(cbn; lia)) as Hc.
  rewrite Hb in Ht, Hc. unfold spec in Hc. unfold bind.
  destruct (fetch_round env pool_id k s0 w0) as [[s1|e] w1];
    cbn [snd page s0 trace w0] in Ht; [|exact Ht].
  destruct Hc as (_ & Hnc & _). cbn [num_calls s0] in Hnc.
  rewrite fetch_loop_spent by lia.
  pose proof (flush_rest_trace (transactions s1) w1) as Hr.
  destruct (flush_rest (transactions s1) w1) as [[[]|e] w2];
    cbn [snd] in Hr; unfold ret; cbn [snd]; rewrite Hr; exact Ht.
Qed.

Lemma run_within_one_batch_never_sleeps_witness :
  trace (snd (cache_transactions (Sample.env 1000) "pool1" 600
                Sample.empty_world))
  = trace Sample.empty_world ++ map Request (page_range 1 600).
Proof.
  apply (run_within_one_batch_never_sleeps (Sample.env 1000) "pool1" 600
           Sample.empty_world); [reflexivity | cbn; lia].
Defined.

(* ===================================================================== *)
(** ** The resume estimate when the clock is not behind                   *)
(* ===================================================================== *)

Lemma first_before_final df :
  time_ordered time df -> first_time df <= final_time df.
Proof.
  destruct df as [|r tl]; [cbn; lia|]. intros Ho.
  unfold first_time, final_time.
  apply (time_ordered_last time (r :: tl) r r Ho). left. reflexivity.
Qed.

Lemma final_time_window t cache :
  time_ordered time cache ->
  time_ordered time (trailing_window t cache)
  /\ (trailing_window t cache <> [] ->
      final_time (trailing_window t cache) <= final_time cache).
Proof.
  intros Ho. unfold trailing_window.
  set (f := fun r => Qltb (t - thirty_days) (inject_Z (time r))).
  destruct (len (filter f cache) <=? 1); [split; [exact Ho | lia]|].
  split; [apply time_ordered_filter, Ho|]. intros Hne.
  destruct (filter f cache) as [|x l] eqn:Ef; [congruence|].
  assert (Hin : In (last (x :: l) x) cache).
  { assert (H : In (last (x :: l) x) (filter f cache))
      by (rewrite Ef; apply last_In; discriminate).
    apply filter_In in H. tauto. }
  destruct cache as [|c cache']; [destruct Hin|].
  unfold final_time. apply (time_ordered_last time _ _ c Ho Hin).
Qed.

(** X12. When the cache is in time order and the clock is not behind its
    last record, the batch size a run resumes with, after the guard of
    lines 306-307, is at least 1 and at most the core count; the page it
    resumes from is the one after the full pages of the cache. *)
Theorem estimate_between_one_and_cores env cache w p b w' :
  1 <= cpu_count env ->
  time_ordered time cache ->
  (forall n, (inject_Z (final_time cache) <= clock env n)%Q) ->
  resume_estimate env (Some cache) w = (Ok (p, b), w') ->
  p = len cache / 100 + 1
  /\ 1 <= at_least_one_call b <= cpu_count env.
Proof.
  intros Hcpu Ho Hclock. unfold resume_estimate, bind, now, ret.
  cbn [ticks tx_dir utxo_dir trace].
  set (filtered := trailing_window (clock env (ticks w)) cache).
  destruct (final_time_window (clock env (ticks w)) cache Ho) as [Hfo Hfl].
  fold filtered in Hfo, Hfl.
  destruct (len filtered <=? 1) eqn:E1.
  { intros [= <- <- _]. split; [reflexivity | cbn; lia]. }
  destruct (final_time filtered - first_time filtered =? 0) eqn:E2.
  { intros [= <- <- _]. split; [reflexivity | cbn; lia]. }
  intros [= <- <- _]. split; [reflexivity|].
  apply Z.leb_gt in E1. apply Z.eqb_neq in E2.
  pose proof (first_before_final filtered Hfo) as Hff.
  apply estimated_batch_floor_one; [exact Hcpu | | lia | lia].
  assert (Hne : filtered <> []) by (intros H; rewrite H in E1; cbn in E1; lia).
  specialize (Hfl Hne). specialize (Hclock (S (ticks w))).
  assert (Hq : (inject_Z (final_time filtered)
                <= inject_Z (final_time cache))%Q)
    by (rewrite <- Zle_Qle; exact Hfl).
  apply (Qplus_le_l _ _ (inject_Z (final_time filtered))).
  ring_simplify. eapply Qle_trans; [exact Hq | exact Hclock].
Qed.

Lemma estimate_between_one_and_cores_witness :
  3 = len Sample.references / 100 + 1
  /\ 1 <= at_least_one_call 4 <= cpu_count Rerun.env.
Proof.
  apply (estimate_between_one_and_cores Rerun.env Sample.references
           Rerun.cached_world 3 4 Rerun.estimated_world).
  - cbn. lia.
  - apply ascending_ordered. vm_compute. reflexivity.
  - intros n. cbn [clock Rerun.env]. unfold Rerun.late_clock.
    rewrite <- Zle_Qle.
    assert (H : final_time Sample.references <= timestamp 2024 6 1)
      by (apply Z.leb_le; vm_compute; reflexivity).
    lia.
  - vm_compute. reflexivity.
Defined.

(* ===================================================================== *)
(** ** A first run caches a prefix of the remote data                     *)
(* ===================================================================== *)

(** X13. A run from an empty directory against a provider that serves
    time-ordered records, of values pandas and arrow hold ([storable]), in
    pages of 100 returns
    after [n = min(k, c * (len(records) // 100 // c + 1))] calls, [c]
    being the core count, and the cache then reads back as exactly the
    first [100 * n] records, in order: every record once when the budget
    reaches the end of the data, a prefix of whole pages otherwise. *)
Theorem first_run_caches_a_prefix env pool_id records k w :
  get_pool_transaction_history env = paged records ->
  1 <= cpu_count env ->
  time_ordered time records ->
  Forall storable records ->
  1 <= k ->
  tx_dir w = [] ->
  records <> [] ->
  let n := Z.min k (calls_to_end env records) in
  exists w',
    cache_transactions env pool_id k w = (Ok n, w')
    /\ get_transaction_cache (tx_dir w')
       = Some (firstn (Z.to_nat (100 * n)) records)
    /\ (len records < 100 * k ->
        get_transaction_cache (tx_dir w') = Some records)
    /\ (100 * k <= len records ->
        n = k /\ resume_page (tx_dir w') = k + 1).
Proof.
  intros Hprov Hcpu Hord Hstore Hk Hempty Hne n.
  pose proof (storable_years records Hstore) as Hyears.
  destruct (cache_transactions_from_empty env pool_id records k
              Hprov Hcpu Hord Hyears Hk w Hempty)
    as (w' & Hrun & Hw & Hm & Hnil & _).
  fold n in Hrun, Hw, Hnil.
  destruct (calls_to_end_facts env records Hcpu) as (Hq & Hn & Hq0).
  assert (Hn1 : 1 <= n) by (unfold n; lia).
  assert (Hpre : firstn (Z.to_nat (100 * n)) records <> []).
  { destruct records as [|r tl]; [congruence|].
    replace (Z.to_nat (100 * n)) with (S (Z.to_nat (100 * n - 1))) by lia.
    discriminate. }
  assert (Hcache : get_transaction_cache (tx_dir w')
                   = Some (firstn (Z.to_nat (100 * n)) records)).
  { unfold get_transaction_cache. rewrite <- Hw.
    apply vaex_open_written; [exact Hm|].
    intros Habs. apply Hpre, Hnil, Habs. }
  exists w'. split; [exact Hrun|]. split; [exact Hcache|]. split.
  - intros Hall. rewrite Hcache. f_equal. apply firstn_all2.
    unfold n. lia.
  - intros Hfew.
    assert (Hnk : n = k).
    { unfold n. apply Z.min_l.
      assert (k <= len records / 100)
        by (apply Z.div_le_lower_bound; lia).
      lia. }
    split; [exact Hnk|]. unfold resume_page. rewrite Hcache.
    rewrite length_firstn, Hnk.
    replace (Z.of_nat (Nat.min (Z.to_nat (100 * k)) (List.length records)))
      with (k * 100) by lia.
    rewrite Z.div_mul by lia. reflexivity.
Qed.

Lemma first_run_caches_a_prefix_witness :
  exists w',
    cache_transactions (Sample.env 4) "pool1" 2 Sample.empty_world
    = (Ok 2, w')
    /\ get_transaction_cache (tx_dir w')
       = Some (firstn 200 Sample.references)
    /\ resume_page (tx_dir w') = 3.
Proof.
  assert (Hord : time_ordered time Sample.references)
    by (apply ascending_ordered; vm_compute; reflexivity).
  assert (Hyears : Forall storable Sample.references)
    by (apply storable_all; vm_compute; reflexivity).
  destruct (first_run_caches_a_prefix (Sample.env 4) "pool1"
              Sample.references 2 Sample.empty_world eq_refl
              ltac:(cbn; lia) Hord Hyears ltac:(lia) eq_refl
              ltac:(discriminate))
    as (w' & Hrun & Hcache & _ & Hfew).
  exists w'. split; [exact Hrun|]. split; [exact Hcache|].
  apply Hfew. vm_compute. discriminate.
Defined.

(* ===================================================================== *)
(** ** Reading the pages of a batch                                       *)
(* ===================================================================== *)

(** X14. The pages of a batch are read in request order and appended to
    the buffer as they come; reading stops at the first empty page, and
    the pages behind it are dropped even when they hold records. The run
    is marked done exactly when it already was, or a page that was read,
    or the empty page that stopped the reading, is not full. *)
Theorem collect_reads_in_request_order threads dn txs :
  exists n,
    (n <= List.length threads)%nat
    /\ snd (collect threads dn txs) = txs ++ concat (firstn n threads)
    /\ Forall (fun p => p <> []) (firstn n threads)
    /\ ((n < List.length threads)%nat ->
        nth n threads [] = [] /\ fst (collect threads dn txs) = true)
    /\ (n = List.length threads ->
        fst (collect threads dn txs)
        = dn || existsb (fun p => negb (len p =? 100)) threads).
Proof.
  revert dn txs. induction threads as [|p threads IH]; intros dn txs.
  - exists 0%nat. cbn [length firstn concat collect fst snd existsb].
    rewrite app_nil_r, orb_false_r.
    split; [lia|]. split; [reflexivity|]. split; [constructor|].
    split; [intros H; inversion H | reflexivity].
  - cbn [collect].
    destruct (len p =? 100) eqn:Efull; cbn [negb].
    + destruct (IH dn (txs ++ p)) as (n & Hn & Hs & Hall & Hlt & Heq).
      exists (S n). cbn [length firstn concat nth existsb].
      rewrite Efull. cbn [negb orb].
      split; [lia|]. split; [rewrite Hs, app_assoc; reflexivity|].
      split.
      { constructor; [|exact Hall]. intros ->. cbn in Efull. discriminate. }
      split; [intros H; apply Hlt; lia | intros H; apply Heq; lia].
    + destruct (len p =? 0) eqn:Eempty.
      * exists 0%nat. cbn [length firstn concat nth].
        rewrite app_nil_r.
        split; [lia|]. split; [reflexivity|]. split; [constructor|].
        split; [|intros H; discriminate H].
        intros _. split; [|reflexivity].
        apply Z.eqb_eq in Eempty. destruct p; [reflexivity|].
        cbn [length] in Eempty. lia.
      * destruct (IH true (txs ++ p)) as (n & Hn & Hs & Hall & Hlt & Heq).
        exists (S n). cbn [length firstn concat nth existsb].
        rewrite Efull. cbn [negb orb]. rewrite orb_true_r.
        split; [lia|]. split; [rewrite Hs, app_assoc; reflexivity|].
        split.
        { constructor; [|exact Hall]. intros ->. cbn in Eempty.
          discriminate. }
        split; [intros H; apply Hlt; lia|].
        intros H. rewrite Heq by lia. reflexivity.
Qed.

(* ===================================================================== *)
(** ** Writing a month and reading the cache back                         *)
(* ===================================================================== *)

(** X15. Write then read. When every file of the directory matches the
    reader's pattern and is named before the month of the buffer's first
    record, and the buffer holds references pandas and arrow hold
    ([storable]), a flush succeeds and the cache
    then reads back as what it read before followed by the records the
    flush took, in order. *)
Theorem flush_then_read first tl d :
  names_match d ->
  names_below (cache_name (time first)) d ->
  Forall storable (first :: tl) ->
  let txs := first :: tl in
  let before := match get_transaction_cache d with
                | Some cache => cache
                | None => []
                end in
  exists i d',
    (0 < i <= List.length txs)%nat
    /\ _cache_transactions txs d = Ok (d', skipn i txs)
    /\ get_transaction_cache d' = Some (before ++ firstn i txs).
Proof.
  intros Hm Hb Hs txs before.
  assert (Hy : four_digit_year first)
    by (apply storable_four_digit_year; inversion Hs; assumption).
  destruct (split_index_nonempty time first tl) as (i & Hi & Hlt).
  fold txs in Hi, Hlt.
  set (name := cache_name (time first)) in *.
  exists i, (d ++ [(name, firstn i txs)]).
  split; [exact Hlt|]. split.
  - unfold _cache_transactions. rewrite Hi. unfold txs at 1. fold name.
    unfold merge_partition. rewrite (read_feather_below _ _ Hb).
    rewrite (to_feather_append _ _ _ Hb). reflexivity.
  - assert (Hold : before = written d).
    { unfold before, get_transaction_cache.
      destruct d as [|e d0]; [reflexivity|].
      rewrite vaex_open_written by (assumption || discriminate).
      reflexivity. }
    rewrite Hold, <- (written_append name).
    unfold get_transaction_cache. apply vaex_open_written.
    + apply Forall_app. split; [exact Hm|].
      constructor; [|constructor]. cbn [fst]. unfold name.
      apply cache_name_six_digits. exact Hy.
    + destruct d; discriminate.
Qed.

Lemma flush_then_read_witness :
  exists i d',
    (0 < i <= 2)%nat
    /\ _cache_transactions TwoMonths.buffer Rewrite.d
       = Ok (d', skipn i TwoMonths.buffer)
    /\ get_transaction_cache d'
       = Some (Rewrite.old ++ firstn i TwoMonths.buffer).
Proof.
  apply (flush_then_read (mkTx "c" 0 3 (timestamp 2023 2 5))
           [mkTx "d" 0 4 (timestamp 2023 3 5)] Rewrite.d).
  - repeat constructor.
  - repeat constructor.
  - apply storable_all. vm_compute. reflexivity.
Defined.
